(** * The playbook executor of kubekey (package [executor])

    A shallow embedding of [executor.Exec], [executor.execBlock],
    [executor.executeTask], [executor.execLoop], [executor.executeModule]
    and [executor.mergeVariable], and the properties of the executor
    that the design document states about them.

    The executor mutates three things through pointers: the pipeline
    object, the variable store and the API objects behind the client.
    They are threaded through a state monad.  Returned [error]s, a Go
    panic and a drive loop that has not finished within its fuel are the
    three ways a computation can stop early. *)

From Stdlib Require Import String List ZArith Bool Lia Permutation.
Import ListNotations.
Local Open Scope string_scope.
Local Open Scope list_scope.

Set Implicit Arguments.

(** ** Values *)

(** Go's [any] as it occurs in variables, loop items and module
    arguments decoded from YAML.  [ANaN] is a float64 NaN, the one value
    here that [json.Marshal] refuses. *)
#[warnings="-register-all"] Inductive any : Type :=
| ANil
| ABool (b : bool)
| AInt (z : Z)
| ANaN
| AStr (s : string)
| ASlice (l : list any)
| AMap (m : list (string * any)).

(** [map[string]any]; an association list in iteration order. *)
Definition Scope : Type := list (string * any).

(** A Go [int] counter: 64 bits, two's complement. *)
Definition wrap64 (z : Z) : Z := ((z + 2 ^ 63) mod 2 ^ 64 - 2 ^ 63)%Z.

(** [x++] *)
Definition incr (x : Z) : Z := wrap64 (x + 1).

(** ** Errors *)

(** The [error] values that leave the executor.  [Upstream] is an error
    handed back by a collaborator and returned unchanged; the other three
    are made here with [fmt.Errorf]. *)
Inductive error : Type :=
| Upstream (msg : string)
| HostIsEmpty
| NoModuleDetected (task : string)
| TaskRunFailed (task : string).

(** [err.Error()] *)
Definition Error (e : error) : string :=
  match e with
  | Upstream msg => msg
  | HostIsEmpty => "host is empty"
  | NoModuleDetected t => "no module/action detected in task: " ++ t
  | TaskRunFailed t => "task " ++ t ++ " run failed"
  end.

(** ** API types *)

Inductive PipelinePhase : Type :=
| PipelinePhasePending
| PipelinePhaseRunning
| PipelinePhaseSucceed
| PipelinePhaseFailed.

Inductive TaskPhase : Type :=
| TaskPhasePending
| TaskPhaseRunning
| TaskPhaseSuccess
| TaskPhaseIgnored
| TaskPhaseFailed.

(** [TaskHostResult], [TaskFailedDetail] and [PipelineFailedDetailHost]
    all are the triple host, stdout, stderr. *)
Record HostOutput : Type := mkHostOutput {
  Host : string;
  Stdout : string;
  StdErr : string
}.

Definition TaskHostResult : Type := HostOutput.
Definition TaskFailedDetail : Type := HostOutput.
Definition PipelineFailedDetailHost : Type := HostOutput.

(** [TaskCondition]; its two timestamps are wall-clock readings and are
    left out. *)
Record TaskCondition : Type := mkTaskCondition {
  HostResults : list TaskHostResult
}.

Record KubeKeyTaskSpec : Type := mkTaskSpec {
  Spec_Name : string;
  Spec_Hosts : list string;
  IgnoreError : bool;
  Spec_When : list string;
  FailedWhen : list string;
  Register : string;
  Loop_Raw : option string;          (* [Spec.Loop.Raw]; [None] is nil *)
  Module_Name : string;
  Module_Args : string               (* [Spec.Module.Args.Raw] *)
}.

Record TaskStatus : Type := mkTaskStatus {
  Task_Phase : TaskPhase;
  RestartCount : Z;
  Conditions : list TaskCondition;
  Task_FailedDetail : list TaskFailedDetail
}.

Record Task : Type := mkTask {
  Task_Name : string;
  GenerateName : string;
  Task_Namespace : string;
  OwnerReference : option string;    (* the controlling owner, by name *)
  RoleAnnotation : string;
  Spec : KubeKeyTaskSpec;
  Status : TaskStatus
}.

Record PipelineFailedDetail : Type := mkPipelineFailedDetail {
  FD_Task : string;
  FD_Hosts : list PipelineFailedDetailHost
}.

Record PipelineTaskResult : Type := mkTaskResult {
  Total : Z;
  Success : Z;
  Ignored : Z;
  Failed : Z
}.

Record PipelineStatus : Type := mkPipelineStatus {
  TaskResult : PipelineTaskResult;
  Phase : PipelinePhase;
  Reason : string;
  FailedDetail : list PipelineFailedDetail
}.

Record Pipeline : Type := mkPipeline {
  Pipeline_Name : string;
  Pipeline_Namespace : string;
  Playbook_Path : string;            (* [Spec.Playbook] *)
  Tags : list string;
  SkipTags : list string;
  PStatus : PipelineStatus
}.

(** *** Field updates *)

Definition set_Module (n args : string) (sp : KubeKeyTaskSpec) : KubeKeyTaskSpec :=
  mkTaskSpec (Spec_Name sp) (Spec_Hosts sp) (IgnoreError sp) (Spec_When sp)
    (FailedWhen sp) (Register sp) (Loop_Raw sp) n args.

Definition set_Spec (sp : KubeKeyTaskSpec) (t : Task) : Task :=
  mkTask (Task_Name t) (GenerateName t) (Task_Namespace t) (OwnerReference t)
    (RoleAnnotation t) sp (Status t).

Definition set_Status (st : TaskStatus) (t : Task) : Task :=
  mkTask (Task_Name t) (GenerateName t) (Task_Namespace t) (OwnerReference t)
    (RoleAnnotation t) (Spec t) st.

Definition set_GenerateName (g ns : string) (t : Task) : Task :=
  mkTask (Task_Name t) g ns (OwnerReference t) (RoleAnnotation t) (Spec t)
    (Status t).

Definition set_OwnerReference (owner : string) (t : Task) : Task :=
  mkTask (Task_Name t) (GenerateName t) (Task_Namespace t) (Some owner)
    (RoleAnnotation t) (Spec t) (Status t).

Definition set_Task_Phase (p : TaskPhase) (t : Task) : Task :=
  set_Status (mkTaskStatus p (RestartCount (Status t)) (Conditions (Status t))
                (Task_FailedDetail (Status t))) t.

Definition add_Task_FailedDetail (d : TaskFailedDetail) (t : Task) : Task :=
  set_Status (mkTaskStatus (Task_Phase (Status t)) (RestartCount (Status t))
                (Conditions (Status t)) (Task_FailedDetail (Status t) ++ [d])) t.

Definition add_Condition (cd : TaskCondition) (t : Task) : Task :=
  set_Status (mkTaskStatus (Task_Phase (Status t)) (RestartCount (Status t))
                (Conditions (Status t) ++ [cd]) (Task_FailedDetail (Status t))) t.

Definition set_PStatus (st : PipelineStatus) (p : Pipeline) : Pipeline :=
  mkPipeline (Pipeline_Name p) (Pipeline_Namespace p) (Playbook_Path p)
    (Tags p) (SkipTags p) st.

Definition set_Phase (ph : PipelinePhase) (st : PipelineStatus) : PipelineStatus :=
  mkPipelineStatus (TaskResult st) ph (Reason st) (FailedDetail st).

Definition set_TaskResult (r : PipelineTaskResult) (st : PipelineStatus) : PipelineStatus :=
  mkPipelineStatus r (Phase st) (Reason st) (FailedDetail st).

Definition set_Reason (r : string) (st : PipelineStatus) : PipelineStatus :=
  mkPipelineStatus (TaskResult st) (Phase st) r (FailedDetail st).

Definition add_FailedDetail (d : PipelineFailedDetail) (st : PipelineStatus) : PipelineStatus :=
  mkPipelineStatus (TaskResult st) (Phase st) (Reason st) (FailedDetail st ++ [d]).

(** Modelled from the spec: [Task.IsComplete] and [Task.IsFailed] are
    declared with the API types, outside this package.  The design
    document gives the terminal phases as Succeeded, Ignored and Failed. *)
Definition IsFailed (t : Task) : bool :=
  match Task_Phase (Status t) with
  | TaskPhaseFailed => true
  | _ => false
  end.

Definition IsComplete (t : Task) : bool :=
  match Task_Phase (Status t) with
  | TaskPhaseSuccess | TaskPhaseIgnored | TaskPhaseFailed => true
  | TaskPhasePending | TaskPhaseRunning => false
  end.

(** ** Playbook *)

(** [kkcorev1.Block].  [UnknownFiled] is a Go map; the list gives its
    entries in the order one [range] over it visits them. *)
#[warnings="-register-all"] Inductive Block : Type :=
  mkBlock (Block_Name : string)
          (Block_Tags : list string)
          (Block_When : list string)
          (Block_Vars : Scope)
          (RunOnce : bool)
          (Block_Block : list Block)
          (Rescue : list Block)
          (Always : list Block)
          (IncludeTasks : string)
          (Block_FailedWhen : list string)
          (Block_Register : string)
          (Block_Loop : option string)
          (IgnoreErrors : bool)
          (UnknownFiled : list (string * any)).

Definition Block_Name (b : Block) := let 'mkBlock n _ _ _ _ _ _ _ _ _ _ _ _ _ := b in n.
Definition Block_Tags (b : Block) := let 'mkBlock _ t _ _ _ _ _ _ _ _ _ _ _ _ := b in t.
Definition Block_When (b : Block) := let 'mkBlock _ _ w _ _ _ _ _ _ _ _ _ _ _ := b in w.
Definition Block_Vars (b : Block) := let 'mkBlock _ _ _ v _ _ _ _ _ _ _ _ _ _ := b in v.
Definition RunOnce (b : Block) := let 'mkBlock _ _ _ _ r _ _ _ _ _ _ _ _ _ := b in r.
Definition Block_Block (b : Block) := let 'mkBlock _ _ _ _ _ l _ _ _ _ _ _ _ _ := b in l.
Definition Rescue (b : Block) := let 'mkBlock _ _ _ _ _ _ l _ _ _ _ _ _ _ := b in l.
Definition Always (b : Block) := let 'mkBlock _ _ _ _ _ _ _ l _ _ _ _ _ _ := b in l.
Definition IncludeTasks (b : Block) := let 'mkBlock _ _ _ _ _ _ _ _ i _ _ _ _ _ := b in i.
Definition Block_FailedWhen (b : Block) := let 'mkBlock _ _ _ _ _ _ _ _ _ f _ _ _ _ := b in f.
Definition Block_Register (b : Block) := let 'mkBlock _ _ _ _ _ _ _ _ _ _ r _ _ _ := b in r.
Definition Block_Loop (b : Block) := let 'mkBlock _ _ _ _ _ _ _ _ _ _ _ l _ _ := b in l.
Definition IgnoreErrors (b : Block) := let 'mkBlock _ _ _ _ _ _ _ _ _ _ _ _ i _ := b in i.
Definition UnknownFiled (b : Block) := let 'mkBlock _ _ _ _ _ _ _ _ _ _ _ _ _ u := b in u.

Record Role : Type := mkRole {
  Role_Role : string;
  Role_Vars : Scope;
  Role_When : list string;
  Role_Block : list Block
}.

Record Play : Type := mkPlay {
  Play_Name : string;
  Play_Tags : list string;
  PlayHost : list string;            (* [PlayHost.Hosts] *)
  GatherFacts : bool;
  Play_RunOnce : bool;
  Serial : list any;                 (* [Serial.Data] *)
  Play_Vars : Scope;
  PreTasks : list Block;
  Roles : list Role;
  Tasks : list Block;
  PostTasks : list Block
}.

Record Playbook : Type := mkPlaybook {
  Plays : list Play                  (* [pb.Play] *)
}.

(** [project.Project], of which the executor calls one method. *)
Record Project : Type := mkProject {
  MarshalPlaybook : string + Playbook
}.

(** [execBlockOptions] *)
Record execBlockOptions : Type := mkOptions {
  hosts : list string;
  blocks : list Block;
  role : string;
  when : list string
}.

(** [modules.ExecOptions], without its [Variable] field: the variable
    store a module works on is the one of the executor state. *)
Record ExecOptions : Type := mkExecOptions {
  Args : string;
  Opt_Host : string;
  Opt_Task : Task;
  Opt_Pipeline : Pipeline
}.

(** ** The world around the executor *)

(** Where a merge into the variable store is issued from. *)
Inductive MergeSite : Type :=
| SiteVars          (* [mergeVariable] *)
| SiteSetItem       (* the loop, before the module *)
| SiteClearItem     (* the loop, after the module *)
| SiteRegister.     (* the deferred function of a host unit *)

(** What the executor does to its surroundings, in the order it does it.
    The trace is an account kept beside the state; no code reads it. *)
Inductive event : Type :=
| EvPhase (p : PipelinePhase)
    (* an assignment to [e.pipeline.Status.Phase] *)
| EvMerge (site : MergeSite) (host : string) (vd : Scope) (ok : bool)
    (* [e.variable.Merge(variable.MergeRuntimeVariable(host, vd))] and
       whether it returned nil *)
| EvModule (host : string) (name : string)
    (* a call of the function [modules.FindModule(name)] *)
| EvCreate (t : Task).
    (* [e.client.Create(ctx, t)] *)

Section Executor.

Variables Store Client : Type.

(** A registered module.  It is handed the variable store and may merge
    into it. *)
Definition ModuleExecFunc : Type :=
  ExecOptions -> Store -> (string * string) * Store.

(** The collaborators of the executor.  None of them is part of the
    package; each is taken as given.  A [string] on the left of a sum or
    in an [option] is the message of a returned error. *)
Record Env : Type := mkEnv {
  (* package variable *)
  GetAllVariable : string -> Store -> string + Scope;
  GetHostnames : list string -> Store -> string + list string;
  MergeRuntimeVariable : string -> Scope -> Store -> option string * Store;
  MergeRemoteVariable : string -> Scope -> Store -> option string * Store;
  Extension2Slice : Scope -> string -> list any;
  (* package tmpl *)
  ParseBool : Scope -> list string -> string + bool;
  (* package modules *)
  FindModule : string -> option ModuleExecFunc;
  (* package converter *)
  GroupHostBySerial : list string -> list any -> string + list (list string);
  (* package project *)
  project_New : Pipeline -> string + Project;
  (* Taggable.IsEnabled(tags, skipTags) *)
  IsEnabled : list string -> list string -> list string -> bool;
  (* controllerutil; on success the task is owned by the pipeline *)
  SetControllerReference : Pipeline -> Task -> option string;
  (* json *)
  json_Marshal : any -> string + string;
  (* ctrlclient.Client; Create fills in the name of the object *)
  client_Create : Task -> Client -> (string + Task) * Client;
  client_StatusUpdate : Task -> Client -> option string * Client;
  (* getGatherFact, from another file of the package *)
  getGatherFact : string -> Store -> (string + Scope) * Store;
  (* the Go runtime: which of the host units of a task that are still to
     run comes next, one number for each choice *)
  schedule : Task -> list nat
}.

Variable E : Env.

(** ** State and control *)

Record state : Type := mkState {
  pipeline : Pipeline;               (* [*e.pipeline] *)
  variable : Store;                  (* [e.variable] *)
  client : Client;                   (* [e.client] *)
  trace : list event
}.

Inductive outcome (A : Type) : Type :=
| Done (a : A)                       (* came to its end; for an [error] result, nil *)
| Raise (e : error)                  (* returned a non-nil error *)
| Panic                              (* a panic on the goroutine of [Exec] *)
| Crash                              (* a panic on the goroutine of a host unit:
                                        the process ends *)
| Diverge.                           (* the drive loop is still going *)

Arguments Raise {A} e.
Arguments Panic {A}.
Arguments Crash {A}.
Arguments Diverge {A}.

Definition M (A : Type) : Type := state -> outcome A * state.

Definition ret {A} (a : A) : M A := fun s => (Done a, s).

Definition bind {A B} (m : M A) (f : A -> M B) : M B :=
  fun s =>
    match m s with
    | (Done a, s') => f a s'
    | (Raise e, s') => (Raise e, s')
    | (Panic, s') => (Panic, s')
    | (Crash, s') => (Crash, s')
    | (Diverge, s') => (Diverge, s')
    end.

Notation "x <- c1 ;; c2" := (bind c1 (fun x => c2))
  (at level 61, c1 at next level, right associativity).
Notation "c1 ;; c2" := (bind c1 (fun _ => c2))
  (at level 61, right associativity).

Definition raise {A} (e : error) : M A := fun s => (Raise e, s).
Definition panic {A} : M A := fun s => (Panic, s).
Definition crash {A} : M A := fun s => (Crash, s).
Definition diverge {A} : M A := fun s => (Diverge, s).

(** [defer]: the deferred function runs when the body returns or panics
    on this goroutine. *)
Definition withDefer {A} (body : M A) (deferred : M unit) : M A :=
  fun s =>
    match body s with
    | (Diverge, s') => (Diverge, s')
    | (Crash, s') => (Crash, s')
    | (r, s') => (r, snd (deferred s'))
    end.

Definition record (ev : event) : M unit :=
  fun s => (Done tt, mkState (pipeline s) (variable s) (client s) (trace s ++ [ev])).

Definition getPipeline : M Pipeline := fun s => (Done (pipeline s), s).

Definition modifyStatus (f : PipelineStatus -> PipelineStatus) : M unit :=
  fun s => (Done tt, mkState (set_PStatus (f (PStatus (pipeline s))) (pipeline s))
                       (variable s) (client s) (trace s)).

(** [e.pipeline.Status.Phase = ph] *)
Definition setPhase (ph : PipelinePhase) : M unit :=
  modifyStatus (set_Phase ph) ;; record (EvPhase ph).

(** [e.variable.Get(variable.GetAllVariable(host))] *)
Definition Get_AllVariable (host : string) : M (string + Scope) :=
  fun s => (Done (GetAllVariable E host (variable s)), s).

(** [e.variable.Get(variable.GetHostnames(names))] *)
Definition Get_Hostnames (names : list string) : M (string + list string) :=
  fun s => (Done (GetHostnames E names (variable s)), s).

(** [e.variable.Merge(variable.MergeRuntimeVariable(host, vd))] *)
Definition Merge (site : MergeSite) (host : string) (vd : Scope) : M (option string) :=
  fun s =>
    let (err, v') := MergeRuntimeVariable E host vd (variable s) in
    (Done err,
     mkState (pipeline s) v' (client s)
       (trace s ++ [EvMerge site host vd (match err with None => true | Some _ => false end)])).

(** [e.variable.Merge(variable.MergeRemoteVariable(host, vd))] *)
Definition MergeRemote (host : string) (vd : Scope) : M (option string) :=
  fun s =>
    let (err, v') := MergeRemoteVariable E host vd (variable s) in
    (Done err, mkState (pipeline s) v' (client s) (trace s)).

(** [e.client.Create(ctx, task)] *)
Definition Create (task : Task) : M Task :=
  record (EvCreate task) ;;
  fun s =>
    let (r, c') := client_Create E task (client s) in
    let s' := mkState (pipeline s) (variable s) c' (trace s) in
    match r with
    | inl err => (Raise (Upstream err), s')
    | inr task' => (Done task', s')
    end.

(** [e.client.Status().Update(ctx, task)] *)
Definition StatusUpdate (task : Task) : M (option string) :=
  fun s =>
    let (err, c') := client_StatusUpdate E task (client s) in
    (Done err, mkState (pipeline s) (variable s) c' (trace s)).

(** ** [mergeVariable] *)

Fixpoint mergeVariable_hosts (vd : Scope) (hs : list string) : M unit :=
  match hs with
  | [] => ret tt
  | host :: rest =>
      r <- Merge SiteVars host vd ;;
      match r with
      | Some err => raise (Upstream err)
      | None => mergeVariable_hosts vd rest
      end
  end.

Definition mergeVariable (vd : Scope) (hs : list string) : M unit :=
  match vd with
  | [] => ret tt
  | _ :: _ => mergeVariable_hosts vd hs
  end.

(** ** [executeModule] *)

Definition executeModule (task : Task) (opts : ExecOptions) : M (string * string) :=
  lg <- Get_AllVariable (Opt_Host opts) ;;
  match lg with
  | inl err => ret ("", err)
  | inr lg =>
      match
        match FailedWhen (Spec task) with
        | [] => inr false
        | _ :: _ => ParseBool E lg (FailedWhen (Spec task))
        end
      with
      | inl err => ret ("", err)
      | inr true => ret ("", "failed by failedWhen")
      | inr false =>
          match FindModule E (Module_Name (Spec task)) with
          | None => crash              (* call of a nil function *)
          | Some m =>
              record (EvModule (Opt_Host opts) (Module_Name (Spec task))) ;;
              fun s =>
                let (out, v') := m opts (variable s) in
                (Done out, mkState (pipeline s) v' (client s) (trace s))
          end
      end
  end.

(** ** [execLoop] *)

Definition execLoop (ha : Scope) (task : Task) : string + list any :=
  match Loop_Raw (Spec task) with
  | None => inr [ANil]
  | Some raw => inr (Extension2Slice E ha raw)
  end.

(** ** [executeTask] *)

(** The [for _, item := range loop] of a host unit.  [out] is the pair
    of the unit's variables [stdout] and [stderr]. *)
Fixpoint loopItems (task : Task) (host : string) (loop : list any)
    (out : string * string) : M (string * string) :=
  match loop with
  | [] => ret out
  | item :: rest =>
      r <- Merge SiteSetItem host [("item", item)] ;;
      match r with
      | Some err => ret (fst out, ("set loop item to variable error: " ++ err)%string)
      | None =>
          p <- getPipeline ;;
          out' <- executeModule task
                    (mkExecOptions (Module_Args (Spec task)) host task p) ;;
          r' <- Merge SiteClearItem host [("item", ANil)] ;;
          match r' with
          | Some err => ret (fst out', ("clean loop item to variable error: " ++ err)%string)
          | None => loopItems task host rest out'
          end
      end
  end.

(** The function a host unit runs, up to its deferred function. *)
Definition hostBody (task : Task) (host : string) : M (string * string) :=
  ha <- Get_AllVariable host ;;
  match ha with
  | inl err => ret ("", ("get variable error: " ++ err)%string)
  | inr ha =>
      match
        match Spec_When (Spec task) with
        | [] => inr true
        | _ :: _ => ParseBool E ha (Spec_When (Spec task))
        end
      with
      | inl err => ret ("", ("parse when condition error: " ++ err)%string)
      | inr false => ret ("skip", "")
      | inr true =>
          match execLoop ha task with
          | inl err => ret ("", ("parse loop vars error: " ++ err)%string)
          | inr loop => loopItems task host loop ("", "")
          end
      end
  end.

(** How a host unit ends: the last values of [stdout] and [stderr], and
    what it put on [dataChan]. *)
Record unitExit : Type := mkUnitExit {
  exit_stdout : string;
  exit_stderr : string;
  sent : option TaskHostResult
}.

(** One host unit: the body, then the deferred function. *)
Definition hostUnit (task : Task) (host : string) : M unitExit :=
  out <- hostBody task host ;;
  let (stdout, stderr) := out in
  if Register (Spec task) =? "" then
    ret (mkUnitExit stdout stderr (Some (mkHostOutput host stdout stderr)))
  else
    r <- Merge SiteRegister host
           [(Register (Spec task),
             AMap [("stdout", AStr stdout); ("stderr", AStr stderr)])] ;;
    match r with
    | Some err =>
        ret (mkUnitExit stdout (("register task result to variable error: " ++ err)%string) None)
    | None =>
        ret (mkUnitExit stdout stderr (Some (mkHostOutput host stdout stderr)))
    end.

(** The [k]-th of the host units [h :: rest] that are still to run (the
    last of them when there are fewer), and the others in their order. *)
Fixpoint extract (k : nat) (h : string) (rest : list string) : string * list string :=
  match k, rest with
  | S k', h' :: rest' => let (x, l) := extract k' h' rest' in (x, h :: l)
  | _, _ => (h, rest)
  end.

(** The order in which the host units of [hs] run under the choices
    [picks]; when the choices are used up, the units left run in the
    order of the host list. *)
Fixpoint arrange (picks : list nat) (hs : list string) : list string :=
  match picks, hs with
  | k :: picks', h :: rest => let (x, l) := extract k h rest in x :: arrange picks' l
  | _, _ => hs
  end.

(** The host units of [hs], one after the other, and what arrives on
    [dataChan], in the order of arrival. *)
Fixpoint hostUnits (task : Task) (hs : list string) : M (list TaskHostResult) :=
  match hs with
  | [] => ret []
  | h :: rest =>
      u <- hostUnit task h ;;
      rs <- hostUnits task rest ;;
      ret (match sent u with Some r => r :: rs | None => rs end)
  end.

(** One turn of [for data := range dataChan]. *)
Definition collect (acc : Task * TaskCondition) (data : TaskHostResult)
    : Task * TaskCondition :=
  let (task, cd) := acc in
  (if StdErr data =? "" then task
   else if IgnoreError (Spec task) then set_Task_Phase TaskPhaseIgnored task
   else add_Task_FailedDetail
          (mkHostOutput (Host data) (Stdout data) (StdErr data))
          (set_Task_Phase TaskPhaseFailed task),
   mkTaskCondition (HostResults cd ++ [data])).

(** What [executeTask] makes of the task, given what arrived. *)
Definition aggregate (task : Task) (arrived : list TaskHostResult) : Task :=
  let (task', cd) :=
    fold_left collect arrived
      (set_Task_Phase TaskPhaseSuccess task, mkTaskCondition []) in
  add_Condition cd task'.

(** The task is behind a pointer; the result is the task as it is when
    [executeTask] returns.  The source starts one host unit for each
    host of [task.Spec.Hosts] and takes the results from [dataChan] as
    they arrive: the Go runtime decides the order.  Here the units run
    one at a time, each to its end, in the order that the scheduler of
    [E] gives, and their results arrive in that order.  Runs in which
    the steps of two units alternate are not followed. *)
Definition executeTask (task : Task) (options : execBlockOptions) : M Task :=
  arrived <- hostUnits task (arrange (schedule E task) (Spec_Hosts (Spec task))) ;;
  ret (aggregate task arrived).

(** ** [execBlock] *)

(** Modelled from the spec: [converter.MarshalBlock] is in another
    package.  The task takes from the block its name, failed-when,
    register, loop and ignore-error, and from the walker the role, the
    hosts and the when stack; the module is chosen afterwards, from the
    unrecognised fields. *)
Definition MarshalBlock (role : string) (hosts : list string)
    (when : list string) (block : Block) : Task :=
  mkTask "" "" "" None role
    (mkTaskSpec (Block_Name block) hosts (IgnoreErrors block) when
       (Block_FailedWhen block) (Block_Register block) (Block_Loop block) "" "")
    (mkTaskStatus TaskPhasePending 0 [] []).

(** [for n, a := range at.UnknownFiled]: the first field that names a
    registered module becomes the module of the task; every field met on
    the way is marshalled first. *)
Fixpoint completeModule (fields : list (string * any)) (task : Task) : error + Task :=
  match fields with
  | [] => inr task
  | (n, a) :: rest =>
      match json_Marshal E a with
      | inl err => inl (Upstream err)
      | inr data =>
          match FindModule E n with
          | Some _ => inr (set_Spec (set_Module n data (Spec task)) task)
          | None => completeModule rest task
          end
      end
  end.

(** The leaf case, from [converter.MarshalBlock] to [e.client.Create]. *)
Definition materializeTask (options : execBlockOptions) (hosts : list string)
    (at_ : Block) : M Task :=
  p <- getPipeline ;;
  let task := MarshalBlock (role options) hosts (when options ++ Block_When at_) at_ in
  let task := set_GenerateName (Pipeline_Name p ++ "-")%string (Pipeline_Namespace p) task in
  match SetControllerReference E p task with
  | Some err => raise (Upstream err)
  | None =>
      let task := set_OwnerReference (Pipeline_Name p) task in
      match completeModule (UnknownFiled at_) task with
      | inl e => raise e
      | inr task =>
          if Module_Name (Spec task) =? "" then
            raise (NoModuleDetected (Task_Name task))
          else Create task
      end
  end.

(** The drive loop [for { ... }] of the leaf case.  Each unit of fuel
    pays for one turn. *)
Fixpoint driveLoop (fuel : nat) (task : Task) (options : execBlockOptions) : M Task :=
  match fuel with
  | O => diverge
  | S fuel' =>
      let task := set_Task_Phase TaskPhaseRunning task in
      _ <- StatusUpdate task ;;
      task <- executeTask task options ;;
      r <- StatusUpdate task ;;
      match r with
      | Some err => raise (Upstream err)
      | None =>
          if IsComplete task then ret task
          else driveLoop fuel' task options
      end
  end.

(** The leaf case after the drive loop: the counters, and the exit when
    the task failed. *)
Definition countTask (task : Task) : M unit :=
  modifyStatus (fun st =>
    let r := TaskResult st in
    set_TaskResult (mkTaskResult (incr (Total r)) (Success r) (Ignored r) (Failed r)) st) ;;
  modifyStatus (fun st =>
    let r := TaskResult st in
    match Task_Phase (Status task) with
    | TaskPhaseSuccess =>
        set_TaskResult (mkTaskResult (Total r) (incr (Success r)) (Ignored r) (Failed r)) st
    | TaskPhaseIgnored =>
        set_TaskResult (mkTaskResult (Total r) (Success r) (incr (Ignored r)) (Failed r)) st
    | TaskPhaseFailed =>
        set_TaskResult (mkTaskResult (Total r) (Success r) (Ignored r) (incr (Failed r))) st
    | _ => st
    end) ;;
  if IsFailed task then
    let hostReason :=
      map (fun tr => mkHostOutput (Host tr) (Stdout tr) (StdErr tr))
        (Task_FailedDetail (Status task)) in
    modifyStatus (add_FailedDetail
                    (mkPipelineFailedDetail (Spec_Name (Spec task)) hostReason)) ;;
    setPhase PipelinePhaseFailed ;;
    modifyStatus (set_Reason ("task " ++ Task_Name task ++ " run failed")%string) ;;
    raise (TaskRunFailed (Task_Name task))
  else ret tt.

(** The [default] case of the switch. *)
Definition execLeaf (fuel : nat) (options : execBlockOptions) (hosts : list string)
    (at_ : Block) : M unit :=
  task <- materializeTask options hosts at_ ;;
  task <- driveLoop fuel task options ;;
  countTask task.

(** [hosts := options.hosts], cut to [options.hosts[0]] under run-once;
    [None] is the index out of range. *)
Definition blockHosts (options : execBlockOptions) (at_ : Block) : option (list string) :=
  if RunOnce at_ then
    match hosts options with
    | h :: _ => Some [h]
    | [] => None
    end
  else Some (hosts options).

(** The body of [for _, at := range options.blocks], with the recursive
    call on a block list as [walk]. *)
Definition blockBody (walk : execBlockOptions -> M unit) (fuel : nat)
    (options : execBlockOptions) (at_ : Block) : M unit :=
  p <- getPipeline ;;
  if negb (IsEnabled E (Block_Tags at_) (Tags p) (SkipTags p)) then ret tt
  else
    match blockHosts options at_ with
    | None => panic
    | Some hosts =>
        mergeVariable (Block_Vars at_) hosts ;;
        match Block_Block at_ with
        | _ :: _ =>
            let sub bs := mkOptions hosts bs (role options) (when options ++ Block_When at_) in
            walk (sub (Block_Block at_)) ;;
            p <- getPipeline ;;
            match Phase (PStatus p), Rescue at_ with
            | PipelinePhaseFailed, _ :: _ => walk (sub (Rescue at_))
            | _, _ => ret tt
            end ;;
            match Always at_ with
            | _ :: _ => walk (sub (Always at_))
            | [] => ret tt
            end
        | [] =>
            if negb (IncludeTasks at_ =? "") then ret tt
            else execLeaf fuel options hosts at_
        end
    end.

(** One block of the walk.  The recursion is on the block tree. *)
Fixpoint execBlock_at (fuel : nat) (options : execBlockOptions) (at_ : Block)
    {struct at_} : M unit :=
  blockBody
    (fun o =>
       (fix walk (bs : list Block) : M unit :=
          match bs with
          | [] => ret tt
          | b :: bs' => execBlock_at fuel o b ;; walk bs'
          end) (blocks o))
    fuel options at_.

(** [for _, at := range bs] under the options [o]. *)
Definition execBlock_range (fuel : nat) (o : execBlockOptions) : list Block -> M unit :=
  fix walk (bs : list Block) : M unit :=
    match bs with
    | [] => ret tt
    | b :: bs' => execBlock_at fuel o b ;; walk bs'
    end.

Definition execBlock (fuel : nat) (options : execBlockOptions) : M unit :=
  execBlock_range fuel options (blocks options).

(** ** [Exec] *)

(** [getGatherFact(ctx, h, e.variable)] *)
Definition Get_GatherFact (h : string) : M (string + Scope) :=
  fun s =>
    let (r, v') := getGatherFact E h (variable s) in
    (Done r, mkState (pipeline s) v' (client s) (trace s)).

(** [for _, h := range hosts] under [if play.GatherFacts]. *)
Fixpoint gatherFacts (hs : list string) : M unit :=
  match hs with
  | [] => ret tt
  | h :: rest =>
      gfv <- Get_GatherFact h ;;
      match gfv with
      | inl err => raise (Upstream err)
      | inr gfv =>
          r <- MergeRemote h gfv ;;
          match r with
          | Some err => raise (Upstream err)
          | None => gatherFacts rest
          end
      end
  end.

(** [for _, role := range play.Roles] *)
Fixpoint execRoles (fuel : nat) (serials : list string) (rs : list Role) : M unit :=
  match rs with
  | [] => ret tt
  | role :: rest =>
      mergeVariable (Role_Vars role) serials ;;
      execBlock fuel (mkOptions serials (Role_Block role) (Role_Role role) (Role_When role)) ;;
      execRoles fuel serials rest
  end.

(** The body of [for _, serials := range batchHosts]. *)
Definition execBatch (fuel : nat) (play : Play) (serials : list string) : M unit :=
  match serials with
  | [] => raise HostIsEmpty
  | _ :: _ =>
      mergeVariable (Play_Vars play) serials ;;
      (* generate task from pre tasks *)
      execBlock fuel (mkOptions serials (PreTasks play) "" []) ;;
      (* generate task from role *)
      execRoles fuel serials (Roles play) ;;
      (* generate task from tasks *)
      execBlock fuel (mkOptions serials (Tasks play) "" []) ;;
      (* generate task from post tasks *)
      execBlock fuel (mkOptions serials (Tasks play) "" [])
  end.

Fixpoint execBatches (fuel : nat) (play : Play) (batchHosts : list (list string)) : M unit :=
  match batchHosts with
  | [] => ret tt
  | serials :: rest => execBatch fuel play serials ;; execBatches fuel play rest
  end.

(** The body of [for _, play := range pb.Play]. *)
Definition execPlay (fuel : nat) (play : Play) : M unit :=
  p <- getPipeline ;;
  if negb (IsEnabled E (Play_Tags play) (Tags p) (SkipTags p)) then ret tt
  else
    ahn <- Get_Hostnames (PlayHost play) ;;
    match (match ahn with inr l => l | inl _ => [] end) with
    | [] => ret tt
    | h0 :: hs =>
        (if GatherFacts play then gatherFacts (h0 :: hs) else ret tt) ;;
        batchHosts <-
          (if Play_RunOnce play then ret [[h0]]
           else match GroupHostBySerial E (h0 :: hs) (Serial play) with
                | inl err => raise (Upstream err)
                | inr b => ret b
                end) ;;
        execBatches fuel play batchHosts
    end.

Fixpoint execPlays (fuel : nat) (ps : list Play) : M unit :=
  match ps with
  | [] => ret tt
  | play :: rest => execPlay fuel play ;; execPlays fuel rest
  end.

(** The deferred function of [Exec]. *)
Definition updatePhase : M unit :=
  setPhase PipelinePhaseSucceed ;;
  p <- getPipeline ;;
  match FailedDetail (PStatus p) with
  | [] => ret tt
  | _ :: _ => setPhase PipelinePhaseFailed
  end.

(** [Exec] after its first statement and its [defer]. *)
Definition runPlaybook (fuel : nat) : M unit :=
  p <- getPipeline ;;
  (* [playbookPath] is computed and not used *)
  match project_New E p with
  | inl err => raise (Upstream err)
  | inr pj =>
      match MarshalPlaybook pj with
      | inl err => raise (Upstream err)
      | inr pb => execPlays fuel (Plays pb)
      end
  end.

(** [fuel] bounds the turns of each drive loop. *)
Definition Exec (fuel : nat) : M unit :=
  setPhase PipelinePhaseRunning ;;
  withDefer (runPlaybook fuel) updatePhase.

End Executor.

Arguments Raise {A} e.
Arguments Panic {A}.
Arguments Crash {A}.
Arguments Diverge {A}.

Arguments updatePhase {Store Client}.
Arguments getPipeline {Store Client}.

Declare Scope exec_scope.
Delimit Scope exec_scope with exec.
Notation "x <- c1 ;; c2" := (bind c1 (fun x => c2))
  (at level 61, c1 at next level, right associativity) : exec_scope.
Notation "c1 ;; c2" := (bind c1 (fun _ => c2))
  (at level 61, right associativity) : exec_scope.

(** ** A small inventory to run the executor on

    A variable store with one overlay per host that takes a bounded
    number of runtime merges, a registry of four modules, and an API
    server that names the objects it is given. *)
Module Lab.

Record Store : Type := mkStore {
  overlays : list (string * Scope);  (* host, its variables *)
  writes_left : nat                  (* runtime merges the store still takes *)
}.

Definition Client : Type := list Task.

Fixpoint lookup {A} (k : string) (m : list (string * A)) : option A :=
  match m with
  | [] => None
  | (k', v) :: rest => if k' =? k then Some v else lookup k rest
  end.

Fixpoint upsert {A} (k : string) (v : A) (m : list (string * A)) : list (string * A) :=
  match m with
  | [] => [(k, v)]
  | (k', v') :: rest => if k' =? k then (k, v) :: rest else (k', v') :: upsert k v rest
  end.

(** Value-level merge of [vd] into a scope. *)
Definition combine (sc vd : Scope) : Scope :=
  fold_left (fun acc kv => upsert (fst kv) (snd kv) acc) vd sc.

Definition getAll (host : string) (st : Store) : string + Scope :=
  match lookup host (overlays st) with
  | Some sc => inr sc
  | None => inl "host not found"
  end.

Definition getHostnames (names : list string) (st : Store) : string + list string :=
  inr (filter (fun n => match lookup n (overlays st) with Some _ => true | None => false end)
         names).

Definition put (host : string) (vd : Scope) (st : Store) : Store :=
  match lookup host (overlays st) with
  | Some sc => mkStore (upsert host (combine sc vd) (overlays st)) (writes_left st)
  | None => st
  end.

Definition mergeRuntime (host : string) (vd : Scope) (st : Store) : option string * Store :=
  match lookup host (overlays st), writes_left st with
  | None, _ => (Some "host not found", st)
  | Some _, O => (Some "variable store is full", st)
  | Some _, S n => (None, mkStore (overlays (put host vd st)) n)
  end.

Definition mergeRemote (host : string) (vd : Scope) (st : Store) : option string * Store :=
  match lookup host (overlays st) with
  | None => (Some "host not found", st)
  | Some _ => (None, put host vd st)
  end.

(** A loop directive names a variable that holds a slice. *)
Definition extension2Slice (sc : Scope) (raw : string) : list any :=
  match lookup raw sc with
  | Some (ASlice l) => l
  | _ => []
  end.

(** An expression is [true], [false] or the name of a boolean variable. *)
Definition parseOne (sc : Scope) (e : string) : string + bool :=
  if e =? "true" then inr true
  else if e =? "false" then inr false
  else match lookup e sc with
       | Some (ABool b) => inr b
       | _ => inl ("cannot parse " ++ e)%string
       end.

Fixpoint parseBool (sc : Scope) (es : list string) : string + bool :=
  match es with
  | [] => inr true
  | e :: rest =>
      match parseOne sc e with
      | inl err => inl err
      | inr false => inr false
      | inr true => parseBool sc rest
      end
  end.

(** [echo] prints its arguments, [fail] fails, [mark] sets the variable
    [done] of its host, [show] prints the loop item. *)
Definition findModule (n : string) : option (ModuleExecFunc Store) :=
  if n =? "echo" then Some (fun opts st => ((Args opts, ""), st))
  else if n =? "fail" then Some (fun opts st => (("", "boom"), st))
  else if n =? "mark" then
    Some (fun opts st => (("ok", ""), put (Opt_Host opts) [("done", ABool true)] st))
  else if n =? "show" then
    Some (fun opts st =>
            match getAll (Opt_Host opts) st with
            | inr sc => match lookup "item" sc with
                        | Some (AStr x) => ((x, ""), st)
                        | _ => (("", ""), st)
                        end
            | inl err => (("", err), st)
            end)
  else None.

Definition isEnabled (tags only skip : list string) : bool :=
  negb (existsb (fun t => existsb (String.eqb t) skip) tags).

Definition setControllerReference (p : Pipeline) (t : Task) : option string :=
  None.

(** A stand-in for [json.Marshal]: it refuses a NaN, as json does, and
    gives for any other value a token, not its JSON text.  The worked
    runs use it only to tell whether marshalling succeeds. *)
Definition marshal (a : any) : string + string :=
  match a with
  | ANaN => inl "json: unsupported value: NaN"
  | ANil => inr "null"
  | ABool true => inr "true"
  | ABool false => inr "false"
  | AStr s => inr s
  | AInt _ => inr "0"
  | ASlice _ => inr "[]"
  | AMap _ => inr "{}"
  end.

Definition digit (n : nat) : string :=
  String (Ascii.ascii_of_nat (48 + Nat.modulo n 10)) EmptyString.

Definition create (t : Task) (c : Client) : (string + Task) * Client :=
  let t' := mkTask (GenerateName t ++ digit (length c))%string (GenerateName t)
              (Task_Namespace t) (OwnerReference t) (RoleAnnotation t) (Spec t)
              (Status t) in
  (inr t', c ++ [t']).

Definition statusUpdate (t : Task) (c : Client) : option string * Client := (None, c).

(** A host whose variable [unreachable] is set cannot be probed. *)
Definition gatherFact (h : string) (st : Store) : (string + Scope) * Store :=
  match getAll h st with
  | inl err => (inl err, st)
  | inr sc =>
      match lookup "unreachable" sc with
      | Some _ => (inl ("cannot reach " ++ h)%string, st)
      | None => (inr [("os", AStr "linux")], st)
      end
  end.

Definition env (pb : Playbook) : Env Store Client :=
  mkEnv getAll getHostnames mergeRuntime mergeRemote extension2Slice parseBool
    findModule
    (fun hs _ => inr [hs])
    (fun _ => inr (mkProject (inr pb)))
    isEnabled setControllerReference marshal create statusUpdate gatherFact
    (fun _ => []).

Definition pipeline0 : Pipeline :=
  mkPipeline "p" "default" "site.yaml" [] []
    (mkPipelineStatus (mkTaskResult 0 0 0 0) PipelinePhasePending "" []).

Definition start (ov : list (string * Scope)) (w : nat) : state Store Client :=
  mkState pipeline0 (mkStore ov w) [] [].

(** A leaf block that runs the module [m]. *)
Definition leaf (name m : string) (arg : any) : Block :=
  mkBlock name [] [] [] false [] [] [] "" [] "" None false [(m, arg)].

Definition createdNames (tr : list event) : list string :=
  flat_map (fun ev => match ev with EvCreate t => [Spec_Name (Spec t)] | _ => [] end) tr.

End Lab.

(** ** Reading a trace *)

(** The phases assigned to the pipeline, in order. *)
Definition phaseHistory (tr : list event) : list PipelinePhase :=
  flat_map (fun ev => match ev with EvPhase p => [p] | _ => [] end) tr.

(** The moves the design allows: Pending to Running, Running to Succeeded
    or Failed. *)
Definition allowedMove (a b : PipelinePhase) : bool :=
  match a, b with
  | PipelinePhasePending, PipelinePhaseRunning => true
  | PipelinePhaseRunning, PipelinePhaseSucceed => true
  | PipelinePhaseRunning, PipelinePhaseFailed => true
  | _, _ => false
  end.

Definition samePhase (a b : PipelinePhase) : bool :=
  match a, b with
  | PipelinePhasePending, PipelinePhasePending
  | PipelinePhaseRunning, PipelinePhaseRunning
  | PipelinePhaseSucceed, PipelinePhaseSucceed
  | PipelinePhaseFailed, PipelinePhaseFailed => true
  | _, _ => false
  end.

(** Every step of a history that starts in phase [from] keeps the phase
    or is a move that the design allows. *)
Fixpoint followsLifecycle (from : PipelinePhase) (h : list PipelinePhase) : bool :=
  match h with
  | [] => true
  | p :: rest => (samePhase from p || allowedMove from p) && followsLifecycle p rest
  end.

(** An assignment to the phase of the pipeline. *)
Definition isPhaseEvent (ev : event) : bool :=
  match ev with
  | EvPhase _ => true
  | _ => false
  end.

(** The phases that can be seen in the course of a trace that starts in
    phase [cur]: the phase in force each time the executor does something
    to its surroundings (a merge, a call of a module, a [Create]), and
    the phase in force at the end.  A phase that is assigned and
    overwritten with nothing done in between is seen by no one. *)
Fixpoint phasesSeen (cur : PipelinePhase) (tr : list event) : list PipelinePhase :=
  match tr with
  | [] => [cur]
  | EvPhase p :: rest => phasesSeen p rest
  | _ :: rest => cur :: phasesSeen cur rest
  end.

(** The tasks handed to [Create]. *)
Definition createdTasks (tr : list event) : list Task :=
  flat_map (fun ev => match ev with EvCreate t => [t] | _ => [] end) tr.

Definition isNil (v : any) : bool :=
  match v with
  | ANil => true
  | _ => false
  end.

(** What a scope holds under the key [item]. *)
Fixpoint itemOf (vd : Scope) : option any :=
  match vd with
  | [] => None
  | (k, v) :: rest => if k =? "item" then Some v else itemOf rest
  end.

(** Whether the runtime overlay of [host] holds a value under the key
    [item], as the merges of the trace leave it: the last merge for this
    host that the store took and that has the key decides, a value other
    than nil sets it and nil clears it.  [cur] is the answer before the
    trace.  The store is another package: what it makes of a merge, and
    what a module does to it on its own, is not in the trace. *)
Fixpoint itemHeld (host : string) (tr : list event) (cur : bool) : bool :=
  match tr with
  | [] => cur
  | EvMerge _ h vd true :: rest =>
      itemHeld host rest
        (if h =? host then
           match itemOf vd with
           | Some v => negb (isNil v)
           | None => cur
           end
         else cur)
  | _ :: rest => itemHeld host rest cur
  end.

(** The merge of [{item: nil}] for [host], issued by the loop after the
    module; the store may have taken or refused it. *)
Definition isItemClear (host : string) (ev : event) : bool :=
  match ev with
  | EvMerge SiteClearItem h [(k, ANil)] _ => (h =? host) && (k =? "item")
  | _ => false
  end.

(** Every call of a module is followed at once by the merge of
    [{item: nil}] for the host of the call. *)
Fixpoint clearedAfterModule (tr : list event) : bool :=
  match tr with
  | [] => true
  | EvModule h _ :: rest =>
      match rest with
      | ev :: _ => isItemClear h ev && clearedAfterModule rest
      | [] => false
      end
  | _ :: rest => clearedAfterModule rest
  end.

(** Every merge by which the loop set an item and that the store took is
    a merge of the one key [item], and it is followed, at once or after
    the call of the module for its host, by the merge of [{item: nil}]
    for that host. *)
Fixpoint clearedAfterSet (tr : list event) : bool :=
  match tr with
  | [] => true
  | EvMerge SiteSetItem h vd true :: rest =>
      match vd with
      | [(k, _)] =>
          (k =? "item") &&
          match rest with
          | EvModule h' _ :: ev :: _ => (h' =? h) && isItemClear h ev && clearedAfterSet rest
          | ev :: _ => isItemClear h ev && clearedAfterSet rest
          | [] => false
          end
      | _ => false
      end
  | _ :: rest => clearedAfterSet rest
  end.

(** A merge of [{item: nil}] for [host] that the store refused. *)
Definition isRefusedClear (host : string) (ev : event) : bool :=
  match ev with
  | EvMerge SiteClearItem h [(k, ANil)] false => (h =? host) && (k =? "item")
  | _ => false
  end.

(** What a run of a host unit, or of a part of it, has added to the
    trace is tidy for [host]: every call of a module is followed by the
    clearing merge; a clearing merge that the store refused goes with
    the stderr that reports it; and unless the process ended, every item
    that was set is followed by the clearing merge, and an item that the
    merges leave set where none was before goes with a clearing merge
    that the store refused. *)
Definition tidyRun (host : string) (new : list event) (r : outcome (string * string))
    : Prop :=
  (forall rest, clearedAfterModule (new ++ rest) = clearedAfterModule rest) /\
  (existsb (isRefusedClear host) new = true ->
   exists so err,
     r = Done (so, ("clean loop item to variable error: " ++ err)%string)) /\
  (r <> Crash ->
   (forall rest, clearedAfterSet (new ++ rest) = clearedAfterSet rest) /\
   forall cur, itemHeld host new cur = true ->
     cur = true \/ existsb (isRefusedClear host) new = true).

(** [total == success + ignored + failed], as Go computes it. *)
Definition balanced (r : PipelineTaskResult) : Prop :=
  Total r = wrap64 (wrap64 (Success r + Ignored r) + Failed r).

(** ** Reading a run *)

(** An outcome without its value. *)
Definition forget {A} (r : outcome A) : outcome unit :=
  match r with
  | Done _ => Done tt
  | Raise e => Raise e
  | Panic => Panic
  | Crash => Crash
  | Diverge => Diverge
  end.

Section Runs.

Variables Store Client : Type.

(** A relation between the state before a computation, how it ended and
    the state after. *)
Definition run_relation : Type :=
  state Store Client -> outcome unit -> state Store Client -> Prop.

(** Every run of [m] is in [R]. *)
Definition satisfies {A} (R : run_relation) (m : M Store Client A) : Prop :=
  forall s, R s (forget (fst (m s))) (snd (m s)).

(** [R] holds of doing nothing and is closed under doing one thing after
    another. *)
Record sequential (R : run_relation) : Prop := mkSequential {
  seq_stay : forall s r, r <> Diverge -> R s r s;
  seq_then : forall s s1 s2 r, R s (Done tt) s1 -> R s1 r s2 -> R s r s2
}.

(** The run does not leave a drive loop going. *)
Definition halts : run_relation := fun _ r _ => r <> Diverge.

(** The run keeps the task counters balanced. *)
Definition keepsBalance : run_relation :=
  fun s _ s' =>
    balanced (TaskResult (PStatus (pipeline s))) ->
    balanced (TaskResult (PStatus (pipeline s'))).

(** The run only adds to the trace, and every task it hands to [Create]
    names a module. *)
Definition createsNamed : run_relation :=
  fun s _ s' =>
    exists new, trace s' = trace s ++ new /\
      forall t, In t (createdTasks new) -> Module_Name (Spec t) <> "".

(** The run only adds to the trace; it assigns no phase, or it assigns
    Failed once, returns an error and leaves a failure detail. *)
Definition failsOnce : run_relation :=
  fun s r s' =>
    exists new, trace s' = trace s ++ new /\
      (phaseHistory new = [] /\
         FailedDetail (PStatus (pipeline s')) = FailedDetail (PStatus (pipeline s))
       \/
       phaseHistory new = [PipelinePhaseFailed] /\ (exists e, r = Raise e) /\
         FailedDetail (PStatus (pipeline s')) <> []).

(** Returned nil. *)
Definition returned (r : outcome unit) : Prop := r = Done tt.

(** Returned nil, or the process ended in a host unit. *)
Definition returnedOrCrashed (r : outcome unit) : Prop := r = Done tt \/ r = Crash.

Definition both (R1 R2 : run_relation) : run_relation :=
  fun s r s' => R1 s r s' /\ R2 s r s'.

(** The run halts, keeps the pipeline, and adds to the trace neither a
    phase nor a created task. *)
Definition quiet : run_relation :=
  fun s r s' =>
    r <> Diverge /\ pipeline s' = pipeline s /\
    exists new, trace s' = trace s ++ new /\
      phaseHistory new = [] /\ createdTasks new = [].

(** Every run of [m] ends in a way that [ok] admits. *)
Definition ends {A} (ok : outcome unit -> Prop) (m : M Store Client A) : Prop :=
  forall s, ok (forget (fst (m s))).

(** The four relations that hold of every step of the walk. *)
Definition sound : run_relation :=
  both halts (both keepsBalance (both createsNamed failsOnce)).

End Runs.

Arguments halts {Store Client}.
Arguments keepsBalance {Store Client}.
Arguments createsNamed {Store Client}.
Arguments failsOnce {Store Client}.
Arguments quiet {Store Client}.
Arguments sound {Store Client}.

(** ** The inputs of the worked runs *)
Module Scenario.
Import Lab.

Definition hostA : list (string * Scope) := [("a", [("done", ABool false)])].

Definition noPlays : Env Lab.Store Lab.Client := env (mkPlaybook []).

(** A block whose nested task fails, with a rescue and an always list. *)
Definition guarded : Block :=
  mkBlock "blk" [] [] [] false
    [leaf "n" "fail" ANil] [leaf "rec" "echo" (AStr "r")] [leaf "fin" "echo" (AStr "f")]
    "" [] "" None false [].

(** A play with one block in each of its four lists. *)
Definition fourLists : Play :=
  mkPlay "play" [] ["a"] false false [] []
    [leaf "pre" "echo" ANil]
    [mkRole "ro" [] [] [leaf "r" "echo" ANil]]
    [leaf "t" "echo" ANil]
    [leaf "post" "echo" ANil].

(** A play whose one task fails. *)
Definition failing : Play :=
  mkPlay "play" [] ["a"] false false [] [] [] [] [leaf "t" "fail" ANil] [].


Definition running (sp : KubeKeyTaskSpec) : Task :=
  mkTask "p-0" "p-" "default" None "" sp (mkTaskStatus TaskPhaseRunning 0 [] []).

(** A task that registers its result. *)
Definition registering : Task :=
  running (mkTaskSpec "t" ["a"] false [] [] "r" None "echo" "hi").

(** A task that loops over the variable [xs]. *)
Definition looping : Task :=
  running (mkTaskSpec "t" ["a"] false [] [] "" (Some "xs") "show" "").

(** A task that fails when [done] holds, and whose module sets [done]. *)
Definition marking : Task :=
  running (mkTaskSpec "t" ["a"] false [] ["done"] "" None "mark" "").

(** A task of the module [echo] without conditions. *)
Definition plain : Task :=
  running (mkTaskSpec "t" ["a"] false [] [] "" None "echo" "hi").

(** A task whose module is not registered. *)
Definition unregistered : Task :=
  running (mkTaskSpec "t" ["a"] false [] [] "" None "bogus" "").

(** The options of a walk over no blocks on the host [a]. *)
Definition options0 : execBlockOptions := mkOptions ["a"] [] "" [].


End Scenario.

(** ** More ways to read a run *)

(** The number of module calls in a trace. *)
Definition countModule (tr : list event) : nat :=
  length (filter (fun ev => match ev with EvModule _ _ => true | _ => false end) tr).

(** Nothing follows a merge that the store refused. *)
Fixpoint refusalIsLast (tr : list event) : bool :=
  match tr with
  | [] => true
  | EvMerge _ _ _ false :: rest =>
      match rest with
      | [] => true
      | _ :: _ => false
      end
  | _ :: rest => refusalIsLast rest
  end.

(** The merges of [mergeVariable] for the hosts [hs], all taken. *)
Definition varsMerged (vd : Scope) (hs : list string) : list event :=
  map (fun h => EvMerge SiteVars h vd true) hs.

(** The results that signal a failure: those with a stderr. *)
Definition failing (rs : list TaskHostResult) : list TaskHostResult :=
  filter (fun d => negb (StdErr d =? "")) rs.

(** What a host unit may add to the trace: merges of the loop and of the
    register, and module calls. *)
Definition isRunnerEvent (ev : event) : bool :=
  match ev with
  | EvMerge SiteSetItem _ _ _ | EvMerge SiteClearItem _ _ _
  | EvMerge SiteRegister _ _ _ | EvModule _ _ => true
  | _ => false
  end.

(** A merge that the store refused. *)
Definition isRefused (ev : event) : bool :=
  match ev with
  | EvMerge _ _ _ false => true
  | _ => false
  end.

(** A merge issued by [mergeVariable]. *)
Definition isVarsMerge (ev : event) : bool :=
  match ev with
  | EvMerge SiteVars _ _ _ => true
  | _ => false
  end.

(** A block that is a reference to included tasks: no nested blocks and
    an include. *)
Definition isIncludeRef (b : Block) : bool :=
  match Block_Block b with
  | [] => negb (IncludeTasks b =? "")
  | _ :: _ => false
  end.

(** Did not panic on the goroutine of [Exec]. *)
Definition unpanicked (r : outcome unit) : Prop := r <> Panic.

Section MoreRuns.

Variables Store Client : Type.

(** The run only adds to the trace, and at most [k] module calls. *)
Definition calls (k : nat) : run_relation Store Client :=
  fun s _ s' => exists new, trace s' = trace s ++ new /\ countModule new <= k.

(** The run only adds to the trace, and every task it hands to [Create]
    runs on the hosts [H] or on the first of them, carries the role [ro]
    and has the conditions [W] at the head of its when list. *)
Definition inherits (H : list string) (ro : string) (W : list string)
    : run_relation Store Client :=
  fun s _ s' =>
    exists new, trace s' = trace s ++ new /\
      forall t, In t (createdTasks new) ->
        (Spec_Hosts (Spec t) = H \/ Spec_Hosts (Spec t) = firstn 1 H) /\
        RoleAnnotation t = ro /\
        exists more, Spec_When (Spec t) = W ++ more.

(** The run only adds to the trace, and every task it hands to [Create]
    runs on the hosts [H] or on the first of them. *)
Definition onHosts (H : list string) : run_relation Store Client :=
  fun s _ s' =>
    exists new, trace s' = trace s ++ new /\
      forall t, In t (createdTasks new) ->
        Spec_Hosts (Spec t) = H \/ Spec_Hosts (Spec t) = firstn 1 H.

(** The run changes nothing of the pipeline but its status. *)
Definition keepsIdentity : run_relation Store Client :=
  fun s _ s' =>
    Pipeline_Name (pipeline s') = Pipeline_Name (pipeline s) /\
    Pipeline_Namespace (pipeline s') = Pipeline_Namespace (pipeline s) /\
    Playbook_Path (pipeline s') = Playbook_Path (pipeline s) /\
    Tags (pipeline s') = Tags (pipeline s) /\
    SkipTags (pipeline s') = SkipTags (pipeline s).

(** The run leaves the failure details and the reason as they are; or it
    adds one failure detail, sets the reason and returns the error of the
    failed task. *)
Definition failsFast : run_relation Store Client :=
  fun s r s' =>
    (FailedDetail (PStatus (pipeline s')) = FailedDetail (PStatus (pipeline s)) /\
     Reason (PStatus (pipeline s')) = Reason (PStatus (pipeline s)))
    \/
    exists d name,
      FailedDetail (PStatus (pipeline s')) = FailedDetail (PStatus (pipeline s)) ++ [d] /\
      r = Raise (TaskRunFailed name) /\
      Reason (PStatus (pipeline s')) = Error (TaskRunFailed name).

(** The run only adds to the trace, and it counts in the total every
    task it hands to [Create]; or it does not return nil, and counts all
    of them but the last. *)
Definition countsCreated : run_relation Store Client :=
  fun s r s' =>
    exists new, trace s' = trace s ++ new /\
      (Total (TaskResult (PStatus (pipeline s'))) =
         Nat.iter (length (createdTasks new)) incr
           (Total (TaskResult (PStatus (pipeline s))))
       \/
       r <> Done tt /\
       exists k, length (createdTasks new) = S k /\
         Total (TaskResult (PStatus (pipeline s'))) =
           Nat.iter k incr (Total (TaskResult (PStatus (pipeline s))))).

(** The run only adds to the trace; it assigns no phase, or the last
    thing it does is to assign Failed, and it returns an error with a
    failure detail recorded. *)
Definition assignsLast : run_relation Store Client :=
  fun s r s' =>
    exists new, trace s' = trace s ++ new /\
      (phaseHistory new = [] /\
         Phase (PStatus (pipeline s')) = Phase (PStatus (pipeline s))
       \/
       exists work,
         new = work ++ [EvPhase PipelinePhaseFailed] /\
         phaseHistory work = [] /\
         (exists e, r = Raise e) /\
         Phase (PStatus (pipeline s')) = PipelinePhaseFailed /\
         FailedDetail (PStatus (pipeline s')) <> []).

(** The run keeps the pipeline and the client, and adds to the trace only
    what a host unit may add. *)
Definition runnerOnly : run_relation Store Client :=
  fun s _ s' =>
    pipeline s' = pipeline s /\ client s' = client s /\
    exists new, trace s' = trace s ++ new /\ forallb isRunnerEvent new = true.

(** The run keeps the pipeline and the client, and adds to the trace only
    merges of [mergeVariable]. *)
Definition varsOnly : run_relation Store Client :=
  fun s _ s' =>
    pipeline s' = pipeline s /\ client s' = client s /\
    exists new, trace s' = trace s ++ new /\ forallb isVarsMerge new = true.

End MoreRuns.

Arguments varsOnly {Store Client}.

Arguments calls {Store Client}.
Arguments inherits {Store Client}.
Arguments onHosts {Store Client}.
Arguments keepsIdentity {Store Client}.
Arguments failsFast {Store Client}.
Arguments assignsLast {Store Client}.
Arguments countsCreated {Store Client}.
Arguments runnerOnly {Store Client}.

(** ** A playbook without its rescue lists *)

(** The block with its rescue list taken out, at every depth. *)
Fixpoint withoutRescue (b : Block) : Block :=
  match b with
  | mkBlock n t w v r nested _ always i f reg l ig u =>
      mkBlock n t w v r (map withoutRescue nested) [] (map withoutRescue always)
        i f reg l ig u
  end.

Definition roleWithoutRescue (r : Role) : Role :=
  mkRole (Role_Role r) (Role_Vars r) (Role_When r) (map withoutRescue (Role_Block r)).

Definition playWithoutRescue (p : Play) : Play :=
  mkPlay (Play_Name p) (Play_Tags p) (PlayHost p) (GatherFacts p) (Play_RunOnce p)
    (Serial p) (Play_Vars p)
    (map withoutRescue (PreTasks p)) (map roleWithoutRescue (Roles p))
    (map withoutRescue (Tasks p)) (map withoutRescue (PostTasks p)).

Definition playbookWithoutRescue (pb : Playbook) : Playbook :=
  mkPlaybook (map playWithoutRescue (Plays pb)).

(** The collaborators [E], but with [f] applied to every playbook that a
    project gives. *)
Definition withPlaybook {Store Client : Type} (f : Playbook -> Playbook)
    (E : Env Store Client) : Env Store Client :=
  mkEnv (GetAllVariable E) (GetHostnames E) (MergeRuntimeVariable E)
    (MergeRemoteVariable E) (Extension2Slice E) (ParseBool E) (FindModule E)
    (GroupHostBySerial E)
    (fun p =>
       match project_New E p with
       | inl err => inl err
       | inr pj =>
           inr (mkProject match MarshalPlaybook pj with
                          | inl err => inl err
                          | inr pb => inr (f pb)
                          end)
       end)
    (IsEnabled E) (SetControllerReference E) (json_Marshal E) (client_Create E)
    (client_StatusUpdate E) (getGatherFact E) (schedule E).

(** The run, when it returns nil, leaves the phase of the pipeline as it
    was. *)
Definition phaseKept {Store Client : Type} : run_relation Store Client :=
  fun s r s' =>
    r = Done tt -> Phase (PStatus (pipeline s')) = Phase (PStatus (pipeline s)).

(** ** More inputs of worked runs *)
Module Cases.
Import Lab.

(** A block that runs [echo] and is tagged [slow]. *)
Definition tagged (name : string) : Block :=
  mkBlock name ["slow"] [] [("x", AInt 1)] true [] [] [] "" [] "" None false
    [("echo", ANil)].

(** A pipeline that skips the tag [slow]. *)
Definition skipping : Pipeline :=
  mkPipeline "p" "default" "site.yaml" [] ["slow"]
    (mkPipelineStatus (mkTaskResult 0 0 0 0) PipelinePhasePending "" []).

Definition startSkipping (ov : list (string * Scope)) (w : nat) : state Store Client :=
  mkState skipping (mkStore ov w) [] [].

(** A reference to included tasks that also carries a module field. *)
Definition included : Block :=
  mkBlock "inc" [] [] [("x", AInt 1)] false [] [] [] "more.yaml" [] "" None false
    [("echo", ANil)].

Definition twoHosts : list (string * Scope) :=
  [("a", [("go", ABool false)]); ("b", [("go", ABool false)])].

(** A task on two hosts under a condition that does not hold. *)
Definition conditional : Task :=
  mkTask "p-0" "p-" "default" None ""
    (mkTaskSpec "t" ["a"; "b"] false ["go"] [] "" None "echo" "hi")
    (mkTaskStatus TaskPhaseRunning 0 [] []).

(** A task of [echo] on two hosts. *)
Definition onTwo : Task :=
  mkTask "p-0" "p-" "default" None ""
    (mkTaskSpec "t" ["a"; "b"] false [] [] "" None "echo" "hi")
    (mkTaskStatus TaskPhaseRunning 0 [] []).

(** A play on two hosts that runs once. *)
Definition once : Play :=
  mkPlay "play" [] ["a"; "b"] false true [] [] [] [] [leaf "t" "echo" ANil] [].

(** A play for hosts the inventory does not have. *)
Definition hostless : Play :=
  mkPlay "play" [] ["z"] false false [] [] [] [] [leaf "t" "echo" ANil] [].

(** A play that is tagged [slow]. *)
Definition slowPlay : Play :=
  mkPlay "play" ["slow"] ["a"] false false [] [] [] [] [leaf "t" "echo" ANil] [].

(** The lab, with a project that cannot be loaded. *)
Definition broken : Env Store Client :=
  mkEnv getAll getHostnames mergeRuntime mergeRemote extension2Slice parseBool
    findModule
    (fun hs _ => inr [hs])
    (fun _ => inl "no such playbook")
    isEnabled setControllerReference marshal create statusUpdate gatherFact
    (fun _ => []).

(** The lab, with a loop directive that always gives two items. *)
Definition twice : Env Store Client :=
  mkEnv getAll getHostnames mergeRuntime mergeRemote
    (fun _ _ => [AStr "x"; AStr "y"])
    parseBool findModule
    (fun hs _ => inr [hs])
    (fun _ => inr (mkProject (inr (mkPlaybook []))))
    isEnabled setControllerReference marshal create statusUpdate gatherFact
    (fun _ => []).

(** The lab, with a scheduler that lets the second host unit run first. *)
Definition secondFirst : Env Store Client :=
  mkEnv getAll getHostnames mergeRuntime mergeRemote extension2Slice parseBool
    findModule
    (fun hs _ => inr [hs])
    (fun _ => inr (mkProject (inr (mkPlaybook []))))
    isEnabled setControllerReference marshal create statusUpdate gatherFact
    (fun _ => [1]).

(** A leaf block that runs [echo] once. *)
Definition onceBlock : Block :=
  mkBlock "t" [] [] [("x", AInt 1)] true [] [] [] "" [] "" None false [("echo", ANil)].

(** The options of a walk over no hosts. *)
Definition noHosts : execBlockOptions := mkOptions [] [] "" [].

End Cases.

(** * Properties *)

(** ** Rules for runs *)

Section Rules.

Variables Store Client : Type.
Variable E : Env Store Client.

Local Open Scope exec_scope.

Implicit Types (R : run_relation Store Client) (s : state Store Client).

Lemma forget_not_Diverge A (r : outcome A) : forget r <> Diverge <-> r <> Diverge.
Proof. destruct r; simpl; split; congruence. Qed.

Lemma satisfies_ret R A (a : A) : sequential R -> satisfies R (ret (Store:=Store) (Client:=Client) a).
Proof. intros HR s. simpl. apply (seq_stay HR). discriminate. Qed.

Lemma satisfies_raise R A (e : error) :
  sequential R -> satisfies R (raise (Store:=Store) (Client:=Client) (A:=A) e).
Proof. intros HR s. simpl. apply (seq_stay HR). discriminate. Qed.

Lemma satisfies_panic R A :
  sequential R -> satisfies R (panic (Store:=Store) (Client:=Client) (A:=A)).
Proof. intros HR s. simpl. apply (seq_stay HR). discriminate. Qed.

Lemma satisfies_crash R A :
  sequential R -> satisfies R (crash (Store:=Store) (Client:=Client) (A:=A)).
Proof. intros HR s. simpl. apply (seq_stay HR). discriminate. Qed.

Lemma satisfies_bind R A B (m : M Store Client A) (f : A -> M Store Client B) :
  sequential R -> satisfies R m -> (forall a, satisfies R (f a)) ->
  satisfies R (x <- m ;; f x).
Proof.
  intros HR Hm Hf s. unfold bind.
  specialize (Hm s). destruct (m s) as [[a | e | | | ] s1]; simpl in *; try exact Hm.
  eapply (seq_then HR); [exact Hm | apply Hf].
Qed.

Lemma satisfies_getPipeline R :
  sequential R -> satisfies R (getPipeline (Store:=Store) (Client:=Client)).
Proof. intros HR s. simpl. apply (seq_stay HR). discriminate. Qed.

Lemma satisfies_Get_AllVariable R h : sequential R -> satisfies R (Get_AllVariable E h).
Proof. intros HR s. simpl. apply (seq_stay HR). discriminate. Qed.

Lemma satisfies_Get_Hostnames R ns : sequential R -> satisfies R (Get_Hostnames E ns).
Proof. intros HR s. simpl. apply (seq_stay HR). discriminate. Qed.

Lemma sequential_both R1 R2 : sequential R1 -> sequential R2 -> sequential (both R1 R2).
Proof.
  intros H1 H2. split.
  - intros s r Hr. split; [apply (seq_stay H1) | apply (seq_stay H2)]; exact Hr.
  - intros s s1 s2 r [A1 A2] [B1 B2].
    split; [eapply (seq_then H1) | eapply (seq_then H2)]; eassumption.
Qed.

Lemma satisfies_both R1 R2 A (m : M Store Client A) :
  satisfies R1 m -> satisfies R2 m -> satisfies (both R1 R2) m.
Proof. intros H1 H2 s. split; [apply H1 | apply H2]. Qed.

(** Induction on the block tree. *)
Lemma Block_forall_ind (P : Block -> Prop) :
  (forall b,
      Forall P (Block_Block b) -> Forall P (Rescue b) -> Forall P (Always b) -> P b) ->
  forall b, P b.
Proof.
  intros step. fix IH 1. intros b. apply step; destruct b; simpl.
  - induction Block_Block0; constructor; [apply IH | assumption].
  - induction Rescue0; constructor; [apply IH | assumption].
  - induction Always0; constructor; [apply IH | assumption].
Qed.

Lemma execBlock_at_unfold fuel options at_ :
  execBlock_at E fuel options at_ = blockBody E (execBlock E fuel) fuel options at_.
Proof. destruct at_; reflexivity. Qed.

Lemma execBlock_range_cons fuel o b bs :
  execBlock_range E fuel o (b :: bs) =
  (execBlock_at E fuel o b ;; execBlock_range E fuel o bs).
Proof. reflexivity. Qed.

Section Walk.

Variable R : run_relation Store Client.
Hypothesis R_sequential : sequential R.
Hypothesis R_Merge : forall site h vd, satisfies R (Merge E site h vd).

Lemma satisfies_mergeVariable vd hs : satisfies R (mergeVariable E vd hs).
Proof.
  unfold mergeVariable. destruct vd as [ | kv vd'].
  - now apply satisfies_ret.
  - generalize (kv :: vd') as d. intros d.
    induction hs as [ | h rest IH]; simpl.
    + now apply satisfies_ret.
    + apply satisfies_bind; [assumption | apply R_Merge | ].
      intros [err | ]; [now apply satisfies_raise | exact IH].
Qed.

Variable fuel : nat.
Hypothesis R_execLeaf : forall o hs b, satisfies R (execLeaf E fuel o hs b).

Lemma satisfies_execBlock_range o bs :
  Forall (fun b => forall o', satisfies R (execBlock_at E fuel o' b)) bs ->
  satisfies R (execBlock_range E fuel o bs).
Proof.
  induction 1 as [ | b rest Hb _ IH].
  - now apply satisfies_ret.
  - rewrite execBlock_range_cons.
    apply satisfies_bind; [assumption | apply Hb | intros _; exact IH].
Qed.

Lemma satisfies_execBlock_at b : forall o, satisfies R (execBlock_at E fuel o b).
Proof.
  induction b as [b Hnested Hrescue Halways] using Block_forall_ind.
  intros o. rewrite execBlock_at_unfold. unfold blockBody.
  apply satisfies_bind; [assumption | now apply satisfies_getPipeline | intros p].
  destruct (negb _); [now apply satisfies_ret | ].
  destruct (blockHosts o b) as [hs | ]; [ | now apply satisfies_panic].
  apply satisfies_bind; [assumption | apply satisfies_mergeVariable | intros _].
  destruct (Block_Block b) as [ | b0 nested] eqn:Enested.
  - destruct (negb _); [now apply satisfies_ret | apply R_execLeaf].
  - apply satisfies_bind; [assumption | | intros _].
    { unfold execBlock. apply satisfies_execBlock_range. exact Hnested. }
    apply satisfies_bind; [assumption | now apply satisfies_getPipeline | intros p'].
    apply satisfies_bind; [assumption | | intros _].
    { destruct (Phase (PStatus p')); try now apply satisfies_ret.
      destruct (Rescue b) as [ | r0 rescue] eqn:Erescue; [now apply satisfies_ret | ].
      unfold execBlock. apply satisfies_execBlock_range. exact Hrescue. }
    destruct (Always b) as [ | a0 always] eqn:Ealways; [now apply satisfies_ret | ].
    unfold execBlock. apply satisfies_execBlock_range. exact Halways.
Qed.

(** What holds of the merges and of the leaf case and is closed under
    sequencing holds of the whole walk. *)
Lemma satisfies_execBlock o : satisfies R (execBlock E fuel o).
Proof.
  unfold execBlock. apply satisfies_execBlock_range.
  apply Forall_forall. intros b _ o'. apply satisfies_execBlock_at.
Qed.

Hypothesis R_Get_GatherFact : forall h, satisfies R (Get_GatherFact E h).
Hypothesis R_MergeRemote : forall h vd, satisfies R (MergeRemote E h vd).

Lemma satisfies_gatherFacts hs : satisfies R (gatherFacts E hs).
Proof.
  induction hs as [ | h rest IH]; simpl.
  - now apply satisfies_ret.
  - apply satisfies_bind; [assumption | apply R_Get_GatherFact | ].
    intros [err | gfv]; [now apply satisfies_raise | ].
    apply satisfies_bind; [assumption | apply R_MergeRemote | ].
    intros [err | ]; [now apply satisfies_raise | exact IH].
Qed.

Lemma satisfies_execRoles serials rs : satisfies R (execRoles E fuel serials rs).
Proof.
  induction rs as [ | r rest IH]; simpl.
  - now apply satisfies_ret.
  - apply satisfies_bind; [assumption | apply satisfies_mergeVariable | intros _].
    apply satisfies_bind; [assumption | apply satisfies_execBlock | intros _; exact IH].
Qed.

Lemma satisfies_execBatch play serials : satisfies R (execBatch E fuel play serials).
Proof.
  unfold execBatch. destruct serials as [ | h hs]; [now apply satisfies_raise | ].
  repeat (apply satisfies_bind; [assumption | | intros _]);
    auto using satisfies_mergeVariable, satisfies_execBlock, satisfies_execRoles.
Qed.

Lemma satisfies_execBatches play bs : satisfies R (execBatches E fuel play bs).
Proof.
  induction bs as [ | b rest IH]; simpl.
  - now apply satisfies_ret.
  - apply satisfies_bind; [assumption | apply satisfies_execBatch | intros _; exact IH].
Qed.

Lemma satisfies_execPlay play : satisfies R (execPlay E fuel play).
Proof.
  unfold execPlay.
  apply satisfies_bind; [assumption | now apply satisfies_getPipeline | intros p].
  destruct (negb _); [now apply satisfies_ret | ].
  apply satisfies_bind; [assumption | now apply satisfies_Get_Hostnames | intros ahn].
  destruct (match ahn with inl _ => [] | inr l => l end) as [ | h0 hs];
    [now apply satisfies_ret | ].
  apply satisfies_bind; [assumption | | intros _].
  { destruct (GatherFacts play); [apply satisfies_gatherFacts | now apply satisfies_ret]. }
  apply satisfies_bind; [assumption | | intros bs; apply satisfies_execBatches].
  destruct (Play_RunOnce play); [now apply satisfies_ret | ].
  destruct (GroupHostBySerial E (h0 :: hs) (Serial play));
    [now apply satisfies_raise | now apply satisfies_ret].
Qed.

Lemma satisfies_execPlays ps : satisfies R (execPlays E fuel ps).
Proof.
  induction ps as [ | p rest IH]; simpl.
  - now apply satisfies_ret.
  - apply satisfies_bind; [assumption | apply satisfies_execPlay | intros _; exact IH].
Qed.

Lemma satisfies_runPlaybook : satisfies R (runPlaybook E fuel).
Proof.
  unfold runPlaybook.
  apply satisfies_bind; [assumption | now apply satisfies_getPipeline | intros p].
  destruct (project_New E p) as [err | pj]; [now apply satisfies_raise | ].
  destruct (MarshalPlaybook pj) as [err | pb]; [now apply satisfies_raise | ].
  apply satisfies_execPlays.
Qed.

End Walk.

End Rules.

(** ** The task runner leaves the pipeline alone *)

Section Runner.

Variables Store Client : Type.
Variable E : Env Store Client.

Local Open Scope exec_scope.

Lemma phaseHistory_app a b : phaseHistory (a ++ b) = phaseHistory a ++ phaseHistory b.
Proof. unfold phaseHistory. apply flat_map_app. Qed.

Lemma createdTasks_app a b : createdTasks (a ++ b) = createdTasks a ++ createdTasks b.
Proof. unfold createdTasks. apply flat_map_app. Qed.

Lemma quiet_sequential : sequential (@quiet Store Client).
Proof.
  split.
  - intros s r Hr. repeat split; [exact Hr | ].
    exists []. now rewrite app_nil_r.
  - intros s s1 s2 r (_ & P1 & n1 & T1 & H1 & C1) (Hr & P2 & n2 & T2 & H2 & C2).
    repeat split; [exact Hr | congruence | ].
    exists (n1 ++ n2). rewrite T2, T1, app_assoc, phaseHistory_app, createdTasks_app.
    now rewrite H1, H2, C1, C2.
Qed.

Lemma quiet_Merge site h vd : satisfies quiet (Merge E site h vd).
Proof.
  intros s. unfold Merge. destruct (MergeRuntimeVariable E h vd (variable s)) as [err v'].
  simpl. repeat split; [discriminate | ]. eexists; repeat split.
Qed.

Lemma quiet_MergeRemote h vd : satisfies quiet (MergeRemote E h vd).
Proof.
  intros s. unfold MergeRemote. destruct (MergeRemoteVariable E h vd (variable s)).
  simpl. repeat split; [discriminate | ]. exists []. now rewrite app_nil_r.
Qed.

Lemma quiet_Get_GatherFact h : satisfies quiet (Get_GatherFact E h).
Proof.
  intros s. unfold Get_GatherFact. destruct (getGatherFact E h (variable s)).
  simpl. repeat split; [discriminate | ]. exists []. now rewrite app_nil_r.
Qed.

Lemma quiet_StatusUpdate t : satisfies quiet (StatusUpdate E t).
Proof.
  intros s. unfold StatusUpdate. destruct (client_StatusUpdate E t (client s)).
  simpl. repeat split; [discriminate | ]. exists []. now rewrite app_nil_r.
Qed.

Lemma quiet_executeModule task opts : satisfies quiet (executeModule E task opts).
Proof.
  unfold executeModule.
  apply satisfies_bind;
    [apply quiet_sequential | apply satisfies_Get_AllVariable, quiet_sequential | ].
  intros [err | lg]; [apply satisfies_ret, quiet_sequential | ].
  destruct (match FailedWhen (Spec task) with [] => _ | _ :: _ => _ end) as [err | [ | ]];
    try apply satisfies_ret, quiet_sequential.
  destruct (FindModule E (Module_Name (Spec task))) as [m | ];
    [ | apply satisfies_crash, quiet_sequential].
  intros s. unfold bind, record. simpl.
  destruct (m opts (variable s)) as [out v']. simpl.
  repeat split; [discriminate | ]. eexists; repeat split.
Qed.

Lemma quiet_loopItems task host loop :
  forall out, satisfies quiet (loopItems E task host loop out).
Proof.
  induction loop as [ | item rest IH]; intros out; simpl.
  - apply satisfies_ret, quiet_sequential.
  - apply satisfies_bind; [apply quiet_sequential | apply quiet_Merge | ].
    intros [err | ]; [apply satisfies_ret, quiet_sequential | ].
    apply satisfies_bind;
      [apply quiet_sequential | apply satisfies_getPipeline, quiet_sequential | intros p].
    apply satisfies_bind; [apply quiet_sequential | apply quiet_executeModule | intros out'].
    apply satisfies_bind; [apply quiet_sequential | apply quiet_Merge | ].
    intros [err | ]; [apply satisfies_ret, quiet_sequential | apply IH].
Qed.

Lemma quiet_hostBody task host : satisfies quiet (hostBody E task host).
Proof.
  unfold hostBody.
  apply satisfies_bind;
    [apply quiet_sequential | apply satisfies_Get_AllVariable, quiet_sequential | ].
  intros [err | ha]; [apply satisfies_ret, quiet_sequential | ].
  destruct (match Spec_When (Spec task) with [] => _ | _ :: _ => _ end) as [err | [ | ]];
    try apply satisfies_ret, quiet_sequential.
  destruct (execLoop E ha task);
    [apply satisfies_ret, quiet_sequential | apply quiet_loopItems].
Qed.

Lemma quiet_hostUnit task host : satisfies quiet (hostUnit E task host).
Proof.
  unfold hostUnit.
  apply satisfies_bind; [apply quiet_sequential | apply quiet_hostBody | ].
  intros [stdout stderr].
  destruct (Register (Spec task) =? ""); [apply satisfies_ret, quiet_sequential | ].
  apply satisfies_bind; [apply quiet_sequential | apply quiet_Merge | ].
  intros [err | ]; apply satisfies_ret, quiet_sequential.
Qed.

Lemma quiet_hostUnits task hs : satisfies quiet (hostUnits E task hs).
Proof.
  induction hs as [ | h rest IH]; simpl.
  - apply satisfies_ret, quiet_sequential.
  - apply satisfies_bind; [apply quiet_sequential | apply quiet_hostUnit | intros u].
    apply satisfies_bind; [apply quiet_sequential | apply IH | intros rs].
    apply satisfies_ret, quiet_sequential.
Qed.

Lemma quiet_executeTask task options : satisfies quiet (executeTask E task options).
Proof.
  unfold executeTask.
  apply satisfies_bind; [apply quiet_sequential | apply quiet_hostUnits | intros rs].
  apply satisfies_ret, quiet_sequential.
Qed.

End Runner.

(** ** Counters *)

Lemma wrap64_add_l a b : wrap64 (wrap64 a + b) = wrap64 (a + b).
Proof.
  unfold wrap64. f_equal.
  replace ((a + 2 ^ 63) mod 2 ^ 64 - 2 ^ 63 + b + 2 ^ 63)%Z
    with ((a + 2 ^ 63) mod 2 ^ 64 + b)%Z by lia.
  rewrite Z.add_mod_idemp_l by lia. f_equal. lia.
Qed.

Lemma wrap64_add_r a b : wrap64 (a + wrap64 b) = wrap64 (a + b).
Proof. rewrite Z.add_comm, wrap64_add_l. f_equal. lia. Qed.

Lemma balanced_Success r :
  balanced r ->
  balanced (mkTaskResult (incr (Total r)) (incr (Success r)) (Ignored r) (Failed r)).
Proof.
  unfold balanced, incr. simpl. intros ->.
  rewrite !wrap64_add_l.
  replace (wrap64 (Success r + Ignored r) + Failed r + 1)%Z
    with (wrap64 (Success r + Ignored r) + (Failed r + 1))%Z by ring.
  replace (wrap64 (Success r + 1) + Ignored r + Failed r)%Z
    with (wrap64 (Success r + 1) + (Ignored r + Failed r))%Z by ring.
  rewrite !wrap64_add_l. f_equal. ring.
Qed.

Lemma balanced_Ignored r :
  balanced r ->
  balanced (mkTaskResult (incr (Total r)) (Success r) (incr (Ignored r)) (Failed r)).
Proof.
  unfold balanced, incr. simpl. intros ->.
  rewrite (wrap64_add_r (Success r)), !wrap64_add_l.
  replace (wrap64 (Success r + Ignored r) + Failed r + 1)%Z
    with (wrap64 (Success r + Ignored r) + (Failed r + 1))%Z by ring.
  rewrite wrap64_add_l. f_equal. ring.
Qed.

Lemma balanced_Failed r :
  balanced r ->
  balanced (mkTaskResult (incr (Total r)) (Success r) (Ignored r) (incr (Failed r))).
Proof.
  unfold balanced, incr. simpl. intros ->.
  rewrite wrap64_add_r, wrap64_add_l. f_equal. ring.
Qed.

(** ** What [executeTask] makes of a task *)

Lemma collect_shape acc data :
  IsComplete (fst acc) = true ->
  IsComplete (fst (collect acc data)) = true /\
  RestartCount (Status (fst (collect acc data))) = RestartCount (Status (fst acc)) /\
  Conditions (Status (fst (collect acc data))) = Conditions (Status (fst acc)) /\
  Spec (fst (collect acc data)) = Spec (fst acc) /\
  HostResults (snd (collect acc data)) = HostResults (snd acc) ++ [data].
Proof.
  destruct acc as [t cd]. unfold collect. simpl. intros Ht.
  destruct (StdErr data =? ""); [auto | ].
  destruct (IgnoreError (Spec t)); simpl; auto.
Qed.

Lemma fold_collect_shape arrived : forall acc,
  IsComplete (fst acc) = true ->
  IsComplete (fst (fold_left collect arrived acc)) = true /\
  RestartCount (Status (fst (fold_left collect arrived acc))) = RestartCount (Status (fst acc)) /\
  Conditions (Status (fst (fold_left collect arrived acc))) = Conditions (Status (fst acc)) /\
  Spec (fst (fold_left collect arrived acc)) = Spec (fst acc) /\
  HostResults (snd (fold_left collect arrived acc)) = HostResults (snd acc) ++ arrived.
Proof.
  induction arrived as [ | d rest IH]; intros acc Hacc; simpl.
  - rewrite app_nil_r. auto.
  - destruct (collect_shape acc d Hacc) as (C1 & C2 & C3 & C4 & C5).
    destruct (IH _ C1) as (D1 & D2 & D3 & D4 & D5).
    rewrite D2, D3, D4, D5, C2, C3, C4, C5, <- app_assoc. auto.
Qed.

(** Whatever arrives, and in whatever order, the task ends in a terminal
    phase with one more condition, which holds what arrived. *)
Lemma aggregate_shape task arrived :
  IsComplete (aggregate task arrived) = true /\
  RestartCount (Status (aggregate task arrived)) = RestartCount (Status task) /\
  Conditions (Status (aggregate task arrived)) =
    Conditions (Status task) ++ [mkTaskCondition arrived] /\
  Spec (aggregate task arrived) = Spec task.
Proof.
  unfold aggregate.
  destruct (fold_collect_shape arrived
              (set_Task_Phase TaskPhaseSuccess task, mkTaskCondition []) eq_refl)
    as (A1 & A2 & A3 & A4 & A5).
  destruct (fold_left collect arrived _) as [t cd]. simpl in *.
  unfold IsComplete in *. simpl. rewrite A2, A3, A4. repeat split; auto.
  destruct cd as [rs]. simpl in A5. now subst rs.
Qed.

Section Leaf.

Variables Store Client : Type.
Variable E : Env Store Client.

Local Open Scope exec_scope.

Section Ends.

Variable ok : outcome unit -> Prop.
Hypothesis ok_Done : ok (Done tt).

Lemma ends_ret A (a : A) : ends ok (ret (Store:=Store) (Client:=Client) a).
Proof. intros s. exact ok_Done. Qed.

Lemma ends_bind A B (m : M Store Client A) (f : A -> M Store Client B) :
  ends ok m -> (forall a, ends ok (f a)) -> ends ok (x <- m ;; f x).
Proof.
  intros Hm Hf s. unfold bind. specialize (Hm s).
  destruct (m s) as [[a | e | | | ] s1]; simpl in *; try exact Hm.
  apply Hf.
Qed.

Lemma ends_Merge site h vd : ends ok (Merge E site h vd).
Proof.
  intros s. unfold Merge. now destruct (MergeRuntimeVariable E h vd (variable s)).
Qed.

Variable task : Task.
Hypothesis ok_module : FindModule E (Module_Name (Spec task)) = None -> ok Crash.

Lemma ends_executeModule opts : ends ok (executeModule E task opts).
Proof.
  unfold executeModule. apply ends_bind; [intros s; exact ok_Done | ].
  intros [err | lg]; [apply ends_ret | ].
  destruct (match FailedWhen (Spec task) with [] => _ | _ :: _ => _ end) as [err | [ | ]];
    try apply ends_ret.
  destruct (FindModule E (Module_Name (Spec task))) as [m | ].
  - intros s. unfold bind, record. simpl. now destruct (m opts (variable s)).
  - intros s. simpl. now apply ok_module.
Qed.

Lemma ends_loopItems host loop : forall out, ends ok (loopItems E task host loop out).
Proof.
  induction loop as [ | item rest IH]; intros out; simpl.
  - apply ends_ret.
  - apply ends_bind; [apply ends_Merge | ].
    intros [err | ]; [apply ends_ret | ].
    apply ends_bind; [intros s; exact ok_Done | intros p].
    apply ends_bind; [apply ends_executeModule | intros out'].
    apply ends_bind; [apply ends_Merge | ].
    intros [err | ]; [apply ends_ret | apply IH].
Qed.

Lemma ends_hostUnit host : ends ok (hostUnit E task host).
Proof.
  unfold hostUnit. apply ends_bind.
  - unfold hostBody. apply ends_bind; [intros s; exact ok_Done | ].
    intros [err | ha]; [apply ends_ret | ].
    destruct (match Spec_When (Spec task) with [] => _ | _ :: _ => _ end)
      as [err | [ | ]]; try apply ends_ret.
    destruct (execLoop E ha task); [apply ends_ret | apply ends_loopItems].
  - intros [stdout stderr].
    destruct (Register (Spec task) =? ""); [apply ends_ret | ].
    apply ends_bind; [apply ends_Merge | ].
    intros [err | ]; apply ends_ret.
Qed.

Lemma ends_hostUnits hs : ends ok (hostUnits E task hs).
Proof.
  induction hs as [ | h rest IH]; simpl.
  - apply ends_ret.
  - apply ends_bind; [apply ends_hostUnit | intros u].
    apply ends_bind; [apply IH | intros rs; apply ends_ret].
Qed.

End Ends.

(** [executeTask] returns no error, and the task it leaves is the
    aggregate of what arrived. *)
Lemma executeTask_result task options (s : state Store Client) :
  (exists arrived s', executeTask E task options s = (Done (aggregate task arrived), s')) \/
  (FindModule E (Module_Name (Spec task)) = None /\
   fst (executeTask E task options s) = Crash).
Proof.
  unfold executeTask, bind.
  set (hs := arrange (schedule E task) (Spec_Hosts (Spec task))).
  destruct (FindModule E (Module_Name (Spec task))) as [m | ] eqn:Em.
  - assert (H : ends returned (hostUnits E task hs)).
    { apply ends_hostUnits; [reflexivity | congruence]. }
    specialize (H s). unfold returned in H.
    destruct (hostUnits E task hs s) as [[rs | e | | | ] s1];
      try discriminate H.
    left. now exists rs, s1.
  - assert (H : ends returnedOrCrashed (hostUnits E task hs)).
    { apply ends_hostUnits; [now left | now right]. }
    specialize (H s). unfold returnedOrCrashed in H.
    destruct (hostUnits E task hs s) as [[rs | e | | | ] s1];
      simpl in *; try (destruct H; discriminate).
    + left. now exists rs, s1.
    + right. auto.
Qed.

(** One turn of the drive loop. *)
Lemma driveLoop_turn n task options (s : state Store Client) :
  driveLoop E (S n) task options s =
  (let task := set_Task_Phase TaskPhaseRunning task in
   _ <- StatusUpdate E task ;;
   task <- executeTask E task options ;;
   r <- StatusUpdate E task ;;
   match r with
   | Some err => raise (Upstream err)
   | None => ret task
   end) s.
Proof.
  simpl. unfold bind at 1 4.
  destruct (StatusUpdate E (set_Task_Phase TaskPhaseRunning task) s) as [[? | ? | | | ] s1];
    try reflexivity.
  unfold bind at 1 3.
  destruct (executeTask_result (set_Task_Phase TaskPhaseRunning task) options s1)
    as [(arrived & s2 & ->) | (_ & Hc)].
  - unfold bind.
    destruct (StatusUpdate E (aggregate _ arrived) s2) as [[[err | ] | ? | | | ] s3];
      try reflexivity.
    destruct (aggregate_shape (set_Task_Phase TaskPhaseRunning task) arrived) as (-> & _).
    reflexivity.
  - destruct (executeTask E _ options s1) as [[? | ? | | | ] s2];
      simpl in Hc; try discriminate Hc. reflexivity.
Qed.

Lemma driveLoop_complete n task options (s : state Store Client) t' :
  fst (driveLoop E (S n) task options s) = Done t' ->
  IsComplete t' = true /\
  RestartCount (Status t') = RestartCount (Status task) /\
  Spec t' = Spec task.
Proof.
  rewrite driveLoop_turn. cbv zeta. unfold bind at 1.
  destruct (StatusUpdate E (set_Task_Phase TaskPhaseRunning task) s) as [[? | ? | | | ] s1];
    try discriminate.
  unfold bind at 1.
  destruct (executeTask_result (set_Task_Phase TaskPhaseRunning task) options s1)
    as [(arrived & s2 & ->) | (_ & Hc)].
  - unfold bind.
    destruct (StatusUpdate E (aggregate _ arrived) s2) as [[[err | ] | ? | | | ] s3];
      try discriminate.
    simpl. intros [= <-].
    destruct (aggregate_shape (set_Task_Phase TaskPhaseRunning task) arrived)
      as (A1 & A2 & _ & A4).
    auto.
  - destruct (executeTask E _ options s1) as [[? | ? | | | ] s2];
      simpl in Hc; try discriminate Hc. discriminate.
Qed.

Lemma quiet_driveLoop n task options : satisfies quiet (driveLoop E (S n) task options).
Proof.
  intros s. rewrite driveLoop_turn. revert s. cbv zeta.
  apply satisfies_bind; [apply quiet_sequential | apply quiet_StatusUpdate | intros _].
  apply satisfies_bind; [apply quiet_sequential | apply quiet_executeTask | intros t].
  apply satisfies_bind; [apply quiet_sequential | apply quiet_StatusUpdate | ].
  intros [err | ]; [apply satisfies_raise | apply satisfies_ret]; apply quiet_sequential.
Qed.

(** ** The four relations of the walk *)

Lemma sound_sequential : sequential (@sound Store Client).
Proof.
  repeat apply sequential_both.
  - split; unfold halts; auto.
  - split; unfold keepsBalance; auto.
  - split; unfold createsNamed.
    + intros s r _. exists []. rewrite app_nil_r. split; [reflexivity | intros t []].
    + intros s s1 s2 r (n1 & T1 & H1) (n2 & T2 & H2).
      exists (n1 ++ n2). rewrite T2, T1, app_assoc. split; [reflexivity | ].
      intros t. rewrite createdTasks_app, in_app_iff. intros [Ht | Ht]; auto.
  - split; unfold failsOnce.
    + intros s r _. exists []. rewrite app_nil_r. split; [reflexivity | now left].
    + intros s s1 s2 r (n1 & T1 & H1) (n2 & T2 & H2).
      exists (n1 ++ n2). rewrite T2, T1, app_assoc, phaseHistory_app.
      split; [reflexivity | ].
      destruct H1 as [(P1 & F1) | (_ & (e & He) & _)]; [ | discriminate He].
      rewrite P1. simpl. destruct H2 as [(P2 & F2) | (P2 & He & F2)].
      * left. split; [assumption | congruence].
      * right. auto.
Qed.

Lemma quiet_sound (s s' : state Store Client) r : quiet s r s' -> sound s r s'.
Proof.
  intros (Hr & Hp & new & Ht & Hh & Hc).
  split; [ | split; [ | split]].
  - exact Hr.
  - unfold keepsBalance. now rewrite Hp.
  - exists new. split; [assumption | ]. rewrite Hc. intros t [].
  - exists new. split; [assumption | ]. left. split; [assumption | now rewrite Hp].
Qed.

Lemma sound_intro (s s' : state Store Client) r :
  halts s r s' -> keepsBalance s r s' -> createsNamed s r s' -> failsOnce s r s' ->
  sound s r s'.
Proof. intros. split; [ | split; [ | split]]; assumption. Qed.

Lemma satisfies_quiet_sound A (m : M Store Client A) :
  satisfies quiet m -> satisfies sound m.
Proof. intros H s. apply quiet_sound, H. Qed.

Lemma satisfies_bind_value (R : run_relation Store Client) A B (Q : A -> Prop)
    (m : M Store Client A) (f : A -> M Store Client B) :
  sequential R -> satisfies R m ->
  (forall s a, fst (m s) = Done a -> Q a) ->
  (forall a, Q a -> satisfies R (f a)) ->
  satisfies R (x <- m ;; f x).
Proof.
  intros HR Hm HQ Hf s. unfold bind.
  specialize (Hm s). specialize (HQ s).
  destruct (m s) as [[a | e | | | ] s1]; simpl in *; try exact Hm.
  eapply (seq_then HR); [exact Hm | apply Hf, HQ; reflexivity].
Qed.

Lemma sound_materializeTask options hs at_ :
  satisfies sound (materializeTask E options hs at_).
Proof.
  intros s. unfold materializeTask, bind, getPipeline, raise.
  destruct (SetControllerReference E (pipeline s) _) as [err | ];
    [apply (seq_stay sound_sequential); simpl; discriminate | ].
  destruct (completeModule E (UnknownFiled at_) _) as [e | t1];
    [apply (seq_stay sound_sequential); simpl; discriminate | ].
  destruct (Module_Name (Spec t1) =? "") eqn:Ename;
    [apply (seq_stay sound_sequential); simpl; discriminate | ].
  apply String.eqb_neq in Ename.
  unfold Create, bind, record. simpl.
  destruct (client_Create E t1 (client s)) as [[err | t2] c']; simpl;
    (apply sound_intro;
     [ unfold halts; simpl; discriminate
     | unfold keepsBalance; auto
     | exists [EvCreate t1]; split; [reflexivity | ];
       simpl; intros t [<- | []]; exact Ename
     | exists [EvCreate t1]; split; [reflexivity | now left] ]).
Qed.

Lemma sound_countTask task : IsComplete task = true -> satisfies sound (@countTask Store Client task).
Proof.
  intros Hc s. unfold countTask, IsComplete, IsFailed in *.
  destruct (Task_Phase (Status task)); try discriminate Hc; simpl;
    (apply sound_intro;
     [ unfold halts; simpl; discriminate
     | unfold keepsBalance; simpl;
       auto using balanced_Success, balanced_Ignored, balanced_Failed
     | first [ exists []; rewrite app_nil_r; split; [reflexivity | intros t []]
             | exists [EvPhase PipelinePhaseFailed]; split; [reflexivity | intros t []] ]
     | first [ exists []; rewrite app_nil_r; split; [reflexivity | now left]
             | exists [EvPhase PipelinePhaseFailed]; split; [reflexivity | ];
               right; repeat split; [eexists; reflexivity | ];
               simpl; now destruct (FailedDetail (PStatus (pipeline s))) ] ]).
Qed.

Lemma sound_execLeaf n options hs at_ : satisfies sound (execLeaf E (S n) options hs at_).
Proof.
  unfold execLeaf.
  apply satisfies_bind;
    [apply sound_sequential | apply sound_materializeTask | intros t].
  apply satisfies_bind_value with (Q := fun t' => IsComplete t' = true).
  - apply sound_sequential.
  - apply satisfies_quiet_sound, quiet_driveLoop.
  - intros s t' H. now apply driveLoop_complete in H.
  - intros t'. apply sound_countTask.
Qed.

(** Every run of the playbook, with fuel for one turn of each drive
    loop, is sound. *)
Lemma sound_runPlaybook n : satisfies sound (runPlaybook E (S n)).
Proof.
  apply satisfies_runPlaybook.
  - apply sound_sequential.
  - intros. apply satisfies_quiet_sound, quiet_Merge.
  - intros. apply sound_execLeaf.
  - intros. apply satisfies_quiet_sound, quiet_Get_GatherFact.
  - intros. apply satisfies_quiet_sound, quiet_MergeRemote.
Qed.

End Leaf.

(** ** [Exec] as a whole *)

Section Whole.

Variables Store Client : Type.
Variable E : Env Store Client.

Local Open Scope exec_scope.

Lemma Exec_unfold fuel (s : state Store Client) :
  Exec E fuel s =
  withDefer (runPlaybook E fuel) updatePhase (snd (setPhase PipelinePhaseRunning s)).
Proof. reflexivity. Qed.

(** What the deferred function of [Exec] does. *)
Lemma updatePhase_run (s : state Store Client) :
  let s' := snd (updatePhase s) in
  TaskResult (PStatus (pipeline s')) = TaskResult (PStatus (pipeline s)) /\
  FailedDetail (PStatus (pipeline s')) = FailedDetail (PStatus (pipeline s)) /\
  trace s' =
    trace s ++ EvPhase PipelinePhaseSucceed ::
      match FailedDetail (PStatus (pipeline s)) with
      | [] => []
      | _ :: _ => [EvPhase PipelinePhaseFailed]
      end /\
  Phase (PStatus (pipeline s')) =
    match FailedDetail (PStatus (pipeline s)) with
    | [] => PipelinePhaseSucceed
    | _ :: _ => PipelinePhaseFailed
    end.
Proof.
  unfold updatePhase, setPhase, bind, modifyStatus, record, getPipeline. simpl.
  destruct (FailedDetail (PStatus (pipeline s))) eqn:F; simpl; rewrite ?F;
    repeat split.
  now rewrite <- app_assoc.
Qed.

(** C8: when [Exec] returns, the counters of the pipeline satisfy
    total == success + ignored + failed (in Go's 64-bit arithmetic),
    given that they did when [Exec] was entered, as they do for a new
    pipeline, whose counters are zero.  With fuel for one turn of each
    drive loop [Exec] does not leave a loop going. *)
Theorem counters_balanced_at_return n (s : state Store Client) :
  balanced (TaskResult (PStatus (pipeline s))) ->
  fst (Exec E (S n) s) <> Diverge /\
  balanced (TaskResult (PStatus (pipeline (snd (Exec E (S n) s))))).
Proof.
  intros Hb. rewrite Exec_unfold. unfold withDefer.
  destruct (sound_runPlaybook E n (snd (setPhase PipelinePhaseRunning s)))
    as (Hh & Hk & _).
  unfold halts, keepsBalance in *.
  specialize (Hk Hb).
  destruct (runPlaybook E (S n) _) as [[[] | e | | | ] s1]; simpl in *;
    try (split; [discriminate | ]);
    try (now destruct (updatePhase_run s1) as (-> & _));
    try assumption.
  now contradiction Hh.
Qed.

(** The assignments to the phase, one by one: when [Exec] returns, the
    phases it has assigned are Running, then Succeeded, then Failed if a
    failure detail is recorded; or, when a task failed, Running, Failed,
    Succeeded, Failed, with an error returned.  The phase at return is
    Succeeded when no failure detail is recorded and Failed otherwise.
    Failed is overwritten by Succeeded only inside the deferred
    function, which restores it at once. *)
Lemma phase_history_of_Exec n (s : state Store Client) :
  match fst (Exec E (S n) s) with
  | Diverge => False
  | Crash => True
  | r =>
      let s' := snd (Exec E (S n) s) in
      (phaseHistory (trace s') =
         phaseHistory (trace s) ++
           PipelinePhaseRunning :: PipelinePhaseSucceed ::
             match FailedDetail (PStatus (pipeline s')) with
             | [] => []
             | _ :: _ => [PipelinePhaseFailed]
             end
       \/
       phaseHistory (trace s') =
         phaseHistory (trace s) ++
           [PipelinePhaseRunning; PipelinePhaseFailed;
            PipelinePhaseSucceed; PipelinePhaseFailed] /\
       exists e, r = Raise e) /\
      Phase (PStatus (pipeline s')) =
        match FailedDetail (PStatus (pipeline s')) with
        | [] => PipelinePhaseSucceed
        | _ :: _ => PipelinePhaseFailed
        end
  end.
Proof.
  rewrite Exec_unfold. unfold withDefer.
  destruct (sound_runPlaybook E n (snd (setPhase PipelinePhaseRunning s)))
    as (Hh & _ & _ & new & Ht & Hf).
  unfold halts in Hh.
  destruct (runPlaybook E (S n) _) as [r s1]. simpl in Ht, Hf, Hh.
  assert (G : forall r' : outcome unit,
             forget r = r' -> r' <> Crash -> r' <> Diverge ->
             let s' := snd (updatePhase s1) in
             (phaseHistory (trace s') =
                phaseHistory (trace s) ++
                  PipelinePhaseRunning :: PipelinePhaseSucceed ::
                    match FailedDetail (PStatus (pipeline s')) with
                    | [] => []
                    | _ :: _ => [PipelinePhaseFailed]
                    end
              \/
              phaseHistory (trace s') =
                phaseHistory (trace s) ++
                  [PipelinePhaseRunning; PipelinePhaseFailed;
                   PipelinePhaseSucceed; PipelinePhaseFailed] /\
              exists e, r' = Raise e) /\
             Phase (PStatus (pipeline s')) =
               match FailedDetail (PStatus (pipeline s')) with
               | [] => PipelinePhaseSucceed
               | _ :: _ => PipelinePhaseFailed
               end).
  { intros r' Hr' _ _ s'. subst s'.
    destruct (updatePhase_run s1) as (_ & -> & -> & ->).
    split; [ | reflexivity].
    rewrite Ht, !phaseHistory_app. simpl.
    destruct Hf as [(-> & _) | (-> & (e & He) & Hd)].
    - left. destruct (FailedDetail (PStatus (pipeline s1))); simpl.
      all: rewrite <- !app_assoc; reflexivity.
    - right. split; [ | exists e; congruence].
      destruct (FailedDetail (PStatus (pipeline s1))); [contradiction | ].
      simpl. rewrite <- !app_assoc. reflexivity. }
  destruct r as [[] | e | | | ]; simpl in *;
    try exact I; try (now contradiction Hh);
    [ destruct (G (Done tt) eq_refl) as (G1 & G2)
    | destruct (G (Raise e) eq_refl) as (G1 & G2)
    | destruct (G Panic eq_refl) as (G1 & G2) ];
    try discriminate;
    (split; [ | exact G2]);
    (destruct G1 as [G1 | (G1 & e' & He')]; [left; exact G1 | right; split; [exact G1 | ]]);
    try discriminate He'; exists e'; congruence.
Qed.

Lemma createdTasks_phase (tr : list event) p tail :
  createdTasks (tr ++ EvPhase p :: tail) = createdTasks tr ++ createdTasks tail.
Proof. now rewrite createdTasks_app. Qed.

(** With no field naming a registered module the scan leaves the task
    as it was, unless a field does not marshal. *)
Lemma completeModule_unmatched fields task :
  (forall n a, In (n, a) fields -> FindModule E n = None) ->
  (completeModule E fields task = inr task \/
   exists err, completeModule E fields task = inl (Upstream err)) /\
  ((forall n a, In (n, a) fields -> exists data, json_Marshal E a = inr data) ->
   completeModule E fields task = inr task).
Proof.
  induction fields as [ | [n a] rest IH]; intros Hnone; simpl.
  - split; auto.
  - destruct IH as (IH1 & IH2).
    { intros n' a' Hin. apply (Hnone n' a'). now right. }
    rewrite (Hnone n a) by now left.
    split.
    + destruct (json_Marshal E a) as [err | data]; [right; now exists err | exact IH1].
    + intros Hm. destruct (Hm n a) as (data & ->); [now left | ].
      apply IH2. intros n' a' Hin. apply (Hm n' a'). now right.
Qed.

(** The module the scan gives a task is a registered one. *)
Lemma completeModule_registered fields task t' :
  completeModule E fields task = inr t' ->
  t' = task \/ FindModule E (Module_Name (Spec t')) <> None.
Proof.
  induction fields as [ | [n a] rest IH]; simpl.
  - intros [= <-]. now left.
  - destruct (json_Marshal E a) as [err | data]; [discriminate | ].
    destruct (FindModule E n) as [m | ] eqn:En; [ | exact IH].
    intros [= <-]. right. simpl. now rewrite En.
Qed.

(** C7, as the code has it: every task handed to [Create] names a
    module; and a leaf block none of whose unrecognised fields names a
    registered module is not materialised: no task is created and an
    error is returned, which is the no-module error when the controller
    reference can be set and every field marshals (otherwise it is the
    error of the step that failed first). *)
Theorem created_tasks_name_a_module n (s : state Store Client)
    options hs at_ (s0 : state Store Client) :
  (forall t, In t (createdTasks (trace (snd (Exec E (S n) s)))) ->
     In t (createdTasks (trace s)) \/ Module_Name (Spec t) <> "") /\
  ((forall m a, In (m, a) (UnknownFiled at_) -> FindModule E m = None) ->
   exists e,
     materializeTask E options hs at_ s0 = (Raise e, s0) /\
     ((forall t, SetControllerReference E (pipeline s0) t = None) ->
      (forall m a, In (m, a) (UnknownFiled at_) -> exists data, json_Marshal E a = inr data) ->
      e = NoModuleDetected
            (Task_Name (MarshalBlock (role options) hs (when options ++ Block_When at_) at_)))).
Proof.
  split.
  - intros t. rewrite Exec_unfold. unfold withDefer.
    destruct (sound_runPlaybook E n (snd (setPhase PipelinePhaseRunning s)))
      as (_ & _ & (new & Ht & Hn) & _).
    assert (G : forall tail,
               In t (createdTasks (trace s ++ EvPhase PipelinePhaseRunning :: new ++ tail)) ->
               createdTasks tail = [] ->
               In t (createdTasks (trace s)) \/ Module_Name (Spec t) <> "").
    { intros tail Hin Htail. rewrite createdTasks_phase, createdTasks_app, Htail in Hin.
      rewrite app_nil_r, in_app_iff in Hin. destruct Hin; auto. }
    destruct (runPlaybook E (S n) _) as [r s1]. simpl in Ht.
    assert (T1 : trace s1 = trace s ++ EvPhase PipelinePhaseRunning :: new ++ [])
      by (rewrite Ht, app_nil_r, <- app_assoc; reflexivity).
    assert (T2 : exists tail, trace (snd (updatePhase s1)) =
                   trace s ++ EvPhase PipelinePhaseRunning :: new ++ tail /\
                   createdTasks tail = []).
    { destruct (updatePhase_run s1) as (_ & _ & -> & _). rewrite Ht.
      eexists. split; [rewrite <- !app_assoc; reflexivity | ].
      now destruct (FailedDetail (PStatus (pipeline s1))). }
    destruct T2 as (tail & T2 & Htail).
    destruct r as [[] | e | | | ]; simpl;
      first [ rewrite T2; intros Hin; now apply (G tail)
            | rewrite T1; intros Hin; now apply (G []) ].
  - intros Hnone.
    destruct (completeModule_unmatched (UnknownFiled at_)
                (set_OwnerReference (Pipeline_Name (pipeline s0))
                   (set_GenerateName (Pipeline_Name (pipeline s0) ++ "-")%string
                      (Pipeline_Namespace (pipeline s0))
                      (MarshalBlock (role options) hs (when options ++ Block_When at_) at_)))
                Hnone) as (Hc1 & Hc2).
    unfold materializeTask, bind, getPipeline, raise.
    destruct (SetControllerReference E (pipeline s0) _) as [err | ] eqn:Eref.
    + exists (Upstream err). split; [reflexivity | ].
      intros Href. rewrite Href in Eref. discriminate.
    + destruct Hc1 as [Hc1 | (err & Hc1)].
      * rewrite Hc1. simpl. eexists. split; [reflexivity | auto].
      * exists (Upstream err). rewrite Hc1. split; [reflexivity | ].
        intros _ Hm. rewrite (Hc2 Hm) in Hc1. discriminate.
Qed.


Lemma quiet_gatherFacts hs : satisfies quiet (gatherFacts E hs).
Proof.
  apply satisfies_gatherFacts.
  - apply quiet_sequential.
  - apply quiet_Get_GatherFact.
  - apply quiet_MergeRemote.
Qed.


(** ** The loop item *)

Lemma itemHeld_app h a b cur : itemHeld h (a ++ b) cur = itemHeld h b (itemHeld h a cur).
Proof.
  revert cur. induction a as [ | ev a IH]; intros cur; simpl; [reflexivity | ].
  destruct ev as [ | site h' vd [ | ] | | ]; apply IH.
Qed.

(** [executeModule] adds to the trace the call of the module, if it
    makes one, and nothing else. *)
Lemma executeModule_trace task opts (s : state Store Client) :
  let r := fst (executeModule E task opts s) in
  let s' := snd (executeModule E task opts s) in
  (trace s' = trace s /\ (r = Crash \/ exists out, r = Done out)) \/
  (trace s' = trace s ++ [EvModule (Opt_Host opts) (Module_Name (Spec task))] /\
   exists out, r = Done out).
Proof.
  unfold executeModule, bind, Get_AllVariable, ret, crash, record. simpl.
  destruct (GetAllVariable E (Opt_Host opts) (variable s)) as [err | lg]; simpl;
    [solve [left; eauto] | ].
  destruct (match FailedWhen (Spec task) with [] => _ | _ :: _ => _ end) as [err | [ | ]];
    simpl; try solve [left; eauto].
  destruct (FindModule E (Module_Name (Spec task))) as [m | ]; simpl;
    [ | solve [left; eauto]].
  destruct (m opts (variable s)) as [out v']. simpl. right. eauto.
Qed.

Lemma satisfies_intro (R : run_relation Store Client) A (m : M Store Client A) :
  (forall s r s', m s = (r, s') -> R s (forget r) s') -> satisfies R m.
Proof. intros H s. apply H. now destruct (m s). Qed.

Lemma tidyRun_nil host r : tidyRun host [] r.
Proof.
  split; [reflexivity | split; [discriminate | ]].
  intros _. split; [reflexivity | simpl; auto].
Qed.

(** One round of the loop that reached the clearing merge, with or
    without a call of the module, and what it leaves of the item. *)
Lemma round_cleared host item name ok (called : bool) rest :
  let round :=
    EvMerge SiteSetItem host [("item", item)] true ::
      (if called then [EvModule host name] else []) ++
      [EvMerge SiteClearItem host [("item", ANil)] ok] in
  clearedAfterModule (round ++ rest) = clearedAfterModule rest /\
  clearedAfterSet (round ++ rest) = clearedAfterSet rest /\
  (forall cur, itemHeld host (round ++ rest) cur =
               itemHeld host rest (if ok then false else negb (isNil item))) /\
  existsb (isRefusedClear host) round = negb ok.
Proof.
  destruct called, ok; simpl; rewrite !String.eqb_refl; simpl; repeat split.
Qed.

Lemma loopItems_tidy task host loop :
  forall out (s : state Store Client) r s',
    loopItems E task host loop out s = (r, s') ->
    exists new, trace s' = trace s ++ new /\ tidyRun host new r.
Proof.
  induction loop as [ | item rest IH]; intros out s r s' Hrun.
  - injection Hrun as <- <-. exists []. rewrite app_nil_r.
    split; [reflexivity | apply tidyRun_nil].
  - cbn [loopItems] in Hrun. unfold bind, Merge, getPipeline in Hrun.
    destruct (MergeRuntimeVariable E host [("item", item)] (variable s)) as [[err | ] v1].
    + injection Hrun as <- <-.
      exists [EvMerge SiteSetItem host [("item", item)] false].
      split; [reflexivity | ].
      split; [reflexivity | split; [discriminate | ]].
      intros _. split; [reflexivity | simpl; auto].
    + match type of Hrun with
      | context [executeModule E task ?o ?st] =>
          pose proof (executeModule_trace task o st) as Hm;
          destruct (executeModule E task o st) as [r2 s2]
      end.
      cbn [fst snd trace Opt_Host] in Hm.
      assert (Hcalled : exists called : bool,
                 trace s2 =
                   trace s ++ EvMerge SiteSetItem host [("item", item)] true ::
                     (if called then [EvModule host (Module_Name (Spec task))] else []) /\
                 (called = true -> exists out', r2 = Done out')).
      { destruct Hm as [(Ht & _) | (Ht & Hd)]; rewrite Ht.
        - exists false. split; [reflexivity | discriminate].
        - exists true. rewrite <- app_assoc. split; [reflexivity | auto]. }
      destruct Hcalled as (called & Ht2 & Hdone).
      destruct r2 as [out' | e | | | ];
        try (destruct Hm as [(_ & [Hc | (o & Hc)]) | (_ & o & Hc)]; discriminate Hc).
      * destruct (MergeRuntimeVariable E host [("item", ANil)] (variable s2))
          as [[err | ] v3].
        -- injection Hrun as <- <-. cbn [trace]. rewrite Ht2.
           pose proof (round_cleared host item (Module_Name (Spec task)) false called)
             as Hround.
           cbv zeta in Hround.
           eexists. split; [rewrite <- app_assoc; reflexivity | ].
           split; [ | split; [ | intros _; split]].
           ++ intros rest'. apply (Hround rest').
           ++ intros _. now exists (fst out'), err.
           ++ intros rest'. apply (Hround rest').
           ++ intros cur _. right.
              destruct (Hround []) as (_ & _ & _ & Href). exact Href.
        -- apply IH in Hrun as (new & Ht' & Hmod & Hrep & Hset). cbn [trace] in Ht'.
           pose proof (round_cleared host item (Module_Name (Spec task)) true called)
             as Hround.
           cbv zeta in Hround.
           exists ((EvMerge SiteSetItem host [("item", item)] true ::
                      (if called then [EvModule host (Module_Name (Spec task))] else []) ++
                      [EvMerge SiteClearItem host [("item", ANil)] true]) ++ new).
           split; [rewrite Ht', Ht2; cbn [app]; rewrite <- !app_assoc; reflexivity | ].
           assert (Href : forall b,
                      existsb (isRefusedClear host)
                        ((EvMerge SiteSetItem host [("item", item)] true ::
                            (if called then [EvModule host (Module_Name (Spec task))]
                             else []) ++
                            [EvMerge SiteClearItem host [("item", ANil)] true]) ++ new) = b ->
                      existsb (isRefusedClear host) new = b).
           { intros b. rewrite existsb_app.
             destruct (Hround []) as (_ & _ & _ & ->). exact (fun H => H). }
           split; [ | split; [ | intros Hr; destruct (Hset Hr) as (Hs1 & Hl1); split]].
           ++ intros rest'. rewrite <- app_assoc.
              destruct (Hround (new ++ rest')) as (-> & _). apply Hmod.
           ++ intros Hx. apply Hrep, Href, Hx.
           ++ intros rest'. rewrite <- app_assoc.
              destruct (Hround (new ++ rest')) as (_ & -> & _). apply Hs1.
           ++ intros cur Hleft. right.
              destruct (Hround new) as (_ & _ & Hheld & _).
              rewrite Hheld in Hleft.
              destruct (Hl1 false Hleft) as [Hc | Hx]; [discriminate | ].
              rewrite existsb_app, Hx. apply orb_true_r.
      * injection Hrun as <- <-. rewrite Ht2.
        eexists. split; [reflexivity | ].
        destruct called; [destruct (Hdone eq_refl) as (o & Hc); discriminate Hc | ].
        split; [reflexivity | split; [discriminate | intros Hc; now contradiction Hc]].
Qed.

Lemma hostBody_tidy task host (s : state Store Client) :
  exists new,
    trace (snd (hostBody E task host s)) = trace s ++ new /\
    tidyRun host new (fst (hostBody E task host s)).
Proof.
  unfold hostBody, bind, Get_AllVariable.
  destruct (GetAllVariable E host (variable s)) as [err | ha];
    [exists []; rewrite app_nil_r; split; [reflexivity | apply tidyRun_nil] | ].
  destruct (match Spec_When (Spec task) with [] => _ | _ :: _ => _ end) as [err | [ | ]];
    try (exists []; rewrite app_nil_r; split; [reflexivity | apply tidyRun_nil]).
  destruct (execLoop E ha task) as [err | loop];
    [exists []; rewrite app_nil_r; split; [reflexivity | apply tidyRun_nil] | ].
  apply (loopItems_tidy task host loop ("", "") s). now destruct (loopItems _ _ _ _ _ s).
Qed.

(** C9, as the code has it, for one host unit: after every call of the
    module the merge of [{item: nil}] is issued at once, whatever the
    module returned.  If the store refuses that merge, the body of the
    unit ends with the stderr that reports it.  When the unit has come
    to its end, the clearing merge has been issued after every item
    that the store took; and the merges of the unit leave a value under
    the key [item] of the host, where none was before, only if the store
    refused a clearing merge or the task registers its result under the
    name [item]. *)
Theorem loop_item_cleared_unless_refused task host (s : state Store Client) :
  exists new,
    trace (snd (hostUnit E task host s)) = trace s ++ new /\
    clearedAfterModule new = true /\
    (existsb (isRefusedClear host) new = true ->
     exists so err,
       fst (hostBody E task host s) =
         Done (so, ("clean loop item to variable error: " ++ err)%string)) /\
    (fst (hostUnit E task host s) <> Crash ->
     clearedAfterSet new = true /\
     (itemHeld host new false = true ->
      existsb (isRefusedClear host) new = true \/ Register (Spec task) = "item")).
Proof.
  destruct (hostBody_tidy task host s) as (new & Ht & Hmod & Hrep & Hset).
  assert (Hmod0 : clearedAfterModule new = true)
    by (specialize (Hmod []); now rewrite app_nil_r in Hmod).
  unfold hostUnit, bind.
  destruct (hostBody E task host s) as [[[stdout stderr] | e | | | ] s1];
    cbn [fst snd] in *;
    try (exists new; split; [exact Ht | split; [exact Hmod0 | split; [exact Hrep | ]]];
         intros _; destruct (Hset ltac:(discriminate)) as (Hs & Hl);
         split; [specialize (Hs []); now rewrite app_nil_r in Hs | ];
         intros Hleft; destruct (Hl false Hleft) as [Hc | Hx]; [discriminate Hc | now left]).
  - destruct (Hset ltac:(discriminate)) as (Hs & Hl).
    assert (Hs0 : clearedAfterSet new = true)
      by (specialize (Hs []); now rewrite app_nil_r in Hs).
    destruct (Register (Spec task) =? "") eqn:Ereg.
    + exists new. simpl. split; [exact Ht | split; [exact Hmod0 | split; [exact Hrep | ]]].
      intros _. split; [exact Hs0 | ].
      intros Hleft. destruct (Hl false Hleft) as [Hc | Hx]; [discriminate Hc | now left].
    + unfold Merge.
      destruct (MergeRuntimeVariable E host _ (variable s1)) as [[err | ] v2]; simpl.
      * eexists. rewrite Ht, <- app_assoc. split; [reflexivity | ].
        rewrite Hmod, Hs, existsb_app, itemHeld_app. simpl. rewrite orb_false_r.
        split; [reflexivity | split; [exact Hrep | ]].
        intros _. split; [reflexivity | ].
        intros Hleft. destruct (Hl false Hleft) as [Hc | Hx]; [discriminate Hc | now left].
      * eexists. rewrite Ht, <- app_assoc. split; [reflexivity | ].
        rewrite Hmod, Hs, existsb_app, itemHeld_app. simpl.
        rewrite orb_false_r, String.eqb_refl.
        split; [reflexivity | split; [exact Hrep | ]].
        intros _. split; [reflexivity | ].
        destruct (Register (Spec task) =? "item") eqn:Eitem.
        -- intros _. right. now apply String.eqb_eq.
        -- intros Hleft. destruct (Hl false Hleft) as [Hc | Hx];
             [discriminate Hc | now left].
  - exists new. split; [exact Ht | split; [exact Hmod0 | split; [exact Hrep | ]]].
    intros Hc. now contradiction Hc.
Qed.

(** ** The module call and the drive loop *)

(** C2, as the code has it: [failed_when] is evaluated against the scope
    of the host as it is before the module is called.  If it parses true
    the module is not called, nothing changes, and the result is an empty
    stdout with stderr "failed by failedWhen"; if it parses false the
    result is the module's own. *)
Theorem failed_when_checked_before_module task opts (s : state Store Client) lg :
  FailedWhen (Spec task) <> [] ->
  GetAllVariable E (Opt_Host opts) (variable s) = inr lg ->
  (ParseBool E lg (FailedWhen (Spec task)) = inr true ->
   executeModule E task opts s = (Done ("", "failed by failedWhen"), s)) /\
  (forall m,
     ParseBool E lg (FailedWhen (Spec task)) = inr false ->
     FindModule E (Module_Name (Spec task)) = Some m ->
     executeModule E task opts s =
       (Done (fst (m opts (variable s))),
        mkState (pipeline s) (snd (m opts (variable s))) (client s)
          (trace s ++ [EvModule (Opt_Host opts) (Module_Name (Spec task))]))).
Proof.
  intros Hfw Hget. unfold executeModule, bind, Get_AllVariable, ret, record.
  rewrite Hget. destruct (FailedWhen (Spec task)) as [ | c cs]; [contradiction | ].
  split.
  - intros ->. reflexivity.
  - intros m -> ->. simpl. now destruct (m opts (variable s)).
Qed.

Lemma driveLoop_aggregate n task options (s : state Store Client) t' :
  fst (driveLoop E (S n) task options s) = Done t' ->
  exists arrived, t' = aggregate (set_Task_Phase TaskPhaseRunning task) arrived.
Proof.
  rewrite driveLoop_turn. cbv zeta. unfold bind at 1.
  destruct (StatusUpdate E (set_Task_Phase TaskPhaseRunning task) s) as [[? | ? | | | ] s1];
    try discriminate.
  unfold bind at 1.
  destruct (executeTask_result E (set_Task_Phase TaskPhaseRunning task) options s1)
    as [(arrived & s2 & ->) | (_ & Hc)].
  - unfold bind.
    destruct (StatusUpdate E (aggregate _ arrived) s2) as [[[err | ] | ? | | | ] s3];
      try discriminate.
    simpl. intros [= <-]. now exists arrived.
  - destruct (executeTask E _ options s1) as [[? | ? | | | ] s2];
      simpl in Hc; try discriminate Hc. discriminate.
Qed.

Lemma IsComplete_terminal t :
  IsComplete t = true ->
  Task_Phase (Status t) = TaskPhaseSuccess \/
  Task_Phase (Status t) = TaskPhaseIgnored \/
  Task_Phase (Status t) = TaskPhaseFailed.
Proof. unfold IsComplete. destruct (Task_Phase (Status t)); auto; discriminate. Qed.

(** C10, as the code has it: for a task whose module is registered,
    [executeTask] returns nil and leaves the task in one of the phases
    Succeeded, Ignored, Failed; so the drive loop is its first turn and
    nothing more: it calls the task runner once (one condition is
    appended) and the restart count stays as it was. *)
Theorem task_runner_terminal_one_turn n task options (s : state Store Client) :
  FindModule E (Module_Name (Spec task)) <> None ->
  (exists t' s',
     executeTask E task options s = (Done t', s') /\
     (Task_Phase (Status t') = TaskPhaseSuccess \/
      Task_Phase (Status t') = TaskPhaseIgnored \/
      Task_Phase (Status t') = TaskPhaseFailed) /\
     RestartCount (Status t') = RestartCount (Status task)) /\
  driveLoop E (S n) task options s =
    (let task := set_Task_Phase TaskPhaseRunning task in
     _ <- StatusUpdate E task ;;
     task <- executeTask E task options ;;
     r <- StatusUpdate E task ;;
     match r with
     | Some err => raise (Upstream err)
     | None => ret task
     end) s /\
  fst (driveLoop E (S n) task options s) <> Diverge /\
  (forall t', fst (driveLoop E (S n) task options s) = Done t' ->
     RestartCount (Status t') = RestartCount (Status task) /\
     length (Conditions (Status t')) = S (length (Conditions (Status task)))).
Proof.
  intros Hreg. split; [ | split; [ | split]].
  - destruct (executeTask_result E task options s) as [(arrived & s' & Hrun) | (Hnone & _)];
      [ | contradiction].
    exists (aggregate task arrived), s'.
    destruct (aggregate_shape task arrived) as (A1 & A2 & _).
    split; [exact Hrun | split; [now apply IsComplete_terminal | exact A2]].
  - apply driveLoop_turn.
  - pose proof (quiet_driveLoop E n task options s) as (Hd & _).
    intros Hc. apply Hd. now rewrite Hc.
  - intros t' Hdone. apply driveLoop_aggregate in Hdone as (arrived & ->).
    destruct (aggregate_shape (set_Task_Phase TaskPhaseRunning task) arrived)
      as (_ & A2 & A3 & _).
    rewrite A2, A3, length_app. simpl. split; [reflexivity | lia].
Qed.

(** The task that [execBlock] hands to the drive loop is the one
    [Create] has filled in.  When the client leaves the module name of a
    task as it is, that task names a registered module. *)
Lemma created_task_module_registered options hs at_ (s s' : state Store Client) t :
  (forall t0 c t1, fst (client_Create E t0 c) = inr t1 ->
     Module_Name (Spec t1) = Module_Name (Spec t0)) ->
  materializeTask E options hs at_ s = (Done t, s') ->
  FindModule E (Module_Name (Spec t)) <> None.
Proof.
  intros Hkeep. unfold materializeTask, bind, getPipeline, raise.
  destruct (SetControllerReference E (pipeline s) _) as [err | ]; [discriminate | ].
  destruct (completeModule E (UnknownFiled at_) _) as [e | t1] eqn:Ec; [discriminate | ].
  destruct (Module_Name (Spec t1) =? "") eqn:En; [discriminate | ].
  unfold Create, bind, record. simpl.
  pose proof (Hkeep t1 (client s)) as Hk.
  destruct (client_Create E t1 (client s)) as [[err | t2] c']; simpl; [discriminate | ].
  intros [= <- _]. rewrite (Hk t2 eq_refl).
  apply completeModule_registered in Ec as [-> | Hreg]; [ | exact Hreg].
  simpl in En. discriminate En.
Qed.

(** ** Where the walk stops short *)

(** An error from the nested blocks of a composite block is returned at
    once: the state the walk of the block ends in is the state the nested
    walk ended in, so neither rescue nor always has been walked. *)
Lemma nested_error_returns_at_once fuel options at_ hs e (s sm s1 : state Store Client) :
  IsEnabled E (Block_Tags at_) (Tags (pipeline s)) (SkipTags (pipeline s)) = true ->
  blockHosts options at_ = Some hs ->
  Block_Block at_ <> [] ->
  mergeVariable E (Block_Vars at_) hs s = (Done tt, sm) ->
  execBlock E fuel
    (mkOptions hs (Block_Block at_) (role options) (when options ++ Block_When at_)) sm =
    (Raise e, s1) ->
  execBlock_at E fuel options at_ s = (Raise e, s1).
Proof.
  intros Hen Hhosts Hnested Hmerge Hwalk.
  rewrite execBlock_at_unfold. unfold blockBody, bind at 1, getPipeline.
  rewrite Hen. cbn [negb]. rewrite Hhosts. unfold bind at 1. rewrite Hmerge.
  destruct (Block_Block at_) as [ | b0 bs]; [contradiction | ].
  unfold bind at 1. now rewrite Hwalk.
Qed.

(** A host unit whose register merge is refused sets [stderr] and puts
    nothing on the channel. *)
Lemma register_refused_sends_nothing task host so se err v'
    (s s1 : state Store Client) :
  hostBody E task host s = (Done (so, se), s1) ->
  Register (Spec task) <> "" ->
  MergeRuntimeVariable E host
    [(Register (Spec task), AMap [("stdout", AStr so); ("stderr", AStr se)])]
    (variable s1) = (Some err, v') ->
  fst (hostUnit E task host s) =
    Done (mkUnitExit so ("register task result to variable error: " ++ err)%string None).
Proof.
  intros Hbody Hreg Hmerge. unfold hostUnit, bind at 1. rewrite Hbody.
  apply String.eqb_neq in Hreg. rewrite Hreg.
  unfold bind, Merge. now rewrite Hmerge.
Qed.

(** The walk of a batch does not depend on the post tasks of the play. *)
Lemma execBatch_ignores_PostTasks fuel play serials post :
  execBatch E fuel play serials =
  execBatch E fuel
    (mkPlay (Play_Name play) (Play_Tags play) (PlayHost play) (GatherFacts play)
       (Play_RunOnce play) (Serial play) (Play_Vars play) (PreTasks play) (Roles play)
       (Tasks play) post)
    serials.
Proof. reflexivity. Qed.

End Whole.

(** ** Worked runs *)

Section Worked.

Import Lab Scenario.

(** C1: a composite block whose nested task fails, with a rescue and an
    always list.  The walk returns the error of the nested task; the
    tasks of rescue and always are never created. *)
Theorem rescue_and_always_not_walked :
  let play := mkPlay "play" [] ["a"] false false [] [] [] [] [guarded] [] in
  let run := Exec (env (mkPlaybook [play])) 1 (start hostA 10) in
  fst run = Raise (TaskRunFailed "p-0") /\
  createdNames (trace (snd run)) = ["n"].
Proof. vm_compute. split; reflexivity. Qed.

(** C4: a play with one block in each of its four lists.  The block of
    the tasks list is materialised twice and the block of the post tasks
    list never. *)
Theorem post_tasks_walk_repeats_tasks :
  let run := Exec (env (mkPlaybook [fourLists])) 1 (start hostA 100) in
  fst run = Done tt /\
  createdNames (trace (snd run)) = ["pre"; "r"; "t"; "t"] /\
  ~ In "post" (createdNames (trace (snd run))).
Proof.
  vm_compute. split; [reflexivity | split; [reflexivity | ]].
  intros H. repeat (destruct H as [H | H]; [discriminate H | ]). exact H.
Qed.

(** C5: a task that registers its result, on a store that refuses the
    register merge.  The unit sets its [stderr] to the failure and puts
    nothing on the channel; the condition of the task has no result for
    the host. *)
Theorem refused_register_loses_the_result :
  let unit := hostUnit noPlays registering "a" (start hostA 2) in
  let run := executeTask noPlays registering options0 (start hostA 2) in
  fst unit =
    Done (mkUnitExit "hi"
            "register task result to variable error: variable store is full" None) /\
  exists t', fst run = Done t' /\
    Conditions (Status t') = [mkTaskCondition []] /\
    Task_Phase (Status t') = TaskPhaseSuccess.
Proof. vm_compute. split; [reflexivity | eexists; repeat split]. Qed.

(** Against C2: [failed_when] holds in the scope of the host after the
    module has run, and the result is the module's, not a failure. *)
Lemma failed_when_true_afterwards_ignored :
  let opts := mkExecOptions "" "a" marking pipeline0 in
  let run := executeModule noPlays marking opts (start hostA 10) in
  FailedWhen (Spec marking) <> [] /\
  (exists post,
      getAll "a" (variable (snd run)) = inr post /\
      parseBool post (FailedWhen (Spec marking)) = inr true) /\
  fst run = Done ("ok", "") /\
  fst run <> Done ("", "failed by failedWhen").
Proof.
  vm_compute. split; [discriminate | split; [ | split; [reflexivity | discriminate]]].
  eexists. split; reflexivity.
Qed.

(** The assignments of a run with one failing task are Running, Failed,
    Succeeded, Failed.  The last three follow one another with nothing
    done in between: what can be seen is Running while the task is
    created and run, and Failed at the end. *)
Lemma failed_run_assignments :
  let run := Exec (env (mkPlaybook [failing])) 1 (start hostA 100) in
  Phase (PStatus (pipeline (start hostA 100))) = PipelinePhasePending /\
  phaseHistory (trace (snd run)) =
    [PipelinePhaseRunning; PipelinePhaseFailed; PipelinePhaseSucceed; PipelinePhaseFailed] /\
  phasesSeen PipelinePhasePending (trace (snd run)) =
    [PipelinePhaseRunning; PipelinePhaseRunning; PipelinePhaseRunning;
     PipelinePhaseRunning; PipelinePhaseFailed].
Proof. vm_compute. repeat split. Qed.

(** Against C10: a task whose module is not registered.  The host unit
    calls a nil function: the process ends there, and neither
    [executeTask] nor the drive loop returns. *)
Lemma unregistered_module_ends_the_process :
  let s := start hostA 10 in
  FindModule noPlays (Module_Name (Spec unregistered)) = None /\
  fst (executeTask noPlays unregistered options0 s) = Crash /\
  (forall t', fst (executeTask noPlays unregistered options0 s) <> Done t') /\
  fst (driveLoop noPlays 1 unregistered options0 s) = Crash.
Proof.
  vm_compute. split; [reflexivity | split; [reflexivity | split; [ | reflexivity]]].
  discriminate.
Qed.


(** Against C7: a leaf block whose one unrecognised field names no
    module and holds a NaN.  The error is that of the marshalling. *)
Lemma unmarshalled_field_hides_no_module :
  let at_ := leaf "t" "bogus" ANaN in
  let run := materializeTask noPlays options0 ["a"] at_ (start hostA 10) in
  (forall m a, In (m, a) (UnknownFiled at_) -> FindModule noPlays m = None) /\
  fst run = Raise (Upstream "json: unsupported value: NaN") /\
  forall name, fst run <> Raise (NoModuleDetected name).
Proof.
  split; [ | split; [reflexivity | discriminate]].
  intros m a [H | []]. injection H as <- <-. reflexivity.
Qed.

(** Against C9: a task that loops over one item, on a store that takes
    the merge that sets the item and refuses the one that clears it.
    The task runner returns and the item is still there. *)
Lemma refused_clear_leaves_the_item :
  let s := start [("a", [("xs", ASlice [AStr "1"])])] 1 in
  let run := executeTask noPlays looping options0 s in
  (exists t', fst run = Done t') /\
  trace s = [] /\
  itemHeld "a" (trace (snd run)) false = true /\
  lookup "a" (overlays (variable (snd run))) =
    Some [("xs", ASlice [AStr "1"]); ("item", AStr "1")].
Proof. vm_compute. split; [eexists; reflexivity | repeat split]. Qed.

(** *** The theorems at work *)

Lemma counters_balanced_witness :
  balanced (TaskResult (PStatus (pipeline (start hostA 100)))) /\
  fst (Exec (env (mkPlaybook [fourLists])) 1 (start hostA 100)) <> Diverge /\
  balanced (TaskResult (PStatus (pipeline
              (snd (Exec (env (mkPlaybook [fourLists])) 1 (start hostA 100)))))).
Proof.
  split; [reflexivity | ].
  apply counters_balanced_at_return. reflexivity.
Defined.


Lemma created_tasks_witness :
  let at_ := leaf "t" "bogus" (AStr "x") in
  (forall m a, In (m, a) (UnknownFiled at_) -> FindModule noPlays m = None) /\
  exists e,
    materializeTask noPlays options0 ["a"] at_ (start hostA 10) =
      (Raise e, start hostA 10) /\
    e = NoModuleDetected "".
Proof.
  intros at_.
  assert (H : forall m a, In (m, a) (UnknownFiled at_) -> FindModule noPlays m = None).
  { intros m a [H | []]. injection H as <- <-. reflexivity. }
  split; [exact H | ].
  destruct (created_tasks_name_a_module noPlays 0 (start hostA 10) options0 ["a"] at_
              (start hostA 10)) as [_ B].
  destruct (B H) as (e & Hrun & He).
  exists e. split; [exact Hrun | ].
  apply He.
  - intros t. reflexivity.
  - intros m a [Hin | []]. injection Hin as <- <-. now exists "x".
Defined.

Lemma failed_when_witness :
  let s := start [("a", [("done", ABool true)])] 10 in
  let opts := mkExecOptions "" "a" marking pipeline0 in
  FailedWhen (Spec marking) <> [] /\
  executeModule noPlays marking opts s = (Done ("", "failed by failedWhen"), s).
Proof.
  intros s opts.
  assert (H : FailedWhen (Spec marking) <> []) by discriminate.
  split; [exact H | ].
  apply (proj1 (failed_when_checked_before_module noPlays marking opts s
                  (lg := [("done", ABool true)]) H eq_refl)).
  reflexivity.
Defined.

Lemma loop_item_witness :
  let s := start [("a", [("xs", ASlice [AStr "1"])])] 10 in
  exists new,
    trace (snd (hostUnit noPlays looping "a" s)) = trace s ++ new /\
    clearedAfterModule new = true /\
    (existsb (isRefusedClear "a") new = true ->
     exists so err,
       fst (hostBody noPlays looping "a" s) =
         Done (so, ("clean loop item to variable error: " ++ err)%string)) /\
    (fst (hostUnit noPlays looping "a" s) <> Crash ->
     clearedAfterSet new = true /\
     (itemHeld "a" new false = true ->
      existsb (isRefusedClear "a") new = true \/ Register (Spec looping) = "item")).
Proof.
  intros s. exact (loop_item_cleared_unless_refused noPlays looping "a" s).
Defined.

Lemma task_runner_witness :
  FindModule noPlays (Module_Name (Spec plain)) <> None /\
  exists t' s',
    executeTask noPlays plain options0 (start hostA 10) = (Done t', s') /\
    (Task_Phase (Status t') = TaskPhaseSuccess \/
     Task_Phase (Status t') = TaskPhaseIgnored \/
     Task_Phase (Status t') = TaskPhaseFailed) /\
    RestartCount (Status t') = RestartCount (Status plain).
Proof.
  assert (H : FindModule noPlays (Module_Name (Spec plain)) <> None) by discriminate.
  split; [exact H | ].
  exact (proj1 (task_runner_terminal_one_turn noPlays 0 plain options0 (start hostA 10) H)).
Defined.

End Worked.

(** * Further properties of the executor *)

(** ** Blocks that run nothing *)

Section Idle.

Variables Store Client : Type.
Variable E : Env Store Client.

Local Open Scope exec_scope.

(** X1: blocks whose tags are not enabled are passed over: a walk over
    such blocks returns nil and changes nothing, whatever the blocks
    hold (run-once on an empty host list included). *)
Theorem disabled_blocks_are_skipped fuel o bs (s : state Store Client) :
  (forall b, In b bs ->
     IsEnabled E (Block_Tags b) (Tags (pipeline s)) (SkipTags (pipeline s)) = false) ->
  execBlock_range E fuel o bs s = (Done tt, s) /\
  execBlock E fuel (mkOptions (hosts o) bs (role o) (when o)) s = (Done tt, s).
Proof.
  intros Hoff.
  assert (G : forall o', execBlock_range E fuel o' bs s = (Done tt, s)).
  { induction bs as [ | b rest IH]; intros o'; [reflexivity | ].
    rewrite execBlock_range_cons. unfold bind at 1.
    rewrite execBlock_at_unfold. unfold blockBody, bind at 1, getPipeline.
    rewrite (Hoff b) by now left. cbn [negb ret].
    apply IH. intros b' Hin. apply Hoff. now right. }
  split; [apply G | apply (G (mkOptions (hosts o) bs (role o) (when o)))].
Qed.

Lemma varsOnly_sequential : sequential (@varsOnly Store Client).
Proof.
  split.
  - intros s r _. repeat split. exists []. now rewrite app_nil_r.
  - intros s s1 s2 r (P1 & C1 & n1 & T1 & F1) (P2 & C2 & n2 & T2 & F2).
    split; [congruence | split; [congruence | ]].
    exists (n1 ++ n2). rewrite T2, T1, app_assoc, forallb_app, F1, F2. auto.
Qed.

Lemma varsOnly_mergeVariable vd hs : satisfies varsOnly (mergeVariable E vd hs).
Proof.
  unfold mergeVariable. destruct vd as [ | kv vd'].
  - apply satisfies_ret, varsOnly_sequential.
  - generalize (kv :: vd') as d. intros d.
    induction hs as [ | h rest IH]; simpl.
    + apply satisfies_ret, varsOnly_sequential.
    + apply satisfies_bind; [apply varsOnly_sequential | | ].
      * intros s. unfold Merge.
        destruct (MergeRuntimeVariable E h d (variable s)) as [err v']. simpl.
        repeat split. eexists. split; reflexivity.
      * intros [err | ]; [apply satisfies_raise, varsOnly_sequential | exact IH].
Qed.

(** X2: a reference to included tasks is not materialised, even when it
    carries a module field: a walk over such blocks touches neither the
    pipeline nor the client, creates no task, calls no module, and does
    to the variable store only the merges of the blocks' vars. *)
Theorem include_references_only_merge_vars fuel o bs (s : state Store Client) :
  forallb isIncludeRef bs = true ->
  pipeline (snd (execBlock_range E fuel o bs s)) = pipeline s /\
  client (snd (execBlock_range E fuel o bs s)) = client s /\
  exists new,
    trace (snd (execBlock_range E fuel o bs s)) = trace s ++ new /\
    forallb isVarsMerge new = true.
Proof.
  intros Hinc.
  enough (G : satisfies varsOnly (execBlock_range E fuel o bs)) by apply G.
  induction bs as [ | b rest IH].
  - apply satisfies_ret, varsOnly_sequential.
  - simpl in Hinc. apply andb_true_iff in Hinc as (Hb & Hrest).
    rewrite execBlock_range_cons.
    apply satisfies_bind; [apply varsOnly_sequential | | intros _; now apply IH].
    intros s0. revert s0. rewrite execBlock_at_unfold. unfold blockBody.
    apply satisfies_bind;
      [apply varsOnly_sequential | apply satisfies_getPipeline, varsOnly_sequential | ].
    intros p. destruct (negb _); [apply satisfies_ret, varsOnly_sequential | ].
    destruct (blockHosts o b) as [hs | ]; [ | apply satisfies_panic, varsOnly_sequential].
    apply satisfies_bind;
      [apply varsOnly_sequential | apply varsOnly_mergeVariable | intros _].
    unfold isIncludeRef in Hb.
    destruct (Block_Block b); [ | discriminate Hb].
    rewrite Hb. apply satisfies_ret, varsOnly_sequential.
Qed.

(** ** [mergeVariable] *)

(** X3: [mergeVariable] with no vars does nothing.  With vars it merges
    them host by host in the order given and stops at the first merge the
    store refuses: it returns nil after one accepted merge per host, or
    the error of the refused merge after the accepted merges of the hosts
    before it. *)
Theorem mergeVariable_stops_at_refusal vd hs (s : state Store Client) :
  (vd = [] -> mergeVariable E vd hs s = (Done tt, s)) /\
  (vd <> [] ->
   (fst (mergeVariable E vd hs s) = Done tt /\
    trace (snd (mergeVariable E vd hs s)) = trace s ++ varsMerged vd hs)
   \/
   exists pre h post err,
     hs = pre ++ h :: post /\
     fst (mergeVariable E vd hs s) = Raise (Upstream err) /\
     trace (snd (mergeVariable E vd hs s)) =
       trace s ++ varsMerged vd pre ++ [EvMerge SiteVars h vd false]).
Proof.
  split; [intros ->; reflexivity | ].
  intros Hvd. unfold mergeVariable. destruct vd as [ | kv vd']; [contradiction | ].
  clear Hvd. generalize (kv :: vd') as d. intros d. revert s.
  induction hs as [ | h rest IH]; intros s.
  - left. simpl. now rewrite app_nil_r.
  - cbn [mergeVariable_hosts]. unfold bind, Merge.
    destruct (MergeRuntimeVariable E h d (variable s)) as [[err | ] v'].
    + right. exists [], h, rest, err. simpl. auto.
    + match goal with
      | |- context [mergeVariable_hosts E d rest ?st] =>
          destruct (IH st) as [(Hr & Ht) | (pre & h' & post & err & Hs & Hr & Ht)]
      end.
      * left. split; [exact Hr | ]. rewrite Ht. simpl. now rewrite <- app_assoc.
      * right. exists (h :: pre), h', post, err.
        split; [now rewrite Hs | split; [exact Hr | ]].
        rewrite Ht. simpl. now rewrite <- app_assoc.
Qed.

End Idle.

(** ** What arrives and what the task becomes *)

Lemma fold_collect_outcome task rs : forall acc,
  Spec (fst acc) = Spec task ->
  Task_Phase (Status (fst (fold_left collect rs acc))) =
    match failing rs with
    | [] => Task_Phase (Status (fst acc))
    | _ :: _ => if IgnoreError (Spec task) then TaskPhaseIgnored else TaskPhaseFailed
    end /\
  Task_FailedDetail (Status (fst (fold_left collect rs acc))) =
    Task_FailedDetail (Status (fst acc)) ++
      (if IgnoreError (Spec task) then [] else failing rs).
Proof.
  induction rs as [ | d rest IH]; intros [t cd] Hspec; simpl in *.
  - split; [reflexivity | ]. destruct (IgnoreError (Spec task)); now rewrite app_nil_r.
  - unfold failing. simpl. fold (failing rest).
    destruct (StdErr d =? "") eqn:Eerr; simpl.
    + apply (IH (t, _)). exact Hspec.
    + rewrite Hspec.
      destruct (IgnoreError (Spec task)) eqn:Eign.
      * destruct (IH (set_Task_Phase TaskPhaseIgnored t,
                      mkTaskCondition (HostResults cd ++ [d]))) as (I1 & I2);
          [exact Hspec | ].
        rewrite ?Eign in I1, I2. rewrite I1, I2. simpl.
        split; [now destruct (failing rest) | reflexivity].
      * destruct (IH (add_Task_FailedDetail (mkHostOutput (Host d) (Stdout d) (StdErr d))
                        (set_Task_Phase TaskPhaseFailed t),
                      mkTaskCondition (HostResults cd ++ [d]))) as (I1 & I2);
          [exact Hspec | ].
        rewrite ?Eign in I1, I2. rewrite I1, I2. simpl.
        split; [now destruct (failing rest) | ].
        rewrite <- app_assoc. now destruct d.
Qed.

(** X4: the phase [executeTask] gives a task depends only on whether a
    result with a stderr arrived: Succeeded if none did; otherwise
    Ignored under ignore_error and Failed without it.  Under
    ignore_error no failure detail is added; without it the failing
    results are added, in the order they arrived. *)
Theorem aggregate_phase_and_details task arrived :
  Task_Phase (Status (aggregate task arrived)) =
    match failing arrived with
    | [] => TaskPhaseSuccess
    | _ :: _ => if IgnoreError (Spec task) then TaskPhaseIgnored else TaskPhaseFailed
    end /\
  Task_FailedDetail (Status (aggregate task arrived)) =
    Task_FailedDetail (Status task) ++
      (if IgnoreError (Spec task) then [] else failing arrived).
Proof.
  unfold aggregate.
  destruct (fold_collect_outcome task arrived
              (set_Task_Phase TaskPhaseSuccess task, mkTaskCondition []) eq_refl)
    as (A1 & A2).
  destruct (fold_left collect arrived _) as [t cd]. simpl in *. auto.
Qed.

(** ** Host units *)

Section Units.

Variables Store Client : Type.
Variable E : Env Store Client.

Local Open Scope exec_scope.

Lemma failing_skips hs : failing (map (fun h => mkHostOutput h "skip" "") hs) = [].
Proof. induction hs as [ | h rest IH]; [reflexivity | exact IH]. Qed.

(** The scheduler runs every host unit, each once. *)
Lemma extract_Permutation k :
  forall h rest,
    Permutation (fst (extract k h rest) :: snd (extract k h rest)) (h :: rest).
Proof.
  induction k as [ | k IH]; intros h rest; [reflexivity | ].
  destruct rest as [ | h' rest']; [reflexivity | ].
  cbn [extract]. specialize (IH h' rest').
  destruct (extract k h' rest') as [x l]. cbn [fst snd] in *.
  apply perm_trans with (h :: x :: l); [apply perm_swap | now apply perm_skip].
Qed.

Lemma arrange_Permutation picks : forall hs, Permutation (arrange picks hs) hs.
Proof.
  induction picks as [ | k picks IH]; intros hs; [reflexivity | ].
  destruct hs as [ | h rest]; [reflexivity | ].
  cbn [arrange]. pose proof (extract_Permutation k h rest) as Hx.
  destruct (extract k h rest) as [x l]. cbn [fst snd] in Hx.
  apply perm_trans with (x :: l); [apply perm_skip, IH | exact Hx].
Qed.

Lemma arrange_length picks hs : length (arrange picks hs) = length hs.
Proof. apply Permutation_length, arrange_Permutation. Qed.

Lemma extract_In x rest :
  forall h, In x (h :: rest) -> exists k l, extract k h rest = (x, l).
Proof.
  induction rest as [ | h' rest' IH]; intros h Hin.
  - destruct Hin as [-> | []]. now exists 0, [].
  - destruct Hin as [-> | Hin]; [now exists 0, (h' :: rest') | ].
    destruct (IH h' Hin) as (k & l & Hx).
    exists (S k), (h :: l). cbn [extract]. now rewrite Hx.
Qed.

(** Every order of the host units is the order of some scheduler. *)
Lemma every_order_is_scheduled p :
  forall hs, Permutation p hs -> exists picks, arrange picks hs = p.
Proof.
  induction p as [ | x p' IH]; intros hs Hperm.
  - apply Permutation_nil in Hperm. subst hs. now exists [].
  - assert (Hin : In x hs) by (eapply Permutation_in; [exact Hperm | now left]).
    destruct hs as [ | h rest]; [contradiction | ].
    destruct (@extract_In x rest h Hin) as (k & l & Hx).
    pose proof (extract_Permutation k h rest) as Hl. rewrite Hx in Hl. cbn [fst snd] in Hl.
    assert (Hp' : Permutation p' l).
    { apply Permutation_cons_inv with x.
      apply perm_trans with (h :: rest); [exact Hperm | now apply Permutation_sym]. }
    destruct (IH l Hp') as (picks & Hpicks).
    exists (k :: picks). cbn [arrange]. now rewrite Hx, Hpicks.
Qed.

(** X5: when the when conditions of a task hold on none of its hosts
    (and it registers nothing), [executeTask] calls no module and merges
    nothing: the state is as before, every host reports "skip", each
    once and in whatever order the results arrive, and the task is
    Succeeded. *)
Theorem unmet_when_skips_every_host task options (s : state Store Client) :
  Spec_When (Spec task) <> [] ->
  Register (Spec task) = "" ->
  (forall h, In h (Spec_Hosts (Spec task)) ->
     exists ha, GetAllVariable E h (variable s) = inr ha /\
                ParseBool E ha (Spec_When (Spec task)) = inr false) ->
  exists arrived,
    Permutation arrived
      (map (fun h => mkHostOutput h "skip" "") (Spec_Hosts (Spec task))) /\
    executeTask E task options s = (Done (aggregate task arrived), s) /\
    Task_Phase (Status (aggregate task arrived)) = TaskPhaseSuccess /\
    Task_FailedDetail (Status (aggregate task arrived)) =
      Task_FailedDetail (Status task).
Proof.
  intros Hwhen Hreg Hskip.
  assert (U : forall hs, (forall h, In h hs -> In h (Spec_Hosts (Spec task))) ->
              hostUnits E task hs s =
                (Done (map (fun h => mkHostOutput h "skip" "") hs), s)).
  { induction hs as [ | h rest IH]; intros Hin; [reflexivity | ].
    cbn [hostUnits]. unfold bind at 1.
    assert (Hu : hostUnit E task h s =
                   (Done (mkUnitExit "skip" "" (Some (mkHostOutput h "skip" ""))), s)).
    { unfold hostUnit, hostBody, Get_AllVariable, bind.
      destruct (Hskip h (Hin h (or_introl eq_refl))) as (ha & Hget & Hp).
      cbn beta iota. rewrite Hget.
      destruct (Spec_When (Spec task)) as [ | c cs]; [contradiction | ].
      rewrite Hp, Hreg. reflexivity. }
    rewrite Hu. unfold bind. rewrite IH; [reflexivity | ].
    intros h' Hh'. apply Hin. now right. }
  pose proof (arrange_Permutation (schedule E task) (Spec_Hosts (Spec task))) as Hperm.
  exists (map (fun h => mkHostOutput h "skip" "")
            (arrange (schedule E task) (Spec_Hosts (Spec task)))).
  split; [now apply Permutation_map | split; [ | split]].
  - unfold executeTask, bind. rewrite U; [reflexivity | ].
    intros h Hin. eapply Permutation_in; eassumption.
  - destruct (fold_collect_outcome task
                (map (fun h => mkHostOutput h "skip" "")
                   (arrange (schedule E task) (Spec_Hosts (Spec task))))
                (set_Task_Phase TaskPhaseSuccess task, mkTaskCondition []) eq_refl)
      as (A1 & _).
    unfold aggregate.
    destruct (fold_left collect _ _) as [t cd]. simpl in *. rewrite A1.
    now rewrite failing_skips.
  - destruct (fold_collect_outcome task
                (map (fun h => mkHostOutput h "skip" "")
                   (arrange (schedule E task) (Spec_Hosts (Spec task))))
                (set_Task_Phase TaskPhaseSuccess task, mkTaskCondition []) eq_refl)
      as (_ & A2).
    unfold aggregate.
    destruct (fold_left collect _ _) as [t cd]. simpl in *. rewrite A2.
    rewrite failing_skips. destruct (IgnoreError (Spec task)); now rewrite app_nil_r.
Qed.

(** *** Counting module calls *)

Lemma countModule_app a b : countModule (a ++ b) = countModule a + countModule b.
Proof. unfold countModule. now rewrite filter_app, length_app. Qed.

Lemma calls_weaken j k (s s' : state Store Client) r :
  j <= k -> calls j s r s' -> calls k s r s'.
Proof. intros Hle (new & Ht & Hc). exists new. split; [exact Ht | lia]. Qed.

Lemma calls_same_trace k (s s' : state Store Client) r :
  trace s' = trace s -> calls k s r s'.
Proof. intros Ht. exists []. rewrite app_nil_r. split; [exact Ht | unfold countModule; simpl; lia]. Qed.

Lemma calls_bind j k A B (m : M Store Client A) (f : A -> M Store Client B) :
  satisfies (calls j) m -> (forall a, satisfies (calls k) (f a)) ->
  satisfies (calls (j + k)) (x <- m ;; f x).
Proof.
  intros Hm Hf s. unfold bind. specialize (Hm s).
  destruct (m s) as [[a | e | | | ] s1]; simpl in *;
    try (eapply calls_weaken; [ | exact Hm]; lia).
  destruct Hm as (n1 & T1 & C1). destruct (Hf a s1) as (n2 & T2 & C2).
  exists (n1 ++ n2). rewrite T2, T1, app_assoc, countModule_app. split; [reflexivity | lia].
Qed.

Lemma calls_bind_within j k n A B (m : M Store Client A) (f : A -> M Store Client B) :
  j + k <= n ->
  satisfies (calls j) m -> (forall a, satisfies (calls k) (f a)) ->
  satisfies (calls n) (x <- m ;; f x).
Proof.
  intros Hle Hm Hf s. eapply calls_weaken; [exact Hle | ]. now apply calls_bind.
Qed.

Lemma calls_Merge site h vd : satisfies (calls 0) (Merge E site h vd).
Proof.
  intros s. unfold Merge. destruct (MergeRuntimeVariable E h vd (variable s)) as [err v'].
  simpl. eexists. split; [reflexivity | unfold countModule; simpl; lia].
Qed.

Lemma calls_executeModule task opts : satisfies (calls 1) (executeModule E task opts).
Proof.
  intros s. destruct (executeModule_trace E task opts s) as [(Ht & _) | (Ht & _)].
  - apply calls_same_trace. exact Ht.
  - eexists. split; [exact Ht | unfold countModule; simpl; lia].
Qed.

Lemma calls_loopItems task host loop :
  forall out, satisfies (calls (length loop)) (loopItems E task host loop out).
Proof.
  induction loop as [ | item rest IH]; intros out; cbn [loopItems length].
  - intros s. now apply calls_same_trace.
  - apply (calls_bind_within (j := 0) (k := S (length rest))); [lia | apply calls_Merge | ].
    intros [err | ].
    { intros s. now apply calls_same_trace. }
    apply (calls_bind_within (j := 0) (k := S (length rest)));
      [lia | intros s; now apply calls_same_trace | intros p].
    apply (calls_bind_within (j := 1) (k := length rest));
      [lia | apply calls_executeModule | intros out'].
    apply (calls_bind_within (j := 0) (k := length rest)); [lia | apply calls_Merge | ].
    intros [err | ]; [intros s; now apply calls_same_trace | apply IH].
Qed.

(** X6: a host unit calls the module at most once per loop item, and a
    task without a loop directive at most once per host: if every
    expansion of the loop has at most [k] items ([k] at least one, for
    the task without a loop), [executeTask] makes at most [k] calls for
    each host of the task. *)
Theorem module_calls_bounded_by_loop task options k (s : state Store Client) :
  1 <= k ->
  (forall ha raw, Loop_Raw (Spec task) = Some raw ->
     length (Extension2Slice E ha raw) <= k) ->
  exists new,
    trace (snd (executeTask E task options s)) = trace s ++ new /\
    countModule new <= k * length (Spec_Hosts (Spec task)).
Proof.
  intros Hk Hloop.
  assert (U : forall host, satisfies (calls k) (hostUnit E task host)).
  { intros host. unfold hostUnit.
    apply (calls_bind_within (j := k) (k := 0)); [lia | | ].
    - unfold hostBody.
      apply (calls_bind_within (j := 0) (k := k));
        [lia | intros s0; now apply calls_same_trace | ].
      intros [err | ha]; [intros s0; now apply calls_same_trace | ].
      destruct (match Spec_When (Spec task) with [] => _ | _ :: _ => _ end)
        as [err | [ | ]]; try (intros s0; now apply calls_same_trace).
      unfold execLoop. destruct (Loop_Raw (Spec task)) as [raw | ] eqn:Eraw.
      + intros s0. eapply calls_weaken; [ | apply calls_loopItems].
        now apply Hloop.
      + intros s0. eapply calls_weaken; [ | apply calls_loopItems]. simpl. lia.
    - intros [stdout stderr].
      destruct (Register (Spec task) =? ""); [intros s0; now apply calls_same_trace | ].
      apply (calls_bind_within (j := 0) (k := 0)); [lia | apply calls_Merge | ].
      intros [err | ]; intros s0; now apply calls_same_trace. }
  assert (Us : forall hs, satisfies (calls (k * length hs)) (hostUnits E task hs)).
  { induction hs as [ | h rest IH]; cbn [hostUnits length].
    - intros s0. now apply calls_same_trace.
    - apply (calls_bind_within (j := k) (k := k * length rest)); [lia | apply U | intros u].
      apply (calls_bind_within (j := k * length rest) (k := 0)); [lia | apply IH | intros rs].
      intros s0. now apply calls_same_trace. }
  unfold executeTask.
  apply (calls_bind_within (j := k * length (Spec_Hosts (Spec task))) (k := 0));
    [lia | | ].
  - rewrite <- (arrange_length (schedule E task) (Spec_Hosts (Spec task))). apply Us.
  - intros rs s0. now apply calls_same_trace.
Qed.

(** *** A refused merge in the loop *)

Lemma loopItems_refusal task host loop :
  forall out (s : state Store Client) r s',
    loopItems E task host loop out s = (r, s') ->
    exists new,
      trace s' = trace s ++ new /\
      refusalIsLast new = true /\
      (existsb isRefused new = true ->
       exists so err,
         r = Done (so, ("set loop item to variable error: " ++ err)%string) \/
         r = Done (so, ("clean loop item to variable error: " ++ err)%string)).
Proof.
  induction loop as [ | item rest IH]; intros out s r s' Hrun.
  - injection Hrun as <- <-. exists []. rewrite app_nil_r.
    split; [reflexivity | split; [reflexivity | discriminate]].
  - cbn [loopItems] in Hrun. unfold bind, Merge, getPipeline in Hrun.
    destruct (MergeRuntimeVariable E host [("item", item)] (variable s)) as [[err | ] v1].
    + injection Hrun as <- <-. eexists. split; [reflexivity | split; [reflexivity | ]].
      intros _. exists (fst out), err. now left.
    + match type of Hrun with
      | context [executeModule E task ?o ?st] =>
          pose proof (executeModule_trace E task o st) as Hm;
          destruct (executeModule E task o st) as [r2 s2]
      end.
      cbn [fst snd trace Opt_Host] in Hm.
      destruct r2 as [out' | e | | | ];
        try (destruct Hm as [(_ & [Hc | (o & Hc)]) | (_ & o & Hc)]; discriminate Hc).
      * destruct (MergeRuntimeVariable E host [("item", ANil)] (variable s2))
          as [[err | ] v3].
        -- injection Hrun as <- <-. cbn [trace].
           destruct Hm as [(Ht & _) | (Ht & _)]; rewrite Ht;
             (eexists; split; [rewrite <- !app_assoc; reflexivity | ]);
             (split; [reflexivity | intros _; exists (fst out'), err; now right]).
        -- apply IH in Hrun as (new & Ht' & Hlast & Hrep). cbn [trace] in Ht'.
           destruct Hm as [(Ht & _) | (Ht & _)]; rewrite Ht in Ht';
             (eexists; split; [rewrite Ht', <- !app_assoc; reflexivity | ]);
             (split; [exact Hlast | exact Hrep]).
      * injection Hrun as <- <-.
        destruct Hm as [(Ht & _) | (_ & o & Hc)]; [ | discriminate Hc].
        rewrite Ht. eexists. split; [reflexivity | split; [reflexivity | discriminate]].
Qed.

(** X7: in the body of a host unit a merge that the store refuses ends
    the loop: nothing follows it in the trace (no module call and no
    further merge for this or a later item), and the stderr of the unit
    reports it as a failure to set or to clean the loop item. *)
Theorem refused_merge_ends_the_loop task host (s : state Store Client) :
  exists new,
    trace (snd (hostBody E task host s)) = trace s ++ new /\
    refusalIsLast new = true /\
    (existsb isRefused new = true ->
     exists so err,
       fst (hostBody E task host s) =
         Done (so, ("set loop item to variable error: " ++ err)%string) \/
       fst (hostBody E task host s) =
         Done (so, ("clean loop item to variable error: " ++ err)%string)).
Proof.
  assert (Same : forall (r : outcome (string * string)),
             exists new : list event,
               trace s = trace s ++ new /\ refusalIsLast new = true /\
               (existsb isRefused new = true ->
                exists so err,
                  r = Done (so, ("set loop item to variable error: " ++ err)%string) \/
                  r = Done (so, ("clean loop item to variable error: " ++ err)%string))).
  { intros r. exists []. rewrite app_nil_r.
    split; [reflexivity | split; [reflexivity | discriminate]]. }
  unfold hostBody, Get_AllVariable, bind. cbn beta iota.
  destruct (GetAllVariable E host (variable s)) as [err | ha]; [apply Same | ].
  destruct (match Spec_When (Spec task) with [] => _ | _ :: _ => _ end)
    as [err | [ | ]]; try apply Same.
  destruct (execLoop E ha task) as [err | loop]; [apply Same | ].
  destruct (loopItems E task host loop ("", "") s) as [r s'] eqn:Hrun.
  exact (loopItems_refusal task host loop ("", "") s Hrun).
Qed.

(** *** The task runner and the pipeline *)

Lemma runnerOnly_sequential : sequential (@runnerOnly Store Client).
Proof.
  split.
  - intros s r _. repeat split. exists []. now rewrite app_nil_r.
  - intros s s1 s2 r (P1 & C1 & n1 & T1 & F1) (P2 & C2 & n2 & T2 & F2).
    split; [congruence | split; [congruence | ]].
    exists (n1 ++ n2). rewrite T2, T1, app_assoc, forallb_app, F1, F2. auto.
Qed.

Lemma runnerOnly_Merge site h vd :
  site <> SiteVars -> satisfies runnerOnly (Merge E site h vd).
Proof.
  intros Hsite s. unfold Merge.
  destruct (MergeRuntimeVariable E h vd (variable s)) as [err v'].
  simpl. repeat split. eexists. split; [reflexivity | ].
  destruct site; [contradiction | reflexivity | reflexivity | reflexivity].
Qed.

Lemma runnerOnly_executeModule task opts : satisfies runnerOnly (executeModule E task opts).
Proof.
  unfold executeModule.
  apply satisfies_bind;
    [apply runnerOnly_sequential | apply satisfies_Get_AllVariable, runnerOnly_sequential | ].
  intros [err | lg]; [apply satisfies_ret, runnerOnly_sequential | ].
  destruct (match FailedWhen (Spec task) with [] => _ | _ :: _ => _ end) as [err | [ | ]];
    try apply satisfies_ret, runnerOnly_sequential.
  destruct (FindModule E (Module_Name (Spec task))) as [m | ];
    [ | apply satisfies_crash, runnerOnly_sequential].
  intros s. unfold bind, record. simpl.
  destruct (m opts (variable s)) as [out v']. simpl.
  repeat split. eexists. split; reflexivity.
Qed.

(** X8: the task runner works on the variable store alone: whatever the
    modules and the store do, [executeTask] leaves the pipeline (its
    phase and counters included) and the API objects as they are, and
    adds to the trace only merges of the loop and of the register and
    calls of modules. *)
Theorem task_runner_keeps_pipeline_and_client task options (s : state Store Client) :
  pipeline (snd (executeTask E task options s)) = pipeline s /\
  client (snd (executeTask E task options s)) = client s /\
  exists new,
    trace (snd (executeTask E task options s)) = trace s ++ new /\
    forallb isRunnerEvent new = true.
Proof.
  enough (G : satisfies runnerOnly (executeTask E task options)) by apply G.
  assert (L : forall host loop out, satisfies runnerOnly (loopItems E task host loop out)).
  { intros host. induction loop as [ | item rest IH]; intros out; simpl.
    - apply satisfies_ret, runnerOnly_sequential.
    - apply satisfies_bind;
        [apply runnerOnly_sequential | apply runnerOnly_Merge; discriminate | ].
      intros [err | ]; [apply satisfies_ret, runnerOnly_sequential | ].
      apply satisfies_bind;
        [apply runnerOnly_sequential
        | apply satisfies_getPipeline, runnerOnly_sequential | intros p].
      apply satisfies_bind;
        [apply runnerOnly_sequential | apply runnerOnly_executeModule | intros out'].
      apply satisfies_bind;
        [apply runnerOnly_sequential | apply runnerOnly_Merge; discriminate | ].
      intros [err | ]; [apply satisfies_ret, runnerOnly_sequential | apply IH]. }
  assert (U : forall host, satisfies runnerOnly (hostUnit E task host)).
  { intros host. unfold hostUnit.
    apply satisfies_bind; [apply runnerOnly_sequential | | ].
    - unfold hostBody.
      apply satisfies_bind;
        [apply runnerOnly_sequential
        | apply satisfies_Get_AllVariable, runnerOnly_sequential | ].
      intros [err | ha]; [apply satisfies_ret, runnerOnly_sequential | ].
      destruct (match Spec_When (Spec task) with [] => _ | _ :: _ => _ end)
        as [err | [ | ]]; try apply satisfies_ret, runnerOnly_sequential.
      destruct (execLoop E ha task);
        [apply satisfies_ret, runnerOnly_sequential | apply L].
    - intros [stdout stderr].
      destruct (Register (Spec task) =? ""); [apply satisfies_ret, runnerOnly_sequential | ].
      apply satisfies_bind;
        [apply runnerOnly_sequential | apply runnerOnly_Merge; discriminate | ].
      intros [err | ]; apply satisfies_ret, runnerOnly_sequential. }
  unfold executeTask.
  apply satisfies_bind;
    [apply runnerOnly_sequential | | intros rs; apply satisfies_ret, runnerOnly_sequential].
  induction (arrange (schedule E task) (Spec_Hosts (Spec task))) as [ | h rest IH]; simpl.
  - apply satisfies_ret, runnerOnly_sequential.
  - apply satisfies_bind; [apply runnerOnly_sequential | apply U | intros u].
    apply satisfies_bind; [apply runnerOnly_sequential | apply IH | intros rs].
    apply satisfies_ret, runnerOnly_sequential.
Qed.

End Units.

(** ** What a task inherits from the walk *)

Section Inherit.

Variables Store Client : Type.
Variable E : Env Store Client.

Local Open Scope exec_scope.

Lemma inherits_sequential H ro W : sequential (@inherits Store Client H ro W).
Proof.
  split.
  - intros s r _. exists []. rewrite app_nil_r. split; [reflexivity | intros t []].
  - intros s s1 s2 r (n1 & T1 & H1) (n2 & T2 & H2).
    exists (n1 ++ n2). rewrite T2, T1, app_assoc. split; [reflexivity | ].
    intros t. rewrite createdTasks_app, in_app_iff. intros [Ht | Ht]; auto.
Qed.

Lemma quiet_inherits H ro W (s s' : state Store Client) r :
  quiet s r s' -> inherits H ro W s r s'.
Proof.
  intros (_ & _ & new & Ht & _ & Hc). exists new. split; [exact Ht | ].
  rewrite Hc. intros t [].
Qed.

Lemma satisfies_quiet_inherits H ro W A (m : M Store Client A) :
  satisfies quiet m -> satisfies (inherits H ro W) m.
Proof. intros Hq s. apply quiet_inherits, Hq. Qed.

(** The scan for the module changes nothing else of the task. *)
Lemma completeModule_keeps fields task t' :
  completeModule E fields task = inr t' ->
  Spec_Hosts (Spec t') = Spec_Hosts (Spec task) /\
  RoleAnnotation t' = RoleAnnotation task /\
  Spec_When (Spec t') = Spec_When (Spec task).
Proof.
  induction fields as [ | [n a] rest IH]; simpl.
  - intros [= <-]. auto.
  - destruct (json_Marshal E a) as [err | data]; [discriminate | ].
    destruct (FindModule E n) as [m | ]; [ | exact IH].
    intros [= <-]. auto.
Qed.

Lemma inherits_execLeaf n o hs b :
  satisfies (inherits hs (role o) (when o)) (execLeaf E (S n) o hs b).
Proof.
  unfold execLeaf.
  apply satisfies_bind; [apply inherits_sequential | | intros t].
  - intros s. unfold materializeTask, bind, getPipeline, raise.
    destruct (SetControllerReference E (pipeline s) _) as [err | ];
      [apply (seq_stay (inherits_sequential _ _ _)); simpl; discriminate | ].
    destruct (completeModule E (UnknownFiled b) _) as [e | t1] eqn:Escan;
      [apply (seq_stay (inherits_sequential _ _ _)); simpl; discriminate | ].
    destruct (Module_Name (Spec t1) =? "");
      [apply (seq_stay (inherits_sequential _ _ _)); simpl; discriminate | ].
    apply completeModule_keeps in Escan as (K1 & K2 & K3). simpl in K1, K2, K3.
    unfold Create, bind, record. simpl.
    assert (G : forall (r : outcome unit) c',
               inherits hs (role o) (when o) s r
                 (mkState (pipeline s) (variable s) c' (trace s ++ [EvCreate t1]))).
    { intros r c'. exists [EvCreate t1]. split; [reflexivity | ].
      simpl. intros t [<- | []]. rewrite K1, K2, K3.
      split; [now left | split; [reflexivity | now exists (Block_When b)]]. }
    destruct (client_Create E t1 (client s)) as [[err | t2] c']; apply G.
  - apply satisfies_bind; [apply inherits_sequential | | intros t'].
    + apply satisfies_quiet_inherits, quiet_driveLoop.
    + intros s. unfold countTask, IsFailed.
      destruct (Task_Phase (Status t')); simpl;
        (eexists; split; [ first [ now rewrite app_nil_r | reflexivity ] | intros t0 [] ]).
Qed.

Lemma blockHosts_cases o b hs :
  blockHosts o b = Some hs -> hs = hosts o \/ hs = firstn 1 (hosts o).
Proof.
  unfold blockHosts. destruct (RunOnce b); [ | intros [= <-]; now left].
  destruct (hosts o) as [ | h rest]; [discriminate | ].
  intros [= <-]. now right.
Qed.

Lemma inherits_narrow H hs ro W more (s s' : state Store Client) r :
  hs = H \/ hs = firstn 1 H ->
  inherits hs ro (W ++ more) s r s' -> inherits H ro W s r s'.
Proof.
  intros Hhs (new & Ht & Hn). exists new. split; [exact Ht | ].
  intros t Hin. destruct (Hn t Hin) as (Hh & Hr & more' & Hw).
  split; [ | split; [exact Hr | exists (more ++ more'); now rewrite Hw, app_assoc]].
  destruct Hhs as [-> | ->]; [exact Hh | ].
  right. destruct Hh as [-> | ->]; [reflexivity | ]. now destruct H.
Qed.

Lemma inherits_execBlock_at n b :
  forall o, satisfies (inherits (hosts o) (role o) (when o)) (execBlock_at E (S n) o b).
Proof.
  induction b as [b Hnested Hrescue Halways] using Block_forall_ind.
  assert (Walk : forall o1 bs,
             Forall (fun b0 => forall o0,
                       satisfies (inherits (hosts o0) (role o0) (when o0))
                         (execBlock_at E (S n) o0 b0)) bs ->
             satisfies (inherits (hosts o1) (role o1) (when o1))
               (execBlock_range E (S n) o1 bs)).
  { intros o1 bs. induction 1 as [ | b0 rest Hb0 _ IH].
    - apply satisfies_ret, inherits_sequential.
    - rewrite execBlock_range_cons.
      apply satisfies_bind; [apply inherits_sequential | apply Hb0 | intros _; exact IH]. }
  intros o. rewrite execBlock_at_unfold. unfold blockBody.
  apply satisfies_bind;
    [apply inherits_sequential | apply satisfies_getPipeline, inherits_sequential | ].
  intros p. destruct (negb _); [apply satisfies_ret, inherits_sequential | ].
  destruct (blockHosts o b) as [hs | ] eqn:Ehosts;
    [ | apply satisfies_panic, inherits_sequential].
  apply blockHosts_cases in Ehosts.
  apply satisfies_bind; [apply inherits_sequential | | intros _].
  { apply satisfies_mergeVariable; [apply inherits_sequential | ].
    intros. apply satisfies_quiet_inherits, quiet_Merge. }
  assert (Sub : forall bs,
             Forall (fun b0 => forall o0,
                       satisfies (inherits (hosts o0) (role o0) (when o0))
                         (execBlock_at E (S n) o0 b0)) bs ->
             satisfies (inherits (hosts o) (role o) (when o))
               (execBlock E (S n) (mkOptions hs bs (role o) (when o ++ Block_When b)))).
  { intros bs Hbs s. eapply inherits_narrow; [exact Ehosts | ].
    apply (Walk (mkOptions hs bs (role o) (when o ++ Block_When b)) bs Hbs s). }
  destruct (Block_Block b) as [ | b0 nested] eqn:Enested.
  - destruct (negb _); [apply satisfies_ret, inherits_sequential | ].
    intros s. eapply inherits_narrow with (more := []); [exact Ehosts | ].
    rewrite app_nil_r. apply inherits_execLeaf.
  - apply satisfies_bind; [apply inherits_sequential | now apply Sub | intros _].
    apply satisfies_bind;
      [apply inherits_sequential | apply satisfies_getPipeline, inherits_sequential | ].
    intros p'.
    apply satisfies_bind; [apply inherits_sequential | | intros _].
    { destruct (Phase (PStatus p')); try apply satisfies_ret, inherits_sequential.
      destruct (Rescue b) as [ | r0 rescue] eqn:Erescue;
        [apply satisfies_ret, inherits_sequential | now apply Sub]. }
    destruct (Always b) as [ | a0 always] eqn:Ealways;
      [apply satisfies_ret, inherits_sequential | now apply Sub].
Qed.

(** X9: every task created by a walk, at any depth of the block tree,
    runs on the hosts the walk was given or, under a run-once block, on
    the first of them alone; it carries the role of the walk; and its
    when list starts with the when conditions of the walk. *)
Theorem created_tasks_inherit_from_walk n o (s : state Store Client) :
  exists new,
    trace (snd (execBlock E (S n) o s)) = trace s ++ new /\
    forall t, In t (createdTasks new) ->
      (Spec_Hosts (Spec t) = hosts o \/ Spec_Hosts (Spec t) = firstn 1 (hosts o)) /\
      RoleAnnotation t = role o /\
      exists more, Spec_When (Spec t) = when o ++ more.
Proof.
  enough (G : satisfies (inherits (hosts o) (role o) (when o)) (execBlock E (S n) o))
    by apply G.
  unfold execBlock. induction (blocks o) as [ | b rest IH].
  - apply satisfies_ret, inherits_sequential.
  - rewrite execBlock_range_cons.
    apply satisfies_bind;
      [apply inherits_sequential | apply inherits_execBlock_at | intros _; exact IH].
Qed.

End Inherit.

(** ** Plays and batches *)

Section Plays.

Variables Store Client : Type.
Variable E : Env Store Client.

Local Open Scope exec_scope.

Lemma onHosts_sequential H : sequential (@onHosts Store Client H).
Proof.
  split.
  - intros s r _. exists []. rewrite app_nil_r. split; [reflexivity | intros t []].
  - intros s s1 s2 r (n1 & T1 & H1) (n2 & T2 & H2).
    exists (n1 ++ n2). rewrite T2, T1, app_assoc. split; [reflexivity | ].
    intros t. rewrite createdTasks_app, in_app_iff. intros [Ht | Ht]; auto.
Qed.

Lemma satisfies_quiet_onHosts H A (m : M Store Client A) :
  satisfies quiet m -> satisfies (onHosts H) m.
Proof.
  intros Hq s. destruct (Hq s) as (_ & _ & new & Ht & _ & Hc).
  exists new. split; [exact Ht | ]. rewrite Hc. intros t [].
Qed.

Lemma inherits_onHosts H ro W (s s' : state Store Client) r :
  inherits H ro W s r s' -> onHosts H s r s'.
Proof.
  intros (new & Ht & Hn). exists new. split; [exact Ht | ].
  intros t Hin. now destruct (Hn t Hin).
Qed.

Lemma onHosts_execBlock n o : satisfies (onHosts (hosts o)) (execBlock E (S n) o).
Proof.
  unfold execBlock. induction (blocks o) as [ | b rest IH].
  - apply satisfies_ret, onHosts_sequential.
  - rewrite execBlock_range_cons.
    apply satisfies_bind; [apply onHosts_sequential | | intros _; exact IH].
    intros s. eapply inherits_onHosts. apply inherits_execBlock_at.
Qed.

Lemma onHosts_mergeVariable H vd hs : satisfies (onHosts H) (mergeVariable E vd hs).
Proof.
  apply satisfies_mergeVariable; [apply onHosts_sequential | ].
  intros. apply satisfies_quiet_onHosts, quiet_Merge.
Qed.

Lemma onHosts_execBatch n play serials :
  satisfies (onHosts serials) (execBatch E (S n) play serials).
Proof.
  unfold execBatch. destruct serials as [ | h hs];
    [apply satisfies_raise, onHosts_sequential | ].
  apply satisfies_bind;
    [apply onHosts_sequential | apply onHosts_mergeVariable | intros _].
  apply satisfies_bind;
    [apply onHosts_sequential
    | apply (onHosts_execBlock n (mkOptions (h :: hs) (PreTasks play) "" [])) | intros _].
  apply satisfies_bind; [apply onHosts_sequential | | intros _].
  { induction (Roles play) as [ | ro rest IH]; simpl.
    - apply satisfies_ret, onHosts_sequential.
    - apply satisfies_bind;
        [apply onHosts_sequential | apply onHosts_mergeVariable | intros _].
      apply satisfies_bind; [apply onHosts_sequential | | intros _; exact IH].
      apply (onHosts_execBlock n
               (mkOptions (h :: hs) (Role_Block ro) (Role_Role ro) (Role_When ro))). }
  apply satisfies_bind;
    [apply onHosts_sequential
    | apply (onHosts_execBlock n (mkOptions (h :: hs) (Tasks play) "" [])) | intros _].
  apply (onHosts_execBlock n (mkOptions (h :: hs) (Tasks play) "" [])).
Qed.

Lemma execPlay_disabled fuel play (s : state Store Client) :
  IsEnabled E (Play_Tags play) (Tags (pipeline s)) (SkipTags (pipeline s)) = false ->
  execPlay E fuel play s = (Done tt, s).
Proof. intros Hoff. unfold execPlay, bind, getPipeline. now rewrite Hoff. Qed.

Lemma execPlay_hostless fuel play (s : state Store Client) :
  (forall h hs, GetHostnames E (PlayHost play) (variable s) <> inr (h :: hs)) ->
  execPlay E fuel play s = (Done tt, s).
Proof.
  intros Hnone. unfold execPlay, bind, getPipeline, Get_Hostnames.
  destruct (negb _); [reflexivity | ].
  destruct (GetHostnames E (PlayHost play) (variable s)) as [err | [ | h hs]];
    [reflexivity | reflexivity | now contradiction (Hnone h hs)].
Qed.

Lemma execPlay_enabled fuel play h0 hs (s : state Store Client) :
  IsEnabled E (Play_Tags play) (Tags (pipeline s)) (SkipTags (pipeline s)) = true ->
  GetHostnames E (PlayHost play) (variable s) = inr (h0 :: hs) ->
  execPlay E fuel play s =
    ((if GatherFacts play then gatherFacts E (h0 :: hs) else ret tt) ;;
     batchHosts <-
       (if Play_RunOnce play then ret [[h0]]
        else match GroupHostBySerial E (h0 :: hs) (Serial play) with
             | inl err => raise (Upstream err)
             | inr b => ret b
             end) ;;
     execBatches E fuel play batchHosts) s.
Proof.
  intros Hon Hhosts. unfold execPlay, bind at 1, getPipeline.
  rewrite Hon. cbn [negb]. unfold bind at 1, Get_Hostnames. now rewrite Hhosts.
Qed.

(** X10: in a play that runs once, every task created runs on the first
    of the host names the play resolves to, and on no other host,
    whatever the serial setting and the blocks of the play. *)
Theorem run_once_play_uses_first_host n play h0 hs (s : state Store Client) :
  Play_RunOnce play = true ->
  GetHostnames E (PlayHost play) (variable s) = inr (h0 :: hs) ->
  exists new,
    trace (snd (execPlay E (S n) play s)) = trace s ++ new /\
    forall t, In t (createdTasks new) -> Spec_Hosts (Spec t) = [h0].
Proof.
  intros Honce Hhosts.
  enough (G : onHosts [h0] s (forget (fst (execPlay E (S n) play s)))
                (snd (execPlay E (S n) play s))).
  { destruct G as (new & Ht & Hn). exists new. split; [exact Ht | ].
    intros t Hin. now destruct (Hn t Hin). }
  destruct (IsEnabled E (Play_Tags play) (Tags (pipeline s)) (SkipTags (pipeline s)))
    eqn:Hon.
  - rewrite (@execPlay_enabled (S n) play h0 hs s Hon Hhosts), Honce. revert s Hhosts Hon.
    enough (G : satisfies (onHosts [h0])
                  ((if GatherFacts play then gatherFacts E (h0 :: hs) else ret tt) ;;
                   batchHosts <- ret [[h0]] ;; execBatches E (S n) play batchHosts))
      by (intros s _ _; apply G).
    apply satisfies_bind; [apply onHosts_sequential | | intros _].
    { destruct (GatherFacts play); [ | apply satisfies_ret, onHosts_sequential].
      apply satisfies_quiet_onHosts, quiet_gatherFacts. }
    apply satisfies_bind_value with (Q := fun bs => bs = [[h0]]);
      [apply onHosts_sequential | apply satisfies_ret, onHosts_sequential
      | intros s bs [= <-]; reflexivity | intros bs ->].
    cbn [execBatches].
    apply satisfies_bind;
      [apply onHosts_sequential | apply onHosts_execBatch
      | intros _; apply satisfies_ret, onHosts_sequential].
  - rewrite (@execPlay_disabled (S n) play s Hon).
    apply (seq_stay (onHosts_sequential [h0])). discriminate.
Qed.

End Plays.

(** ** The pipeline over a whole run *)

Section Status.

Variables Store Client : Type.
Variable E : Env Store Client.

Local Open Scope exec_scope.

(** The drive loop, whatever its fuel, keeps the pipeline and hands no
    task to [Create]. *)
Lemma driveLoop_still fuel task o (s : state Store Client) :
  pipeline (snd (driveLoop E fuel task o s)) = pipeline s /\
  exists new, trace (snd (driveLoop E fuel task o s)) = trace s ++ new /\
    createdTasks new = [].
Proof.
  destruct fuel as [ | n].
  - simpl. split; [reflexivity | ]. exists []. now rewrite app_nil_r.
  - destruct (quiet_driveLoop E n task o s) as (_ & P & new & T & _ & C). eauto.
Qed.

(** What [materializeTask] does to the state: nothing, or one [Create]. *)
Lemma materializeTask_run o hs b (s : state Store Client) :
  pipeline (snd (materializeTask E o hs b s)) = pipeline s /\
  ((exists e, fst (materializeTask E o hs b s) = Raise e) /\
     trace (snd (materializeTask E o hs b s)) = trace s
   \/
   (exists t, trace (snd (materializeTask E o hs b s)) = trace s ++ [EvCreate t]) /\
     ((exists e, fst (materializeTask E o hs b s) = Raise e) \/
      exists t', fst (materializeTask E o hs b s) = Done t')).
Proof.
  unfold materializeTask, bind, getPipeline, raise.
  destruct (SetControllerReference E (pipeline s) _) as [err | ];
    [simpl; split; [reflexivity | left; split; [eexists | ]; reflexivity] | ].
  destruct (completeModule E (UnknownFiled b) _) as [e | t1];
    [simpl; split; [reflexivity | left; split; [eexists | ]; reflexivity] | ].
  destruct (Module_Name (Spec t1) =? "");
    [simpl; split; [reflexivity | left; split; [eexists | ]; reflexivity] | ].
  unfold Create, bind, record. simpl.
  destruct (client_Create E t1 (client s)) as [[err | t2] c']; simpl;
    (split; [reflexivity | right; split; [eexists; reflexivity | ]]);
    [left | right]; eexists; reflexivity.
Qed.

(** What the end of the leaf case does to the pipeline. *)
Lemma countTask_run task (s : state Store Client) :
  let r := fst (countTask task s) in
  let s' := snd (countTask task s) in
  keepsIdentity s (forget r) s' /\
  Total (TaskResult (PStatus (pipeline s'))) =
    incr (Total (TaskResult (PStatus (pipeline s)))) /\
  (exists new, trace s' = trace s ++ new /\ createdTasks new = []) /\
  if IsFailed task then
    FailedDetail (PStatus (pipeline s')) =
      FailedDetail (PStatus (pipeline s)) ++
        [mkPipelineFailedDetail (Spec_Name (Spec task))
           (map (fun tr => mkHostOutput (Host tr) (Stdout tr) (StdErr tr))
              (Task_FailedDetail (Status task)))] /\
    r = Raise (TaskRunFailed (Task_Name task)) /\
    Reason (PStatus (pipeline s')) = Error (TaskRunFailed (Task_Name task)) /\
    Phase (PStatus (pipeline s')) = PipelinePhaseFailed
  else
    FailedDetail (PStatus (pipeline s')) = FailedDetail (PStatus (pipeline s)) /\
    r = Done tt /\
    Reason (PStatus (pipeline s')) = Reason (PStatus (pipeline s)) /\
    Phase (PStatus (pipeline s')) = Phase (PStatus (pipeline s)).
Proof.
  unfold countTask, IsFailed, keepsIdentity.
  destruct (Task_Phase (Status task)); simpl;
    (split; [repeat split | split; [reflexivity | split; [ | repeat split]]]);
    first [ exists []; now rewrite app_nil_r
          | exists [EvPhase PipelinePhaseFailed]; split; reflexivity ].
Qed.

(** *** Only the status of the pipeline changes *)

Lemma keepsIdentity_sequential : sequential (@keepsIdentity Store Client).
Proof.
  split.
  - intros s r _. repeat split.
  - intros s s1 s2 r (A1 & A2 & A3 & A4 & A5) (B1 & B2 & B3 & B4 & B5).
    repeat split; congruence.
Qed.

Lemma same_pipeline_keepsIdentity (s s' : state Store Client) r :
  pipeline s' = pipeline s -> keepsIdentity s r s'.
Proof. intros P. unfold keepsIdentity. rewrite P. repeat split. Qed.

Lemma satisfies_quiet_keepsIdentity A (m : M Store Client A) :
  satisfies quiet m -> satisfies keepsIdentity m.
Proof.
  intros Hq s. destruct (Hq s) as (_ & P & _). now apply same_pipeline_keepsIdentity.
Qed.

Lemma keepsIdentity_execLeaf fuel o hs b :
  satisfies keepsIdentity (execLeaf E fuel o hs b).
Proof.
  unfold execLeaf.
  apply satisfies_bind; [apply keepsIdentity_sequential | | intros t].
  { intros s. apply same_pipeline_keepsIdentity, materializeTask_run. }
  apply satisfies_bind; [apply keepsIdentity_sequential | | intros t'].
  { intros s. apply same_pipeline_keepsIdentity, driveLoop_still. }
  intros s. apply countTask_run.
Qed.

Lemma keepsIdentity_runPlaybook fuel : satisfies keepsIdentity (runPlaybook E fuel).
Proof.
  apply satisfies_runPlaybook.
  - apply keepsIdentity_sequential.
  - intros. apply satisfies_quiet_keepsIdentity, quiet_Merge.
  - intros. apply keepsIdentity_execLeaf.
  - intros. apply satisfies_quiet_keepsIdentity, quiet_Get_GatherFact.
  - intros. apply satisfies_quiet_keepsIdentity, quiet_MergeRemote.
Qed.

(** How [Exec] ends, from how the run of the playbook ends. *)
Lemma Exec_run fuel (s : state Store Client) :
  let s0 := snd (setPhase PipelinePhaseRunning s) in
  let r := fst (runPlaybook E fuel s0) in
  let s1 := snd (runPlaybook E fuel s0) in
  fst (Exec E fuel s) = r /\
  (snd (Exec E fuel s) = s1 \/ snd (Exec E fuel s) = snd (updatePhase s1)) /\
  (r <> Diverge -> r <> Crash -> snd (Exec E fuel s) = snd (updatePhase s1)).
Proof.
  rewrite Exec_unfold. unfold withDefer. cbv zeta.
  destruct (runPlaybook E fuel (snd (setPhase PipelinePhaseRunning s)))
    as [[[] | e | | | ] s1]; simpl; repeat split; auto; intros; contradiction.
Qed.

Lemma updatePhase_keeps (s : state Store Client) :
  keepsIdentity s (Done tt) (snd (updatePhase s)) /\
  Reason (PStatus (pipeline (snd (updatePhase s)))) = Reason (PStatus (pipeline s)).
Proof.
  unfold updatePhase, setPhase, bind, modifyStatus, record, getPipeline, keepsIdentity.
  simpl. destruct (FailedDetail (PStatus (pipeline s))); simpl; repeat split.
Qed.

(** X11: a run of [Exec] changes nothing of the pipeline but its status:
    the name, the namespace, the playbook path, the tags and the skipped
    tags are at the end what they were at the start, however the run
    ends and whatever the fuel of the drive loops. *)
Theorem Exec_changes_only_the_status fuel (s : state Store Client) :
  Pipeline_Name (pipeline (snd (Exec E fuel s))) = Pipeline_Name (pipeline s) /\
  Pipeline_Namespace (pipeline (snd (Exec E fuel s))) = Pipeline_Namespace (pipeline s) /\
  Playbook_Path (pipeline (snd (Exec E fuel s))) = Playbook_Path (pipeline s) /\
  Tags (pipeline (snd (Exec E fuel s))) = Tags (pipeline s) /\
  SkipTags (pipeline (snd (Exec E fuel s))) = SkipTags (pipeline s).
Proof.
  destruct (Exec_run fuel s) as (_ & Hs & _). cbv zeta in Hs.
  pose proof (keepsIdentity_runPlaybook fuel (snd (setPhase PipelinePhaseRunning s)))
    as Hrun.
  assert (H0 : keepsIdentity s (Done tt) (snd (setPhase PipelinePhaseRunning s)))
    by (repeat split).
  assert (H1 : keepsIdentity s (Done tt)
                 (snd (runPlaybook E fuel (snd (setPhase PipelinePhaseRunning s))))).
  { destruct H0 as (A1 & A2 & A3 & A4 & A5), Hrun as (B1 & B2 & B3 & B4 & B5).
    repeat split; congruence. }
  destruct Hs as [-> | ->]; [exact H1 | ].
  destruct (updatePhase_keeps
              (snd (runPlaybook E fuel (snd (setPhase PipelinePhaseRunning s)))))
    as ((B1 & B2 & B3 & B4 & B5) & _).
  destruct H1 as (A1 & A2 & A3 & A4 & A5).
  repeat split; congruence.
Qed.

(** *** At most one failure *)

Lemma failsFast_sequential : sequential (@failsFast Store Client).
Proof.
  split.
  - intros s r _. left. split; reflexivity.
  - intros s s1 s2 r [(F1 & R1) | (d & name & _ & Hr & _)];
      [ | discriminate Hr].
    intros [(F2 & R2) | (d & name & F2 & Hr & R2)].
    + left. split; congruence.
    + right. exists d, name. rewrite F2, F1. auto.
Qed.

Lemma same_pipeline_failsFast (s s' : state Store Client) r :
  pipeline s' = pipeline s -> failsFast s r s'.
Proof. intros P. left. now rewrite P. Qed.

Lemma satisfies_quiet_failsFast A (m : M Store Client A) :
  satisfies quiet m -> satisfies failsFast m.
Proof.
  intros Hq s. destruct (Hq s) as (_ & P & _). now apply same_pipeline_failsFast.
Qed.

Lemma failsFast_execLeaf fuel o hs b : satisfies failsFast (execLeaf E fuel o hs b).
Proof.
  unfold execLeaf.
  apply satisfies_bind; [apply failsFast_sequential | | intros t].
  { intros s. apply same_pipeline_failsFast, materializeTask_run. }
  apply satisfies_bind; [apply failsFast_sequential | | intros t'].
  { intros s. apply same_pipeline_failsFast, driveLoop_still. }
  intros s. destruct (countTask_run t' s) as (_ & _ & _ & H).
  destruct (IsFailed t').
  - destruct H as (F & Hr & R & _). right.
    eexists _, (Task_Name t').
    split; [exact F | split; [rewrite Hr; reflexivity | exact R]].
  - destruct H as (F & _ & R & _). left. auto.
Qed.

Lemma failsFast_runPlaybook fuel : satisfies failsFast (runPlaybook E fuel).
Proof.
  apply satisfies_runPlaybook.
  - apply failsFast_sequential.
  - intros. apply satisfies_quiet_failsFast, quiet_Merge.
  - intros. apply failsFast_execLeaf.
  - intros. apply satisfies_quiet_failsFast, quiet_Get_GatherFact.
  - intros. apply satisfies_quiet_failsFast, quiet_MergeRemote.
Qed.

(** X12: a run of [Exec] records at most one failure.  Either it leaves
    the failure details and the reason of the pipeline as they were; or
    it appends one failure detail, returns the error [task <name> run
    failed], leaves that text as the reason and ends in phase Failed:
    the walk stops at the first task that fails. *)
Theorem Exec_records_at_most_one_failure fuel (s : state Store Client) :
  let r := fst (Exec E fuel s) in
  let st := PStatus (pipeline s) in
  let st' := PStatus (pipeline (snd (Exec E fuel s))) in
  (FailedDetail st' = FailedDetail st /\ Reason st' = Reason st)
  \/
  exists d name,
    FailedDetail st' = FailedDetail st ++ [d] /\
    r = Raise (TaskRunFailed name) /\
    Reason st' = ("task " ++ name ++ " run failed")%string /\
    Phase st' = PipelinePhaseFailed.
Proof.
  cbv zeta.
  destruct (Exec_run fuel s) as (Hr & Hs & Hd). cbv zeta in Hr, Hs, Hd.
  pose proof (failsFast_runPlaybook fuel (snd (setPhase PipelinePhaseRunning s)))
    as Hrun.
  set (s1 := snd (runPlaybook E fuel (snd (setPhase PipelinePhaseRunning s)))) in *.
  destruct (updatePhase_keeps s1) as (_ & HR).
  destruct (updatePhase_run s1) as (_ & HF & _ & HP). cbv zeta in HF, HP.
  destruct Hrun as [(F & R) | (d & name & F & Hraise & R)].
  - left. simpl in F, R. destruct Hs as [-> | ->]; split; congruence.
  - right. exists d, name. simpl in F, R.
    destruct (fst (runPlaybook E fuel (snd (setPhase PipelinePhaseRunning s))))
      as [[] | e | | | ] eqn:Er; try discriminate Hraise.
    injection Hraise as ->.
    rewrite Hd by discriminate.
    rewrite HF, HR, HP, F, Hr.
    repeat split; auto.
    now destruct (FailedDetail (PStatus (pipeline s))).
Qed.

(** *** The total and the tasks created *)

Lemma forget_unit (r : outcome unit) : forget r = r.
Proof. now destruct r as [[] | e | | | ]. Qed.

Lemma iter_incr_add j k z : Nat.iter (j + k) incr z = Nat.iter k incr (Nat.iter j incr z).
Proof.
  induction k as [ | k IH]; [now rewrite Nat.add_0_r | ].
  rewrite Nat.add_succ_r. simpl. now rewrite IH.
Qed.

Lemma countsCreated_sequential : sequential (@countsCreated Store Client).
Proof.
  split.
  - intros s r _. exists []. rewrite app_nil_r. split; [reflexivity | now left].
  - intros s s1 s2 r (n1 & T1 & [C1 | (Hne & _)]) (n2 & T2 & C2);
      [ | now contradiction Hne].
    exists (n1 ++ n2). rewrite T2, T1, app_assoc. split; [reflexivity | ].
    rewrite createdTasks_app, length_app.
    destruct C2 as [C2 | (Hne & k & Hk & C2)].
    + left. now rewrite iter_incr_add, <- C1.
    + right. split; [exact Hne | ]. exists (length (createdTasks n1) + k).
      split; [now rewrite Hk, Nat.add_succ_r | ].
      now rewrite iter_incr_add, <- C1.
Qed.

Lemma satisfies_quiet_countsCreated A (m : M Store Client A) :
  satisfies quiet m -> satisfies countsCreated m.
Proof.
  intros Hq s. destruct (Hq s) as (_ & P & new & T & _ & C).
  exists new. split; [exact T | ]. left. now rewrite C, P.
Qed.

Lemma countsCreated_execLeaf fuel o hs b :
  satisfies countsCreated (execLeaf E fuel o hs b).
Proof.
  intros s. unfold execLeaf, bind.
  destruct (materializeTask_run o hs b s) as (P0 & Hm).
  destruct (materializeTask E o hs b s) as [r0 s0]. simpl in P0, Hm.
  destruct Hm as [((e & ->) & T0) | ((t & T0) & [(e & ->) | (t' & ->)])].
  - exists []. simpl. rewrite app_nil_r, P0. auto.
  - exists [EvCreate t]. simpl. split; [exact T0 | ].
    right. split; [discriminate | ]. exists 0. now rewrite P0.
  - destruct (driveLoop_still fuel t' o s0) as (P1 & n1 & T1 & C1).
    destruct (driveLoop E fuel t' o s0) as [[t2 | e | | | ] s1]; simpl in P1, T1;
      try (exists (EvCreate t :: n1); simpl;
           rewrite T1, T0, <- app_assoc, C1; split; [reflexivity | ];
           right; split; [discriminate | ]; exists 0; now rewrite P1, P0).
    destruct (countTask_run t2 s1) as (_ & HT & (n2 & T2 & C2) & _).
    exists (EvCreate t :: n1 ++ n2).
    rewrite T2, T1, T0, <- !app_assoc. split; [reflexivity | ].
    left. simpl. rewrite createdTasks_app, C1, C2, HT, P1, P0. reflexivity.
Qed.

Lemma countsCreated_runPlaybook fuel : satisfies countsCreated (runPlaybook E fuel).
Proof.
  apply satisfies_runPlaybook.
  - apply countsCreated_sequential.
  - intros. apply satisfies_quiet_countsCreated, quiet_Merge.
  - intros. apply countsCreated_execLeaf.
  - intros. apply satisfies_quiet_countsCreated, quiet_Get_GatherFact.
  - intros. apply satisfies_quiet_countsCreated, quiet_MergeRemote.
Qed.

(** X13: the total counter follows the tasks handed to the client.  Over
    a run of [Exec] the total is incremented once for each task passed
    to [Create]; only when [Exec] does not return nil may the last of
    them be left out (its creation, or a status update, was refused, or
    the run ended in its drive loop). *)
Theorem total_counts_created_tasks fuel (s : state Store Client) :
  exists new,
    trace (snd (Exec E fuel s)) = trace s ++ new /\
    let total := Total (TaskResult (PStatus (pipeline s))) in
    let total' := Total (TaskResult (PStatus (pipeline (snd (Exec E fuel s))))) in
    (total' = Nat.iter (length (createdTasks new)) incr total
     \/
     fst (Exec E fuel s) <> Done tt /\
     exists k, length (createdTasks new) = S k /\ total' = Nat.iter k incr total).
Proof.
  destruct (Exec_run fuel s) as (Hr & Hs & _). cbv zeta in Hr, Hs.
  destruct (countsCreated_runPlaybook fuel (snd (setPhase PipelinePhaseRunning s)))
    as (new & T & C).
  set (s1 := snd (runPlaybook E fuel (snd (setPhase PipelinePhaseRunning s)))) in *.
  simpl in T. rewrite forget_unit, <- Hr in C.
  destruct (updatePhase_run s1) as (HT & _ & Htr & _). cbv zeta in HT, Htr.
  destruct Hs as [-> | ->].
  - exists (EvPhase PipelinePhaseRunning :: new).
    rewrite T, <- app_assoc. split; [reflexivity | exact C].
  - eexists (EvPhase PipelinePhaseRunning :: new ++ _).
    rewrite Htr, T, <- !app_assoc. split; [reflexivity | ].
    cbv zeta. rewrite HT. simpl. rewrite createdTasks_app.
    replace (createdTasks (EvPhase PipelinePhaseSucceed :: _)) with (@nil Task)
      by (now destruct (FailedDetail (PStatus (pipeline s1)))).
    rewrite app_nil_r. exact C.
Qed.

End Status.

(** ** The plays of a playbook *)

Section Playbook.

Variables Store Client : Type.
Variable E : Env Store Client.

Local Open Scope exec_scope.

Lemma execPlays_idle fuel ps (s : state Store Client) :
  (forall play, In play ps ->
     IsEnabled E (Play_Tags play) (Tags (pipeline s)) (SkipTags (pipeline s)) = false \/
     forall h hs, GetHostnames E (PlayHost play) (variable s) <> inr (h :: hs)) ->
  execPlays E fuel ps s = (Done tt, s).
Proof.
  induction ps as [ | play rest IH]; intros Hps; [reflexivity | ].
  cbn [execPlays]. unfold bind.
  destruct (Hps play (or_introl eq_refl)) as [Hoff | Hnone].
  - rewrite (execPlay_disabled E fuel play s Hoff).
    apply IH. intros p Hp. apply Hps. now right.
  - rewrite (execPlay_hostless E fuel play s Hnone).
    apply IH. intros p Hp. apply Hps. now right.
Qed.

(** X14: plays that are not enabled by the tags, and plays whose hosts
    resolve to no host name (an error of the lookup included), are
    passed over without an error.  When every play of the playbook is
    such a play, [Exec] returns nil, leaves the variable store and the
    client as they were, and does nothing but assign the phases. *)
Theorem playbook_without_hosts_is_idle fuel pj pb (s : state Store Client) :
  project_New E (pipeline (snd (setPhase PipelinePhaseRunning s))) = inr pj ->
  MarshalPlaybook pj = inr pb ->
  (forall play, In play (Plays pb) ->
     IsEnabled E (Play_Tags play) (Tags (pipeline s)) (SkipTags (pipeline s)) = false \/
     forall h hs, GetHostnames E (PlayHost play) (variable s) <> inr (h :: hs)) ->
  Exec E fuel s = (Done tt, snd (updatePhase (snd (setPhase PipelinePhaseRunning s)))) /\
  variable (snd (Exec E fuel s)) = variable s /\
  client (snd (Exec E fuel s)) = client s /\
  createdTasks (trace (snd (Exec E fuel s))) = createdTasks (trace s).
Proof.
  intros Hpj Hpb Hps.
  assert (Hx : Exec E fuel s =
               (Done tt, snd (updatePhase (snd (setPhase PipelinePhaseRunning s))))).
  { rewrite Exec_unfold. unfold withDefer, runPlaybook, bind at 1, getPipeline.
    rewrite Hpj, Hpb.
    rewrite (execPlays_idle fuel (Plays pb) (snd (setPhase PipelinePhaseRunning s)) Hps).
    reflexivity. }
  rewrite Hx. split; [reflexivity | ].
  unfold updatePhase, setPhase, bind, modifyStatus, record, getPipeline. simpl.
  destruct (FailedDetail (PStatus (pipeline s))); simpl;
    rewrite ?createdTasks_app; simpl; rewrite ?app_nil_r; auto.
Qed.

(** X15: when the project cannot be loaded, or its playbook cannot be
    converted, [Exec] returns that error, leaves the variable store and
    the client as they were, and still ends in phase Succeeded unless a
    failure detail was recorded before. *)
Theorem unloadable_project_ends_Succeeded fuel err (s : state Store Client) :
  (project_New E (pipeline (snd (setPhase PipelinePhaseRunning s))) = inl err \/
   exists pj,
     project_New E (pipeline (snd (setPhase PipelinePhaseRunning s))) = inr pj /\
     MarshalPlaybook pj = inl err) ->
  fst (Exec E fuel s) = Raise (Upstream err) /\
  variable (snd (Exec E fuel s)) = variable s /\
  client (snd (Exec E fuel s)) = client s /\
  createdTasks (trace (snd (Exec E fuel s))) = createdTasks (trace s) /\
  Phase (PStatus (pipeline (snd (Exec E fuel s)))) =
    match FailedDetail (PStatus (pipeline s)) with
    | [] => PipelinePhaseSucceed
    | _ :: _ => PipelinePhaseFailed
    end.
Proof.
  intros Hload.
  assert (Hx : Exec E fuel s =
               (Raise (Upstream err),
                snd (updatePhase (snd (setPhase PipelinePhaseRunning s))))).
  { rewrite Exec_unfold. unfold withDefer, runPlaybook, bind at 1, getPipeline.
    destruct Hload as [-> | (pj & -> & ->)]; reflexivity. }
  rewrite Hx. split; [reflexivity | ].
  unfold updatePhase, setPhase, bind, modifyStatus, record, getPipeline. simpl.
  destruct (FailedDetail (PStatus (pipeline s))); simpl;
    rewrite ?createdTasks_app; simpl; rewrite ?app_nil_r; auto.
Qed.

Lemma execBatches_app fuel play pre post (s : state Store Client) :
  execBatches E fuel play (pre ++ post) s =
  (execBatches E fuel play pre ;; execBatches E fuel play post) s.
Proof.
  revert s. induction pre as [ | b rest IH]; intros s; [reflexivity | ].
  cbn [app execBatches]. unfold bind at 1 2 3.
  destruct (execBatch E fuel play b s) as [[[] | e | | | ] s1]; try reflexivity.
  rewrite IH. reflexivity.
Qed.

(** X16: an empty batch of hosts stops the play with the error [host is
    empty]: the batches before it have run, and it and the batches after
    it are not, so that nothing more has changed. *)
Theorem empty_batch_aborts fuel play pre post (s s1 : state Store Client) :
  execBatches E fuel play pre s = (Done tt, s1) ->
  execBatches E fuel play (pre ++ [] :: post) s = (Raise HostIsEmpty, s1).
Proof.
  intros Hpre. rewrite execBatches_app. unfold bind at 1. rewrite Hpre. reflexivity.
Qed.

(** *** The first host of a run-once block *)

Lemma unpanicked_mergeVariable vd hs :
  ends unpanicked (mergeVariable (Client:=Client) E vd hs).
Proof.
  unfold mergeVariable. destruct vd as [ | kv vd']; [intros s; discriminate | ].
  generalize (kv :: vd') as d. intros d.
  induction hs as [ | h rest IH]; simpl; [intros s; discriminate | ].
  apply ends_bind; [apply ends_Merge; discriminate | ].
  intros [err | ]; [intros s; discriminate | exact IH].
Qed.

Lemma unpanicked_driveLoop fuel task o : ends unpanicked (driveLoop E fuel task o).
Proof.
  revert task. induction fuel as [ | n IH]; intros task; [intros s; discriminate | ].
  cbn [driveLoop].
  apply ends_bind; [intros s; unfold StatusUpdate;
                    destruct (client_StatusUpdate E _ (client s)); discriminate | ].
  intros _. apply ends_bind.
  { unfold executeTask.
    apply ends_bind; [ | intros rs s; discriminate].
    apply ends_hostUnits; discriminate. }
  intros t. apply ends_bind.
  { intros s. unfold StatusUpdate.
    destruct (client_StatusUpdate E t (client s)); discriminate. }
  intros [err | ]; [intros s; discriminate | ].
  destruct (IsComplete t); [intros s; discriminate | apply IH].
Qed.

Lemma unpanicked_execLeaf fuel o hs b : ends unpanicked (execLeaf E fuel o hs b).
Proof.
  unfold execLeaf. apply ends_bind.
  { intros s. destruct (materializeTask_run E o hs b s)
      as (_ & [((e & He) & _) | (_ & [(e & He) | (t & He)])]);
      rewrite He; discriminate. }
  intros t. apply ends_bind; [apply unpanicked_driveLoop | ].
  intros t' s. destruct (countTask_run t' s) as (_ & _ & _ & H).
  destruct (IsFailed t'); destruct H as (_ & -> & _); discriminate.
Qed.

Lemma unpanicked_execBlock_at fuel b :
  forall o, hosts o <> [] -> ends unpanicked (execBlock_at E fuel o b).
Proof.
  induction b as [b Hnested Hrescue Halways] using Block_forall_ind.
  assert (Walk : forall o1 bs,
             Forall (fun b0 => forall o0, hosts o0 <> [] ->
                       ends unpanicked (execBlock_at E fuel o0 b0)) bs ->
             hosts o1 <> [] ->
             ends unpanicked (execBlock_range E fuel o1 bs)).
  { intros o1 bs Hbs Ho1. induction Hbs as [ | b0 rest Hb0 _ IH].
    - intros s; discriminate.
    - rewrite execBlock_range_cons.
      apply ends_bind; [now apply Hb0 | intros _; exact IH]. }
  intros o Ho. rewrite execBlock_at_unfold. unfold blockBody.
  apply ends_bind; [intros s; discriminate | intros p].
  destruct (negb _); [intros s; discriminate | ].
  destruct (blockHosts o b) as [hs | ] eqn:Ehosts.
  - assert (Hhs : hs <> []).
    { unfold blockHosts in Ehosts. destruct (RunOnce b).
      - destruct (hosts o); [discriminate | ]. injection Ehosts as <-. discriminate.
      - now injection Ehosts as <-. }
    apply ends_bind; [apply unpanicked_mergeVariable | intros _].
    destruct (Block_Block b) as [ | b0 nested] eqn:Enested.
    + destruct (negb _); [intros s; discriminate | apply unpanicked_execLeaf].
    + apply ends_bind; [now apply Walk | intros _].
      apply ends_bind; [intros s; discriminate | intros p'].
      apply ends_bind; [ | intros _].
      { destruct (Phase (PStatus p')); try (intros s; discriminate).
        destruct (Rescue b) as [ | r0 rescue] eqn:Erescue;
          [intros s; discriminate | now apply Walk]. }
      destruct (Always b) as [ | a0 always] eqn:Ealways;
        [intros s; discriminate | now apply Walk].
  - unfold blockHosts in Ehosts. destruct (RunOnce b); [ | discriminate].
    destruct (hosts o); [now contradiction Ho | discriminate].
Qed.

Lemma unpanicked_execBlock fuel o :
  hosts o <> [] -> ends unpanicked (execBlock E fuel o).
Proof.
  intros Ho. unfold execBlock.
  induction (blocks o) as [ | b rest IH]; [intros s; discriminate | ].
  rewrite execBlock_range_cons.
  apply ends_bind; [now apply unpanicked_execBlock_at | intros _; exact IH].
Qed.

Lemma unpanicked_execBatch fuel play serials :
  ends unpanicked (execBatch E fuel play serials).
Proof.
  unfold execBatch. destruct serials as [ | h hs]; [intros s; discriminate | ].
  apply ends_bind; [apply unpanicked_mergeVariable | intros _].
  apply ends_bind; [apply unpanicked_execBlock; discriminate | intros _].
  apply ends_bind; [ | intros _].
  { induction (Roles play) as [ | ro rest IH]; simpl; [intros s; discriminate | ].
    apply ends_bind; [apply unpanicked_mergeVariable | intros _].
    apply ends_bind; [apply unpanicked_execBlock; discriminate | intros _; exact IH]. }
  apply ends_bind; [apply unpanicked_execBlock; discriminate | intros _].
  apply unpanicked_execBlock; discriminate.
Qed.

Lemma unpanicked_execPlay fuel play : ends unpanicked (execPlay E fuel play).
Proof.
  unfold execPlay. apply ends_bind; [intros s; discriminate | intros p].
  destruct (negb _); [intros s; discriminate | ].
  apply ends_bind; [intros s; discriminate | intros ahn].
  destruct (match ahn with inl _ => [] | inr l => l end) as [ | h0 hs];
    [intros s; discriminate | ].
  apply ends_bind; [ | intros _].
  { destruct (GatherFacts play); [ | intros s; discriminate].
    induction (h0 :: hs) as [ | h rest IH]; simpl; [intros s; discriminate | ].
    apply ends_bind.
    { intros s. unfold Get_GatherFact.
      destruct (getGatherFact E h (variable s)); discriminate. }
    intros [err | gfv]; [intros s; discriminate | ].
    apply ends_bind.
    { intros s. unfold MergeRemote.
      destruct (MergeRemoteVariable E h gfv (variable s)); discriminate. }
    intros [err | ]; [intros s; discriminate | exact IH]. }
  apply ends_bind.
  { destruct (Play_RunOnce play); [intros s; discriminate | ].
    destruct (GroupHostBySerial E (h0 :: hs) (Serial play)) as [err | bs];
      intros s; discriminate. }
  intros bs. induction bs as [ | b rest IH]; simpl; [intros s; discriminate | ].
  apply ends_bind; [apply unpanicked_execBatch | intros _; exact IH].
Qed.

(** X17: the index [options.hosts[0]] of a run-once block is never out
    of range in a run of [Exec]: every host list that reaches [execBlock]
    from [Exec], directly or through nested blocks, has a first host.
    So no run of [Exec] ends in that panic, whatever the playbook, the
    inventory and the fuel of the drive loops. *)
Theorem Exec_never_indexes_out_of_range fuel (s : state Store Client) :
  fst (Exec E fuel s) <> Panic.
Proof.
  destruct (Exec_run E fuel s) as (-> & _).
  assert (H : ends unpanicked (runPlaybook E fuel)).
  { unfold runPlaybook. apply ends_bind; [intros s0; discriminate | intros p].
    destruct (project_New E p) as [err | pj]; [intros s0; discriminate | ].
    destruct (MarshalPlaybook pj) as [err | pb]; [intros s0; discriminate | ].
    induction (Plays pb) as [ | play rest IH]; simpl; [intros s0; discriminate | ].
    apply ends_bind; [apply unpanicked_execPlay | intros _; exact IH]. }
  specialize (H (snd (setPhase PipelinePhaseRunning s))).
  unfold unpanicked in H. now rewrite forget_unit in H.
Qed.

(** X18: outside [Exec] the index can be out of range: [execBlock] with
    no hosts panics at the first enabled run-once block, before it
    merges the block's vars, and walks no block after it. *)
Theorem run_once_without_hosts_panics fuel o b rest (s : state Store Client) :
  hosts o = [] ->
  RunOnce b = true ->
  IsEnabled E (Block_Tags b) (Tags (pipeline s)) (SkipTags (pipeline s)) = true ->
  execBlock_range E fuel o (b :: rest) s = (Panic, s).
Proof.
  intros Ho Honce Hon. rewrite execBlock_range_cons. unfold bind at 1.
  rewrite execBlock_at_unfold. unfold blockBody, bind, getPipeline, blockHosts.
  now rewrite Hon, Honce, Ho.
Qed.

End Playbook.

(** ** The rescue lists *)

Section Rescue.

Variables Store Client : Type.
Variable E : Env Store Client.

Local Open Scope exec_scope.

Lemma bind_cong A B (m m' : M Store Client A) (f f' : A -> M Store Client B) s :
  m s = m' s ->
  (forall a s1, m' s = (Done a, s1) -> f a s1 = f' a s1) ->
  (x <- m ;; f x) s = (x <- m' ;; f' x) s.
Proof.
  intros Hm Hf. unfold bind. rewrite Hm.
  destruct (m' s) as [[a | e | | | ] s1]; auto.
Qed.

Lemma phaseKept_sequential : sequential (@phaseKept Store Client).
Proof.
  split.
  - intros s r _ _. reflexivity.
  - intros s s1 s2 r H1 H2 Hr. rewrite (H2 Hr). now apply H1.
Qed.

Lemma satisfies_quiet_phaseKept A (m : M Store Client A) :
  satisfies quiet m -> satisfies phaseKept m.
Proof. intros Hq s _. destruct (Hq s) as (_ & -> & _). reflexivity. Qed.

Lemma phaseKept_Merge site h vd : satisfies phaseKept (Merge E site h vd).
Proof. apply satisfies_quiet_phaseKept, quiet_Merge. Qed.

Lemma phaseKept_execLeaf fuel o hs b : satisfies phaseKept (execLeaf E fuel o hs b).
Proof.
  unfold execLeaf.
  apply satisfies_bind; [apply phaseKept_sequential | | intros t].
  { intros s _. now destruct (materializeTask_run E o hs b s) as (-> & _). }
  apply satisfies_bind; [apply phaseKept_sequential | | intros t'].
  { intros s _. now destruct (driveLoop_still E fuel t o s) as (-> & _). }
  intros s Hr. destruct (countTask_run t' s) as (_ & _ & _ & H).
  destruct (IsFailed t').
  - destruct H as (_ & Hraise & _). rewrite Hraise in Hr. discriminate Hr.
  - now destruct H as (_ & _ & _ & ->).
Qed.

(** A step that returned nil from a phase other than Failed leaves a
    phase other than Failed. *)
Lemma phaseKept_after A (m : M Store Client A) (s s1 : state Store Client) a :
  satisfies phaseKept m ->
  m s = (Done a, s1) ->
  Phase (PStatus (pipeline s)) <> PipelinePhaseFailed ->
  Phase (PStatus (pipeline s1)) <> PipelinePhaseFailed.
Proof.
  intros Hk Hrun Hs. specialize (Hk s). rewrite Hrun in Hk.
  unfold phaseKept in Hk. simpl in Hk. now rewrite Hk.
Qed.

(** The walk does not read the block list of its options. *)
Lemma driveLoop_options fuel o1 o2 :
  forall task (s : state Store Client),
    driveLoop E fuel task o1 s = driveLoop E fuel task o2 s.
Proof.
  induction fuel as [ | n IH]; intros task s; [reflexivity | ].
  cbn [driveLoop]. apply bind_cong; [reflexivity | intros _ s1 _].
  apply bind_cong; [reflexivity | intros t s2 _].
  apply bind_cong; [reflexivity | intros [err | ] s3 _]; [reflexivity | ].
  destruct (IsComplete t); [reflexivity | apply IH].
Qed.

Lemma execBlock_at_blocks fuel b h bs1 bs2 r w (s : state Store Client) :
  execBlock_at E fuel (mkOptions h bs1 r w) b s =
  execBlock_at E fuel (mkOptions h bs2 r w) b s.
Proof.
  rewrite !execBlock_at_unfold. unfold blockBody.
  apply bind_cong; [reflexivity | intros p s0 _].
  destruct (negb _); [reflexivity | ].
  change (blockHosts (mkOptions h bs1 r w) b) with (blockHosts (mkOptions h bs2 r w) b).
  destruct (blockHosts (mkOptions h bs2 r w) b) as [hs | ]; [ | reflexivity].
  apply bind_cong; [reflexivity | intros _ s1 _].
  destruct (Block_Block b); [ | reflexivity].
  destruct (negb _); [reflexivity | ].
  unfold execLeaf.
  apply bind_cong; [reflexivity | intros t s2 _].
  apply bind_cong; [apply driveLoop_options | reflexivity].
Qed.

Lemma execBlock_range_blocks fuel h bs1 bs2 r w l :
  forall s : state Store Client,
    execBlock_range E fuel (mkOptions h bs1 r w) l s =
    execBlock_range E fuel (mkOptions h bs2 r w) l s.
Proof.
  induction l as [ | b rest IH]; intros s; [reflexivity | ].
  rewrite !execBlock_range_cons.
  apply bind_cong; [apply execBlock_at_blocks | intros _ s1 _; apply IH].
Qed.

Lemma phaseKept_execBlock_at fuel o b : satisfies phaseKept (execBlock_at E fuel o b).
Proof.
  apply satisfies_execBlock_at.
  - apply phaseKept_sequential.
  - apply phaseKept_Merge.
  - intros. apply phaseKept_execLeaf.
Qed.

Lemma phaseKept_execBlock fuel o : satisfies phaseKept (execBlock E fuel o).
Proof.
  apply satisfies_execBlock.
  - apply phaseKept_sequential.
  - apply phaseKept_Merge.
  - intros. apply phaseKept_execLeaf.
Qed.

Lemma phaseKept_mergeVariable vd hs : satisfies phaseKept (mergeVariable E vd hs).
Proof.
  apply satisfies_mergeVariable; [apply phaseKept_sequential | apply phaseKept_Merge].
Qed.

Lemma execLeaf_withoutRescue fuel o hs b :
  execLeaf E fuel o hs (withoutRescue b) = execLeaf E fuel o hs b.
Proof. now destruct b. Qed.

Lemma withoutRescue_fields o b :
  Block_Tags (withoutRescue b) = Block_Tags b /\
  blockHosts o (withoutRescue b) = blockHosts o b /\
  Block_Vars (withoutRescue b) = Block_Vars b /\
  Block_When (withoutRescue b) = Block_When b /\
  IncludeTasks (withoutRescue b) = IncludeTasks b /\
  Block_Block (withoutRescue b) = map withoutRescue (Block_Block b) /\
  Rescue (withoutRescue b) = [] /\
  Always (withoutRescue b) = map withoutRescue (Always b).
Proof. destruct b; repeat split. Qed.

(** A block walked from a phase other than Failed is walked as the block
    without its rescue lists is. *)
Lemma execBlock_at_withoutRescue fuel b :
  forall o (s : state Store Client),
    Phase (PStatus (pipeline s)) <> PipelinePhaseFailed ->
    execBlock_at E fuel o (withoutRescue b) s = execBlock_at E fuel o b s.
Proof.
  induction b as [b Hnested Hrescue Halways] using Block_forall_ind.
  assert (Walk : forall o1 bs,
             Forall (fun b0 => forall o0 (s0 : state Store Client),
                       Phase (PStatus (pipeline s0)) <> PipelinePhaseFailed ->
                       execBlock_at E fuel o0 (withoutRescue b0) s0 =
                       execBlock_at E fuel o0 b0 s0) bs ->
             forall s1 : state Store Client,
               Phase (PStatus (pipeline s1)) <> PipelinePhaseFailed ->
               execBlock_range E fuel o1 (map withoutRescue bs) s1 =
               execBlock_range E fuel o1 bs s1).
  { intros o1 bs Hbs. induction Hbs as [ | b0 rest Hb0 _ IH]; intros s1 Hs1;
      [reflexivity | ].
    cbn [map]. rewrite !execBlock_range_cons.
    apply bind_cong; [now apply Hb0 | intros [] s2 Hrun].
    apply IH. eapply phaseKept_after; [apply phaseKept_execBlock_at | | ]; eassumption. }
  intros o s Hs. rewrite !execBlock_at_unfold. unfold blockBody.
  destruct (withoutRescue_fields o b) as (-> & -> & -> & -> & -> & -> & -> & ->).
  apply bind_cong; [reflexivity | intros p s0 [= <- <-]].
  destruct (negb _); [reflexivity | ].
  destruct (blockHosts o b) as [hs | ]; [ | reflexivity].
  apply bind_cong; [reflexivity | intros [] s1 Hm].
  assert (Hs1 : Phase (PStatus (pipeline s1)) <> PipelinePhaseFailed)
    by (eapply phaseKept_after; [apply phaseKept_mergeVariable | | ]; eassumption).
  assert (Sub : forall bs (s2 : state Store Client),
             Forall (fun b0 => forall o0 (s0 : state Store Client),
                       Phase (PStatus (pipeline s0)) <> PipelinePhaseFailed ->
                       execBlock_at E fuel o0 (withoutRescue b0) s0 =
                       execBlock_at E fuel o0 b0 s0) bs ->
             Phase (PStatus (pipeline s2)) <> PipelinePhaseFailed ->
             execBlock E fuel
               (mkOptions hs (map withoutRescue bs) (role o) (when o ++ Block_When b)) s2 =
             execBlock E fuel (mkOptions hs bs (role o) (when o ++ Block_When b)) s2).
  { intros bs s2 Hbs Hs2. unfold execBlock. cbn [blocks].
    rewrite (execBlock_range_blocks fuel hs (map withoutRescue bs) bs).
    now apply Walk. }
  destruct (Block_Block b) as [ | b0 nested] eqn:Enested.
  - cbn [map]. destruct (negb _); [reflexivity | ].
    now rewrite execLeaf_withoutRescue.
  - change (map withoutRescue (b0 :: nested))
      with (withoutRescue b0 :: map withoutRescue nested) at 1.
    cbv iota.
    apply bind_cong; [apply Sub; [exact Hnested | exact Hs1] | intros [] s2 Hn].
    assert (Hs2 : Phase (PStatus (pipeline s2)) <> PipelinePhaseFailed)
      by (eapply phaseKept_after; [apply phaseKept_execBlock | | ]; eassumption).
    apply bind_cong; [reflexivity | intros p' s3 [= <- <-]].
    destruct (Phase (PStatus (pipeline s2))) eqn:Eph; try (now contradiction Hs2);
      (apply bind_cong; [reflexivity | intros [] s4 [= <-]]);
      (destruct (Always b) as [ | a0 always] eqn:Ealways; [reflexivity | ];
       change (map withoutRescue (a0 :: always))
         with (withoutRescue a0 :: map withoutRescue always) at 1;
       cbv iota; apply Sub; [exact Halways | rewrite Eph; discriminate]).
Qed.

Lemma execBlock_range_withoutRescue fuel o bs :
  forall s : state Store Client,
    Phase (PStatus (pipeline s)) <> PipelinePhaseFailed ->
    execBlock_range E fuel o (map withoutRescue bs) s = execBlock_range E fuel o bs s.
Proof.
  induction bs as [ | b rest IH]; intros s Hs; [reflexivity | ].
  cbn [map]. rewrite !execBlock_range_cons.
  apply bind_cong; [now apply execBlock_at_withoutRescue | intros [] s1 Hrun].
  apply IH. eapply phaseKept_after; [apply phaseKept_execBlock_at | | ]; eassumption.
Qed.

Lemma execBlock_withoutRescue fuel h bs r w (s : state Store Client) :
  Phase (PStatus (pipeline s)) <> PipelinePhaseFailed ->
  execBlock E fuel (mkOptions h (map withoutRescue bs) r w) s =
  execBlock E fuel (mkOptions h bs r w) s.
Proof.
  intros Hs. unfold execBlock. cbn [blocks].
  rewrite (execBlock_range_blocks fuel h (map withoutRescue bs) bs).
  now apply execBlock_range_withoutRescue.
Qed.

Lemma phaseKept_execRoles fuel serials rs :
  satisfies phaseKept (execRoles E fuel serials rs).
Proof.
  apply satisfies_execRoles.
  - apply phaseKept_sequential.
  - apply phaseKept_Merge.
  - intros. apply phaseKept_execLeaf.
Qed.

Lemma execRoles_withoutRescue fuel serials rs :
  forall s : state Store Client,
    Phase (PStatus (pipeline s)) <> PipelinePhaseFailed ->
    execRoles E fuel serials (map roleWithoutRescue rs) s = execRoles E fuel serials rs s.
Proof.
  induction rs as [ | ro rest IH]; intros s Hs; [reflexivity | ].
  cbn [map execRoles].
  apply bind_cong; [reflexivity | intros [] s1 Hm].
  assert (Hs1 : Phase (PStatus (pipeline s1)) <> PipelinePhaseFailed)
    by (eapply phaseKept_after; [apply phaseKept_mergeVariable | | ]; eassumption).
  apply bind_cong; [now apply execBlock_withoutRescue | intros [] s2 Hb].
  apply IH. eapply phaseKept_after; [apply phaseKept_execBlock | | ]; eassumption.
Qed.

Lemma phaseKept_execBatch fuel play serials :
  satisfies phaseKept (execBatch E fuel play serials).
Proof.
  apply satisfies_execBatch.
  - apply phaseKept_sequential.
  - apply phaseKept_Merge.
  - intros. apply phaseKept_execLeaf.
Qed.

Lemma execBatch_withoutRescue fuel play serials (s : state Store Client) :
  Phase (PStatus (pipeline s)) <> PipelinePhaseFailed ->
  execBatch E fuel (playWithoutRescue play) serials s = execBatch E fuel play serials s.
Proof.
  intros Hs. unfold execBatch. destruct serials as [ | h hs]; [reflexivity | ].
  cbn [playWithoutRescue Play_Vars PreTasks Roles Tasks].
  apply bind_cong; [reflexivity | intros [] s1 H1].
  assert (Hs1 : Phase (PStatus (pipeline s1)) <> PipelinePhaseFailed)
    by (eapply phaseKept_after; [apply phaseKept_mergeVariable | | ]; eassumption).
  apply bind_cong; [now apply execBlock_withoutRescue | intros [] s2 H2].
  assert (Hs2 : Phase (PStatus (pipeline s2)) <> PipelinePhaseFailed)
    by (eapply phaseKept_after; [apply phaseKept_execBlock | | ]; eassumption).
  apply bind_cong; [now apply execRoles_withoutRescue | intros [] s3 H3].
  assert (Hs3 : Phase (PStatus (pipeline s3)) <> PipelinePhaseFailed)
    by (eapply phaseKept_after; [apply phaseKept_execRoles | | ]; eassumption).
  apply bind_cong; [now apply execBlock_withoutRescue | intros [] s4 H4].
  assert (Hs4 : Phase (PStatus (pipeline s4)) <> PipelinePhaseFailed)
    by (eapply phaseKept_after; [apply phaseKept_execBlock | | ]; eassumption).
  now apply execBlock_withoutRescue.
Qed.

Lemma execBatches_withoutRescue fuel play bs :
  forall s : state Store Client,
    Phase (PStatus (pipeline s)) <> PipelinePhaseFailed ->
    execBatches E fuel (playWithoutRescue play) bs s = execBatches E fuel play bs s.
Proof.
  induction bs as [ | b rest IH]; intros s Hs; [reflexivity | ].
  cbn [execBatches].
  apply bind_cong; [now apply execBatch_withoutRescue | intros [] s1 H1].
  apply IH. eapply phaseKept_after; [apply phaseKept_execBatch | | ]; eassumption.
Qed.

Lemma phaseKept_execPlay fuel play : satisfies phaseKept (execPlay E fuel play).
Proof.
  apply satisfies_execPlay.
  - apply phaseKept_sequential.
  - apply phaseKept_Merge.
  - intros. apply phaseKept_execLeaf.
  - intros. apply satisfies_quiet_phaseKept, quiet_Get_GatherFact.
  - intros. apply satisfies_quiet_phaseKept, quiet_MergeRemote.
Qed.

Lemma execPlay_withoutRescue fuel play (s : state Store Client) :
  Phase (PStatus (pipeline s)) <> PipelinePhaseFailed ->
  execPlay E fuel (playWithoutRescue play) s = execPlay E fuel play s.
Proof.
  intros Hs. unfold execPlay.
  cbn [playWithoutRescue Play_Tags PlayHost GatherFacts Play_RunOnce Serial].
  apply bind_cong; [reflexivity | intros p s0 [= <- <-]].
  destruct (negb _); [reflexivity | ].
  apply bind_cong; [reflexivity | intros ahn s1 [= <- <-]].
  destruct (match GetHostnames E (PlayHost play) (variable s) with
            | inl _ => []
            | inr l => l
            end) as [ | h0 hs]; [reflexivity | ].
  apply bind_cong; [reflexivity | intros [] s1 H1].
  assert (Hs1 : Phase (PStatus (pipeline s1)) <> PipelinePhaseFailed).
  { destruct (GatherFacts play); [ | now injection H1 as <-].
    eapply phaseKept_after;
      [apply satisfies_quiet_phaseKept, quiet_gatherFacts | | ]; eassumption. }
  apply bind_cong; [reflexivity | intros bs s2 H2].
  apply execBatches_withoutRescue.
  destruct (Play_RunOnce play); [now injection H2 as _ <- | ].
  destruct (GroupHostBySerial E (h0 :: hs) (Serial play)) as [err | b];
    [discriminate H2 | now injection H2 as _ <-].
Qed.

(** From a phase other than Failed the plays run as the plays without
    their rescue lists do. *)
Lemma execPlays_withoutRescue fuel ps :
  forall s : state Store Client,
    Phase (PStatus (pipeline s)) <> PipelinePhaseFailed ->
    execPlays E fuel (map playWithoutRescue ps) s = execPlays E fuel ps s.
Proof.
  induction ps as [ | play rest IH]; intros s Hs; [reflexivity | ].
  cbn [map execPlays].
  apply bind_cong; [now apply execPlay_withoutRescue | intros [] s1 H1].
  apply IH. eapply phaseKept_after; [apply phaseKept_execPlay | | ]; eassumption.
Qed.

(** X19: no block of a rescue list is ever walked by [Exec].  A walk
    that returns nil has assigned no phase, and a walk in which a task
    failed returns before the rescue test; since [Exec] starts by
    assigning Running, the test [Phase == Failed] never holds.  So
    [Exec] runs as it would on the playbook with every rescue list
    taken out: same result, same final state, same trace. *)
Theorem Exec_ignores_rescue_lists fuel (s : state Store Client) :
  Exec (withPlaybook playbookWithoutRescue E) fuel s = Exec E fuel s.
Proof.
  rewrite !Exec_unfold. unfold withDefer.
  enough (H : runPlaybook (withPlaybook playbookWithoutRescue E) fuel
                (snd (setPhase PipelinePhaseRunning s)) =
              runPlaybook E fuel (snd (setPhase PipelinePhaseRunning s)))
    by now rewrite H.
  assert (Hs : Phase (PStatus (pipeline (snd (setPhase PipelinePhaseRunning s)))) <>
               PipelinePhaseFailed) by (simpl; discriminate).
  revert Hs. generalize (snd (setPhase PipelinePhaseRunning s)). intros s0 Hs.
  unfold runPlaybook, bind, getPipeline. cbn [project_New withPlaybook].
  destruct (project_New E (pipeline s0)) as [err | pj]; [reflexivity | ].
  cbn [MarshalPlaybook].
  destruct (MarshalPlaybook pj) as [err | pb]; [reflexivity | ].
  cbn [playbookWithoutRescue Plays].
  change (execPlays (withPlaybook playbookWithoutRescue E) fuel
            (map playWithoutRescue (Plays pb)) s0)
    with (execPlays E fuel (map playWithoutRescue (Plays pb)) s0).
  now apply execPlays_withoutRescue.
Qed.

End Rescue.

(** ** The phase as it can be seen *)

Section Lifecycle.

Variables Store Client : Type.
Variable E : Env Store Client.

Local Open Scope exec_scope.

Lemma assignsLast_sequential : sequential (@assignsLast Store Client).
Proof.
  split.
  - intros s r _. exists []. rewrite app_nil_r. split; [reflexivity | now left].
  - intros s s1 s2 r (n1 & T1 & [(H1 & P1) | (w & _ & _ & (e & He) & _)]);
      [ | discriminate He].
    intros (n2 & T2 & [(H2 & P2) | (w & -> & Hw & He & P2 & F2)]).
    + exists (n1 ++ n2). rewrite T2, T1, app_assoc. split; [reflexivity | left].
      rewrite phaseHistory_app, H1, H2. split; [reflexivity | congruence].
    + exists (n1 ++ w ++ [EvPhase PipelinePhaseFailed]).
      rewrite T2, T1, <- app_assoc. split; [reflexivity | right].
      exists (n1 ++ w). rewrite app_assoc, phaseHistory_app, H1, Hw. auto.
Qed.

Lemma satisfies_quiet_assignsLast A (m : M Store Client A) :
  satisfies quiet m -> satisfies assignsLast m.
Proof.
  intros Hq s. destruct (Hq s) as (_ & P & new & T & H & _).
  exists new. split; [exact T | left]. now rewrite P.
Qed.

Lemma assignsLast_countTask task : satisfies assignsLast (@countTask Store Client task).
Proof.
  intros s. unfold countTask, IsFailed.
  destruct (Task_Phase (Status task)); simpl;
    try (exists []; rewrite app_nil_r; split; [reflexivity | now left]).
  exists [EvPhase PipelinePhaseFailed]. split; [reflexivity | right].
  exists []. repeat split; [eexists; reflexivity | ].
  simpl. now destruct (FailedDetail (PStatus (pipeline s))).
Qed.

Lemma assignsLast_execLeaf n o hs b : satisfies assignsLast (execLeaf E (S n) o hs b).
Proof.
  unfold execLeaf.
  apply satisfies_bind; [apply assignsLast_sequential | | intros t].
  { intros s. destruct (materializeTask_run E o hs b s) as (P & [(_ & T) | ((t & T) & _)]).
    - exists []. rewrite app_nil_r. split; [exact T | left]. now rewrite P.
    - exists [EvCreate t]. split; [exact T | left]. now rewrite P. }
  apply satisfies_bind; [apply assignsLast_sequential | | intros t'].
  { apply satisfies_quiet_assignsLast, quiet_driveLoop. }
  apply assignsLast_countTask.
Qed.

Lemma assignsLast_runPlaybook n : satisfies assignsLast (runPlaybook E (S n)).
Proof.
  apply satisfies_runPlaybook.
  - apply assignsLast_sequential.
  - intros. apply satisfies_quiet_assignsLast, quiet_Merge.
  - intros. apply assignsLast_execLeaf.
  - intros. apply satisfies_quiet_assignsLast, quiet_Get_GatherFact.
  - intros. apply satisfies_quiet_assignsLast, quiet_MergeRemote.
Qed.

(** While no phase is assigned, the phase in force is what is seen. *)
Lemma phasesSeen_work cur work tail :
  phaseHistory work = [] ->
  phasesSeen cur (work ++ tail) = repeat cur (length work) ++ phasesSeen cur tail.
Proof.
  induction work as [ | ev work IH]; intros Hw; [reflexivity | ].
  destruct ev as [p | site h vd ok | h name | t]; simpl in *;
    try discriminate Hw; now rewrite IH.
Qed.

Lemma followsLifecycle_Running k last :
  last = PipelinePhaseRunning \/ last = PipelinePhaseSucceed \/
  last = PipelinePhaseFailed ->
  followsLifecycle PipelinePhaseRunning (repeat PipelinePhaseRunning k ++ [last]) = true.
Proof.
  intros Hlast. induction k as [ | k IH]; simpl; [ | exact IH].
  destruct Hlast as [-> | [-> | ->]]; reflexivity.
Qed.

(** C3: in every execution of [Exec] the phase that can be seen goes
    from Running to Succeeded or Failed and makes no other move; on a
    pipeline that is Pending, as a new one is, it goes from Pending to
    Running and from there to Succeeded or Failed.  The first thing
    [Exec] does is to assign Running, which is what [project.New] is
    handed.  No phase is assigned while the run works ([work]): every
    merge, every call of a module and every [Create] happens in phase
    Running.  The assignments that follow ([closing]: the Failed of a
    failed task, the Succeeded and the Failed of the deferred function)
    come one after the other with nothing done in between, so that only
    the last of them is seen: when [Exec] returns the phase is Succeeded
    or Failed (it stays Running when the process ends in a host unit). *)
Theorem phase_seen_follows_lifecycle n (s : state Store Client) :
  exists work closing,
    trace (snd (Exec E (S n) s)) =
      trace s ++ EvPhase PipelinePhaseRunning :: work ++ closing /\
    phaseHistory work = [] /\
    forallb isPhaseEvent closing = true /\
    phasesSeen PipelinePhaseRunning (work ++ closing) =
      repeat PipelinePhaseRunning (length work) ++
        [Phase (PStatus (pipeline (snd (Exec E (S n) s))))] /\
    (fst (Exec E (S n) s) <> Crash ->
     Phase (PStatus (pipeline (snd (Exec E (S n) s)))) = PipelinePhaseSucceed \/
     Phase (PStatus (pipeline (snd (Exec E (S n) s)))) = PipelinePhaseFailed) /\
    followsLifecycle PipelinePhaseRunning
      (phasesSeen PipelinePhaseRunning (work ++ closing)) = true /\
    (Phase (PStatus (pipeline s)) = PipelinePhasePending ->
     followsLifecycle (Phase (PStatus (pipeline s)))
       (PipelinePhaseRunning :: phasesSeen PipelinePhaseRunning (work ++ closing)) = true).
Proof.
  assert (G : exists work closing,
             trace (snd (Exec E (S n) s)) =
               trace s ++ EvPhase PipelinePhaseRunning :: work ++ closing /\
             phaseHistory work = [] /\
             forallb isPhaseEvent closing = true /\
             phasesSeen PipelinePhaseRunning closing =
               [Phase (PStatus (pipeline (snd (Exec E (S n) s))))] /\
             (fst (Exec E (S n) s) = Crash /\
                Phase (PStatus (pipeline (snd (Exec E (S n) s)))) = PipelinePhaseRunning
              \/
              fst (Exec E (S n) s) <> Crash /\
                (Phase (PStatus (pipeline (snd (Exec E (S n) s)))) = PipelinePhaseSucceed \/
                 Phase (PStatus (pipeline (snd (Exec E (S n) s)))) = PipelinePhaseFailed))).
  { rewrite Exec_unfold. unfold withDefer.
    pose proof (sound_runPlaybook E n (snd (setPhase PipelinePhaseRunning s)))
      as (Hh & _).
    destruct (assignsLast_runPlaybook n (snd (setPhase PipelinePhaseRunning s)))
      as (new & Ht & Hnew).
    unfold halts in Hh.
    destruct (runPlaybook E (S n) (snd (setPhase PipelinePhaseRunning s))) as [r s1].
    cbn [fst snd] in Ht, Hnew, Hh.
    assert (Ht0 : trace s1 = trace s ++ EvPhase PipelinePhaseRunning :: new)
      by (rewrite Ht; simpl; now rewrite <- app_assoc).
    assert (Hdef : forall r0 : outcome unit,
               r0 <> Crash ->
               exists work closing,
                 trace (snd (r0, snd (updatePhase s1))) =
                   trace s ++ EvPhase PipelinePhaseRunning :: work ++ closing /\
                 phaseHistory work = [] /\
                 forallb isPhaseEvent closing = true /\
                 phasesSeen PipelinePhaseRunning closing =
                   [Phase (PStatus (pipeline (snd (r0, snd (updatePhase s1)))))] /\
                 (fst (r0, snd (updatePhase s1)) = Crash /\
                    Phase (PStatus (pipeline (snd (r0, snd (updatePhase s1))))) =
                      PipelinePhaseRunning
                  \/
                  fst (r0, snd (updatePhase s1)) <> Crash /\
                    (Phase (PStatus (pipeline (snd (r0, snd (updatePhase s1))))) =
                       PipelinePhaseSucceed \/
                     Phase (PStatus (pipeline (snd (r0, snd (updatePhase s1))))) =
                       PipelinePhaseFailed))).
    { intros r0 Hr0. cbn [fst snd].
      destruct (updatePhase_run s1) as (_ & _ & Htr & Hph). cbv zeta in Htr, Hph.
      rewrite Htr, Hph, Ht0.
      destruct Hnew as [(Hw & _) | (work & -> & Hw & _ & _ & Hfd)].
      - exists new,
          (EvPhase PipelinePhaseSucceed ::
             match FailedDetail (PStatus (pipeline s1)) with
             | [] => []
             | _ :: _ => [EvPhase PipelinePhaseFailed]
             end).
        split; [now rewrite <- app_assoc | split; [exact Hw | ]].
        destruct (FailedDetail (PStatus (pipeline s1))); simpl;
          (split; [reflexivity | split; [reflexivity | right; split; [exact Hr0 | auto]]]).
      - exists work,
          [EvPhase PipelinePhaseFailed; EvPhase PipelinePhaseSucceed;
           EvPhase PipelinePhaseFailed].
        destruct (FailedDetail (PStatus (pipeline s1))) as [ | d ds];
          [now contradiction Hfd | ].
        split; [rewrite <- app_assoc; cbn [app]; now rewrite <- app_assoc | ].
        split; [exact Hw | simpl].
        split; [reflexivity | split; [reflexivity | right; split; [exact Hr0 | auto]]]. }
    destruct r as [[] | e | | | ].
    - apply (Hdef (Done tt)). discriminate.
    - apply (Hdef (Raise e)). discriminate.
    - apply (Hdef Panic). discriminate.
    - cbn [fst snd].
      destruct Hnew as [(Hw & Hp) | (work & _ & _ & (e & He) & _)];
        [ | discriminate He].
      exists new, []. rewrite app_nil_r, Hp. simpl.
      split; [exact Ht0 | split; [exact Hw | split; [reflexivity | ]]].
      split; [reflexivity | left; auto].
    - now contradiction Hh. }
  destruct G as (work & closing & Ht & Hw & Hc & Hseen & Hend).
  exists work, closing.
  assert (Hall : phasesSeen PipelinePhaseRunning (work ++ closing) =
                 repeat PipelinePhaseRunning (length work) ++
                   [Phase (PStatus (pipeline (snd (Exec E (S n) s))))])
    by now rewrite (phasesSeen_work _ _ _ Hw), Hseen.
  assert (Hlife : followsLifecycle PipelinePhaseRunning
                    (phasesSeen PipelinePhaseRunning (work ++ closing)) = true).
  { rewrite Hall. apply followsLifecycle_Running.
    destruct Hend as [(_ & ->) | (_ & [-> | ->])]; auto. }
  split; [exact Ht | split; [exact Hw | split; [exact Hc | split; [exact Hall | ]]]].
  split; [ | split; [exact Hlife | ]].
  - intros Hcrash. destruct Hend as [(Hc' & _) | (_ & Hp)]; [contradiction | exact Hp].
  - intros ->. cbn [followsLifecycle samePhase allowedMove orb andb]. exact Hlife.
Qed.

End Lifecycle.

(** ** The properties at work *)

Section MoreWorked.

Import Lab Scenario Cases.

Lemma phase_seen_witness :
  let E := env (mkPlaybook [failing]) in
  let s := start hostA 100 in
  Phase (PStatus (pipeline s)) = PipelinePhasePending /\
  exists work closing,
    trace (snd (Exec E 1 s)) =
      trace s ++ EvPhase PipelinePhaseRunning :: work ++ closing /\
    phaseHistory work = [] /\
    forallb isPhaseEvent closing = true /\
    followsLifecycle PipelinePhasePending
      (PipelinePhaseRunning :: phasesSeen PipelinePhaseRunning (work ++ closing)) = true.
Proof.
  intros E s. split; [reflexivity | ].
  destruct (phase_seen_follows_lifecycle E 0 s)
    as (work & closing & Ht & Hw & Hc & _ & _ & _ & Hl).
  exists work, closing.
  split; [exact Ht | split; [exact Hw | split; [exact Hc | exact (Hl eq_refl)]]].
Defined.

Lemma disabled_blocks_witness :
  let s := startSkipping hostA 10 in
  let bs := [tagged "t1"; tagged "t2"] in
  (forall b, In b bs ->
     IsEnabled noPlays (Block_Tags b) (Tags (pipeline s)) (SkipTags (pipeline s)) = false) /\
  execBlock_range noPlays 1 options0 bs s = (Done tt, s).
Proof.
  intros s bs.
  assert (H : forall b, In b bs ->
                IsEnabled noPlays (Block_Tags b) (Tags (pipeline s))
                  (SkipTags (pipeline s)) = false)
    by (intros b [<- | [<- | []]]; reflexivity).
  split; [exact H | ].
  exact (proj1 (disabled_blocks_are_skipped noPlays 1 options0 bs s H)).
Defined.

Lemma include_references_witness :
  let s := start hostA 10 in
  forallb isIncludeRef [included] = true /\
  pipeline (snd (execBlock_range noPlays 1 options0 [included] s)) = pipeline s /\
  client (snd (execBlock_range noPlays 1 options0 [included] s)) = client s /\
  exists new,
    trace (snd (execBlock_range noPlays 1 options0 [included] s)) = trace s ++ new /\
    forallb isVarsMerge new = true.
Proof.
  intros s. split; [reflexivity | ].
  exact (include_references_only_merge_vars noPlays 1 options0 [included] s eq_refl).
Defined.

Lemma unmet_when_witness :
  let s := start twoHosts 10 in
  Spec_When (Spec conditional) <> [] /\
  exists arrived,
    Permutation arrived [mkHostOutput "a" "skip" ""; mkHostOutput "b" "skip" ""] /\
    executeTask secondFirst conditional options0 s =
      (Done (aggregate conditional arrived), s).
Proof.
  intros s.
  assert (H : Spec_When (Spec conditional) <> []) by discriminate.
  split; [exact H | ].
  assert (Hs : forall h, In h (Spec_Hosts (Spec conditional)) ->
                 exists ha, GetAllVariable secondFirst h (variable s) = inr ha /\
                            ParseBool secondFirst ha (Spec_When (Spec conditional)) =
                              inr false)
    by (intros h [<- | [<- | []]]; eexists; split; reflexivity).
  destruct (unmet_when_skips_every_host secondFirst conditional options0 s H eq_refl Hs)
    as (arrived & Hperm & Hrun & _).
  exists arrived. split; assumption.
Defined.

(** The results arrive in the order the host units come to run: with
    the second unit first, [b] reports before [a]. *)
Lemma results_arrive_as_scheduled :
  let s := start twoHosts 10 in
  executeTask secondFirst conditional options0 s =
    (Done (aggregate conditional
             [mkHostOutput "b" "skip" ""; mkHostOutput "a" "skip" ""]), s) /\
  executeTask noPlays conditional options0 s =
    (Done (aggregate conditional
             [mkHostOutput "a" "skip" ""; mkHostOutput "b" "skip" ""]), s).
Proof. split; reflexivity. Qed.

Lemma module_calls_witness :
  let s := start hostA 10 in
  (forall ha raw, Loop_Raw (Spec looping) = Some raw ->
     length (Extension2Slice twice ha raw) <= 2) /\
  exists new,
    trace (snd (executeTask twice looping options0 s)) = trace s ++ new /\
    countModule new <= 2 * length (Spec_Hosts (Spec looping)).
Proof.
  intros s.
  assert (H : forall ha raw, Loop_Raw (Spec looping) = Some raw ->
                length (Extension2Slice twice ha raw) <= 2)
    by (intros ha raw _; apply le_n).
  split; [exact H | ].
  exact (module_calls_bounded_by_loop twice looping options0 s (le_S 1 1 (le_n 1)) H).
Defined.

Lemma run_once_play_witness :
  let s := start twoHosts 100 in
  Play_RunOnce once = true /\
  GetHostnames (env (mkPlaybook [once])) (PlayHost once) (variable s) = inr ["a"; "b"] /\
  exists new,
    trace (snd (execPlay (env (mkPlaybook [once])) 1 once s)) = trace s ++ new /\
    forall t, In t (createdTasks new) -> Spec_Hosts (Spec t) = ["a"].
Proof.
  intros s. split; [reflexivity | split; [reflexivity | ]].
  exact (@run_once_play_uses_first_host _ _ (env (mkPlaybook [once])) 0 once "a" ["b"] s
           eq_refl eq_refl).
Defined.

Lemma idle_playbook_witness :
  let E := env (mkPlaybook [hostless; slowPlay]) in
  let s := startSkipping hostA 10 in
  (forall play, In play [hostless; slowPlay] ->
     IsEnabled E (Play_Tags play) (Tags (pipeline s)) (SkipTags (pipeline s)) = false \/
     forall h hs, GetHostnames E (PlayHost play) (variable s) <> inr (h :: hs)) /\
  fst (Exec E 1 s) = Done tt /\
  variable (snd (Exec E 1 s)) = variable s /\
  client (snd (Exec E 1 s)) = client s.
Proof.
  intros E s.
  assert (H : forall play, In play [hostless; slowPlay] ->
     IsEnabled E (Play_Tags play) (Tags (pipeline s)) (SkipTags (pipeline s)) = false \/
     forall h hs, GetHostnames E (PlayHost play) (variable s) <> inr (h :: hs)).
  { intros play [<- | [<- | []]]; [right; intros h hs; discriminate | left; reflexivity]. }
  split; [exact H | ].
  destruct (@playbook_without_hosts_is_idle _ _ E 1
              (mkProject (inr (mkPlaybook [hostless; slowPlay])))
              (mkPlaybook [hostless; slowPlay]) s eq_refl eq_refl H)
    as (Hx & Hv & Hc & _).
  split; [now rewrite Hx | split; assumption].
Defined.

Lemma unloadable_project_witness :
  let s := start hostA 10 in
  project_New broken (pipeline (snd (setPhase PipelinePhaseRunning s))) =
    inl "no such playbook" /\
  fst (Exec broken 1 s) = Raise (Upstream "no such playbook") /\
  Phase (PStatus (pipeline (snd (Exec broken 1 s)))) = PipelinePhaseSucceed.
Proof.
  intros s. split; [reflexivity | ].
  destruct (@unloadable_project_ends_Succeeded _ _ broken 1 "no such playbook" s
              (or_introl eq_refl)) as (Hr & _ & _ & _ & Hp).
  split; assumption.
Defined.

Lemma empty_batch_witness :
  let s := start hostA 100 in
  let s1 := snd (execBatches noPlays 1 fourLists [["a"]] s) in
  execBatches noPlays 1 fourLists [["a"]] s = (Done tt, s1) /\
  execBatches noPlays 1 fourLists ([["a"]] ++ [] :: [["a"]]) s = (Raise HostIsEmpty, s1).
Proof.
  intros s s1.
  assert (H : execBatches noPlays 1 fourLists [["a"]] s = (Done tt, s1))
    by (vm_compute; reflexivity).
  split; [exact H | ].
  exact (@empty_batch_aborts _ _ noPlays 1 fourLists [["a"]] [["a"]] s s1 H).
Defined.

Lemma run_once_without_hosts_witness :
  let s := start hostA 10 in
  hosts noHosts = [] /\ RunOnce onceBlock = true /\
  execBlock_range noPlays 1 noHosts [onceBlock; leaf "t2" "echo" ANil] s = (Panic, s).
Proof.
  intros s. split; [reflexivity | split; [reflexivity | ]].
  exact (@run_once_without_hosts_panics _ _ noPlays 1 noHosts onceBlock
           [leaf "t2" "echo" ANil] s eq_refl eq_refl eq_refl).
Defined.

End MoreWorked.
